(** * EnsemblLite: annotation records and homology groups

    A shallow embedding of [ensembl_lite/_genomedb.py] and
    [ensembl_lite/_homologydb.py], followed by the properties of the
    record normaliser, the relationship builder, the feature store, the
    homology clusterer, the merge engine and the homology store, and
    then by further properties of these and of the conversion of
    sequences, the gene table and the path from a file to a store.

    Python values are modelled as follows.
    - [str] is [string], read as a text of ASCII characters (codes below
      128); on other texts Python's case mapping, word boundaries,
      whitespace and UTF-8 encoding are not those modelled here, and the
      properties that depend on them are stated for ASCII texts.
    - [int] is [Z]; an integer bound to a statement of sqlite has to fit
      64 bits.
    - [None] for an optional text attribute is [option string].
    - A [dict] whose iteration order is observed is an association list
      in insertion order; a [dict] or [set] whose order is not observed
      is a [gmap] or [gset].
    - Objects that are mutated while several names refer to them
      (homology groups, descendant sets) live in an explicit heap, a list
      indexed by allocation order.
    - sqlite tables are lists of rows in insertion order, and a view
      lists its rows in the order of the nested loops as written; the
      lookup of a homology group, whose [LIMIT 1] depends on the order of
      the rows, takes them as sqlite goes through the key of [member]. *)

From Stdlib Require Import ZArith Ascii String DecimalString.
From Stdlib Require DecimalPos DecimalZ.
From stdpp Require Import base option list gmap strings sorting.

Open Scope Z_scope.
Open Scope string_scope.
Open Scope list_scope.

(** ** Python string operations *)

Module PyStr.

Definition is_alpha (c : ascii) : bool :=
  let n := nat_of_ascii c in
  ((65 <=? n)%nat && (n <=? 90)%nat) || ((97 <=? n)%nat && (n <=? 122)%nat).

Definition is_digit (c : ascii) : bool :=
  let n := nat_of_ascii c in (48 <=? n)%nat && (n <=? 57)%nat.

(** The class [\w] of [re]: letters, digits and the underscore. *)
Definition is_word (c : ascii) : bool :=
  is_alpha c || is_digit c || (nat_of_ascii c =? 95)%nat.

Definition lower_char (c : ascii) : ascii :=
  let n := nat_of_ascii c in
  if (65 <=? n)%nat && (n <=? 90)%nat then ascii_of_nat (n + 32) else c.

(** [str.lower] *)
Fixpoint lower (s : string) : string :=
  match s with
  | EmptyString => EmptyString
  | String c s' => String (lower_char c) (lower s')
  end.

(** [s.startswith(p)] *)
Fixpoint startswith (p s : string) : bool :=
  match p, s with
  | EmptyString, _ => true
  | String a p', String b s' => if Ascii.eqb a b then startswith p' s' else false
  | String _ _, EmptyString => false
  end.

(** [p in s] for strings *)
Fixpoint contains (p s : string) : bool :=
  startswith p s ||
  match s with
  | EmptyString => false
  | String _ s' => contains p s'
  end.

(** [s[n:]] *)
Fixpoint drop_chars (n : nat) (s : string) : string :=
  match n, s with
  | O, _ => s
  | S n', String _ s' => drop_chars n' s'
  | S _, EmptyString => EmptyString
  end.

(** The longest prefix of [s] without the character [sep]: the match of
    [[^sep]*] at the start of [s], and [s.split(sep)[0]]. *)
Fixpoint take_until (sep : ascii) (s : string) : string :=
  match s with
  | EmptyString => EmptyString
  | String c s' => if Ascii.eqb c sep then EmptyString else String c (take_until sep s')
  end.

(** The longest prefix of letters, and what follows it. *)
Fixpoint span_alpha (s : string) : string * string :=
  match s with
  | EmptyString => (EmptyString, EmptyString)
  | String c s' =>
      if is_alpha c then let '(run, rest) := span_alpha s' in (String c run, rest)
      else (EmptyString, s)
  end.

(** [re.compile(r"\b[a-z]+:", flags=re.IGNORECASE).sub(repl, s)].

    [prev] tells whether the character before the current position is a
    word character, and [skip] counts the characters of a match found
    earlier that are still to be passed over.  A match starts where a
    letter follows a non-word character (or the start of the text), takes
    the whole run of letters and needs a colon right after it. *)
Fixpoint typed_id_sub_from (repl : string -> string) (prev : bool) (skip : nat)
    (s : string) : string :=
  match s with
  | EmptyString => EmptyString
  | String c s' =>
      match skip with
      | S k => typed_id_sub_from repl (is_word c) k s'
      | O =>
          if negb prev && is_alpha c then
            let '(run, rest) := span_alpha s in
            if startswith ":" rest
            then repl (run +:+ ":") +:+ typed_id_sub_from repl (is_word c) (String.length run) s'
            else String c (typed_id_sub_from repl (is_word c) O s')
          else String c (typed_id_sub_from repl (is_word c) O s')
      end
  end.

Definition typed_id_sub (repl : string -> string) (s : string) : string :=
  typed_id_sub_from repl false O s.

(** [re.compile(r"(?<=\bKEY)[^;]+").search(s)], for a [KEY] that starts
    with a word character: the text up to the next semicolon after the
    first [KEY] that starts a word and is followed by a character other
    than a semicolon. *)
Fixpoint search_field_from (key : string) (prev : bool) (s : string) : option string :=
  match s with
  | EmptyString => None
  | String c s' =>
      let value := take_until ";" (drop_chars (String.length key) s) in
      if negb prev && startswith key s && negb (String.eqb value "")
      then Some value
      else search_field_from key (is_word c) s'
  end.

Definition search_field (key s : string) : option string :=
  search_field_from key false s.

(** [str(n)] for an [int] *)
Definition of_int (n : Z) : string := NilZero.string_of_int (Z.to_int n).

(** [",".join(l)] *)
Fixpoint join_comma (l : list string) : string :=
  match l with
  | [] => ""
  | [x] => x
  | x :: l' => x +:+ "," +:+ join_comma l'
  end.

(** [s.split(",")]: [cur] is the piece read so far. *)
Fixpoint split_comma_from (cur : string) (s : string) : list string :=
  match s with
  | EmptyString => [cur]
  | String c s' =>
      if Ascii.eqb c ","
      then cur :: split_comma_from "" s'
      else split_comma_from (cur +:+ String c "") s'
  end.

Definition split_comma (s : string) : list string := split_comma_from "" s.

(** [str.isspace] on one character: tab to carriage return, the four
    separators and the space. *)
Definition is_space (c : ascii) : bool :=
  let n := nat_of_ascii c in
  ((9 <=? n)%nat && (n <=? 13)%nat) || ((28 <=? n)%nat && (n <=? 32)%nat).

(** [s.split()]: the runs of characters other than whitespace; [cur] is
    the run read so far. *)
Fixpoint split_ws_from (cur : string) (s : string) : list string :=
  match s with
  | EmptyString => if String.eqb cur "" then [] else [cur]
  | String c s' =>
      if is_space c
      then (if String.eqb cur "" then split_ws_from "" s' else cur :: split_ws_from "" s')
      else split_ws_from (cur +:+ String c "") s'
  end.

Definition split_ws (s : string) : list string := split_ws_from "" s.

(** Every character of [s] passes the test [p]. *)
Fixpoint all_chars (p : ascii -> bool) (s : string) : bool :=
  match s with
  | EmptyString => true
  | String c s' => p c && all_chars p s'
  end.

(** [s.isascii()]: every character has a code below 128.  On such texts
    the operations of this module are those of Python; beyond them
    [str.lower], [str.split], the classes of [re] and the encoding to
    UTF-8 do more than is modelled here. *)
Definition isascii (s : string) : bool :=
  all_chars (fun c => (nat_of_ascii c <? 128)%nat) s.

End PyStr.

(** ** sqlite row ids *)

Module Sqlite.

(** The id given to a new row of a table with an integer primary key
    from which nothing is deleted: one more than the largest in use. *)
Definition fresh_id (ids : list Z) : Z := 1 + foldr Z.max 0 ids.

(** The integers that sqlite holds: 64 bits with a sign.  Binding a
    Python [int] outside this range to a statement raises
    [OverflowError]. *)
Definition int64 (z : Z) : Prop := - 2 ^ 63 <= z < 2 ^ 63.

#[export] Instance int64_dec z : Decision (int64 z).
Proof. unfold int64. apply _. Defined.

End Sqlite.

(** ** Annotation records: [_genomedb.py] *)

Module GenomeDb.
Import PyStr Sqlite.

(** One annotation line as the library function [gff_parser] of
    [cogent3] hands it to [make_record]: the nine columns, coordinates
    already integers, and the trailing comment.  A feature on the minus
    strand arrives with [start] and [stop] exchanged, so
    [l_start <= l_stop] is not implied. *)
Record GffLine := {
  l_seqid : string;
  l_source : string;
  l_type : string;
  l_start : Z;
  l_stop : Z;
  l_score : string;
  l_strand : string;
  l_phase : string;
  l_attrs : string;
  l_comments : option string
}.

(** [EnsemblGffRecord]: the slots of [GffRecord] and [feature_id].  An
    unset [spans] is the empty list ([record.spans or []] does not tell
    them apart). *)
Record EnsemblGffRecord := {
  seqid : string;
  source : string;
  biotype : string;
  name : option string;
  parent_id : option string;
  start : Z;
  stop : Z;
  spans : list (Z * Z);
  score : string;
  strand : string;
  phase : string;
  comments : option string;
  attrs : string;
  feature_id : option Z
}.

Definition set_name (v : option string) (r : EnsemblGffRecord) : EnsemblGffRecord :=
  {| seqid := seqid r; source := source r; biotype := biotype r; name := v;
     parent_id := parent_id r; start := start r; stop := stop r; spans := spans r;
     score := score r; strand := strand r; phase := phase r;
     comments := comments r; attrs := attrs r; feature_id := feature_id r |}.

Definition set_parent_id (v : option string) (r : EnsemblGffRecord) : EnsemblGffRecord :=
  {| seqid := seqid r; source := source r; biotype := biotype r; name := name r;
     parent_id := v; start := start r; stop := stop r; spans := spans r;
     score := score r; strand := strand r; phase := phase r;
     comments := comments r; attrs := attrs r; feature_id := feature_id r |}.

Definition set_biotype (v : string) (r : EnsemblGffRecord) : EnsemblGffRecord :=
  {| seqid := seqid r; source := source r; biotype := v; name := name r;
     parent_id := parent_id r; start := start r; stop := stop r; spans := spans r;
     score := score r; strand := strand r; phase := phase r;
     comments := comments r; attrs := attrs r; feature_id := feature_id r |}.

Definition set_start (v : Z) (r : EnsemblGffRecord) : EnsemblGffRecord :=
  {| seqid := seqid r; source := source r; biotype := biotype r; name := name r;
     parent_id := parent_id r; start := v; stop := stop r; spans := spans r;
     score := score r; strand := strand r; phase := phase r;
     comments := comments r; attrs := attrs r; feature_id := feature_id r |}.

Definition set_stop (v : Z) (r : EnsemblGffRecord) : EnsemblGffRecord :=
  {| seqid := seqid r; source := source r; biotype := biotype r; name := name r;
     parent_id := parent_id r; start := start r; stop := v; spans := spans r;
     score := score r; strand := strand r; phase := phase r;
     comments := comments r; attrs := attrs r; feature_id := feature_id r |}.

Definition set_spans (v : list (Z * Z)) (r : EnsemblGffRecord) : EnsemblGffRecord :=
  {| seqid := seqid r; source := source r; biotype := biotype r; name := name r;
     parent_id := parent_id r; start := start r; stop := stop r; spans := v;
     score := score r; strand := strand r; phase := phase r;
     comments := comments r; attrs := attrs r; feature_id := feature_id r |}.

Definition set_attrs (v : string) (r : EnsemblGffRecord) : EnsemblGffRecord :=
  {| seqid := seqid r; source := source r; biotype := biotype r; name := name r;
     parent_id := parent_id r; start := start r; stop := stop r; spans := spans r;
     score := score r; strand := strand r; phase := phase r;
     comments := comments r; attrs := v; feature_id := feature_id r |}.

Definition set_feature_id (v : option Z) (r : EnsemblGffRecord) : EnsemblGffRecord :=
  {| seqid := seqid r; source := source r; biotype := biotype r; name := name r;
     parent_id := parent_id r; start := start r; stop := stop r; spans := spans r;
     score := score r; strand := strand r; phase := phase r;
     comments := comments r; attrs := attrs r; feature_id := v |}.

(** The constructor [EnsemblGffRecord] as the parser calls it: [name],
    [parent_id], [spans] and [feature_id] keep their default [None]. *)
Definition make_record (l : GffLine) : EnsemblGffRecord :=
  {| seqid := l_seqid l; source := l_source l; biotype := l_type l; name := None;
     parent_id := None; start := l_start l; stop := l_stop l; spans := [];
     score := l_score l; strand := l_strand l; phase := l_phase l;
     comments := l_comments l; attrs := l_attrs l; feature_id := None |}.

(** [tidy_gff3_stableids], on an ASCII text: there the letters that
    [[a-z]] matches under [IGNORECASE], the word characters that decide
    [\b] and the letters that [str.lower] changes are the ASCII ones. *)
Definition tidy_gff3_stableids (a : string) : string := typed_id_sub lower a.

(** The property [stableid]: the name without its type prefixes. *)
Definition stableid (r : EnsemblGffRecord) : string :=
  typed_id_sub (fun _ => "") (default "" (name r)).

(** The property [is_canonical] *)
Definition is_canonical (r : EnsemblGffRecord) : bool :=
  contains "Ensembl_canonical" (attrs r).

(** [EnsemblGffRecord.update_from_attrs] *)
Definition update_from_attrs (r : EnsemblGffRecord) : EnsemblGffRecord :=
  let id_key := if contains "ID=" (attrs r) then "ID=" else "exon_id=" in
  let attr := tidy_gff3_stableids (attrs r) in
  let r1 := match search_field id_key attr with
            | Some feature_id => set_name (Some feature_id) r
            | None => r
            end in
  let r2 := match search_field "Parent=" attr with
            | Some pid => set_parent_id (Some (take_until "," pid)) r1
            | None => r1
            end in
  let nm := default "" (name r2) in
  if contains ":" nm then
    let b := take_until ":" nm in
    set_biotype (if String.eqb b "transcript" then "mrna" else b) r2
  else r2.

(** A [dict] in insertion order.  [reduced] is keyed by the record,
    which hashes and compares as its name, so its keys are names. *)
Fixpoint dict_get `{EqDecision K} {V} (k : K) (d : list (K * V)) : option V :=
  match d with
  | [] => None
  | (k', v) :: d' => if decide (k = k') then Some v else dict_get k d'
  end.

Fixpoint dict_alter `{EqDecision K} {V} (f : V -> V) (k : K) (d : list (K * V))
    : list (K * V) :=
  match d with
  | [] => []
  | (k', v) :: d' =>
      if decide (k = k') then (k', f v) :: d' else (k', v) :: dict_alter f k d'
  end.

(** [d[k] = v]: the value of an existing key is replaced in place, a new
    key goes to the end. *)
Fixpoint dict_set `{EqDecision K} {V} (k : K) (v : V) (d : list (K * V))
    : list (K * V) :=
  match d with
  | [] => [(k, v)]
  | (k', v') :: d' =>
      if decide (k = k') then (k', v) :: d' else (k', v') :: dict_set k v d'
  end.

(** The three assignments that close the loop body of
    [custom_gff_parser], on the stored record [e] for the line record [r]. *)
Definition absorb (r e : EnsemblGffRecord) : EnsemblGffRecord :=
  set_stop (Z.max (stop e) (stop r))
    (set_start (Z.min (start e) (start r))
       (set_spans (spans e ++ [(start r, stop r)]) e)).

(** The first half of the loop body: the record of a line with its
    attributes read and, when it has no name, a made-up one. *)
Definition named_record (l : GffLine) (num_fake_ids : Z) : EnsemblGffRecord * string * Z :=
  let r := update_from_attrs (make_record l) in
  match name r with
  | Some (String c s) => (r, String c s, num_fake_ids)
  | _ =>
      let k := "unknown-" +:+ of_int num_fake_ids in
      (set_name (Some k) r, k, num_fake_ids + 1)
  end.

(** One turn of the loop of [custom_gff_parser]. *)
Definition parser_step (st : list (string * EnsemblGffRecord) * Z) (l : GffLine)
    : list (string * EnsemblGffRecord) * Z :=
  let '(reduced, num_fake_ids) := st in
  let '(r, k, n) := named_record l num_fake_ids in
  let reduced1 :=
    match dict_get k reduced with
    | None => reduced ++ [(k, r)]
    | Some _ => reduced
    end in
  (dict_alter (absorb r) k reduced1, n).

(** [custom_gff_parser], on the lines of the file at [path]. *)
Definition custom_gff_parser (lines : list GffLine) (num_fake_ids : Z)
    : list (string * EnsemblGffRecord) * Z :=
  fold_left parser_step lines ([], num_fake_ids).

(** The records of the lines in reading order, each with the name it is
    filed under: the first half of the loop body alone. *)
Fixpoint named_records (lines : list GffLine) (num_fake_ids : Z)
    : list (string * EnsemblGffRecord) :=
  match lines with
  | [] => []
  | l :: rest =>
      let '(r, k, n) := named_record l num_fake_ids in
      (k, r) :: named_records rest n
  end.

(** The records filed under the name [k], in reading order. *)
Definition records_named (k : string) (lines : list GffLine) (num_fake_ids : Z)
    : list EnsemblGffRecord :=
  (filter (fun kr => kr.1 = k) (named_records lines num_fake_ids)).*2.

(** The identifier a line carries itself, if any. *)
Definition line_id (l : GffLine) : option string :=
  match name (update_from_attrs (make_record l)) with
  | Some (String c s) => Some (String c s)
  | _ => None
  end.

(** *** [make_gene_relationships]

    The records are objects: [recs] holds them by position, and the
    dictionaries and sets below hold positions.  A descendant set is an
    object too (the one stored under a gene may be fetched and updated
    again), so the sets live in [sets] and [genes] holds their positions. *)
Record rel_state := {
  recs : list EnsemblGffRecord;
  sets : list (list nat);
  genes : list (option string * (nat * nat))
}.

(** [related]: lower-cased biotype, then name, to the record. *)
Definition bucket (recs : list EnsemblGffRecord)
    : list (string * list (option string * nat)) :=
  fold_left
    (fun related '(i, record) =>
       let b := lower (biotype record) in
       let bt := default [] (dict_get b related) in
       dict_set b (dict_set (name record) i bt) related)
    (imap (fun i r => (i, r)) recs) [].

(** [s.add(x)] on a set of records: an element equal to [x], that is of
    the same name, stays. *)
Definition set_add_record (recs : list EnsemblGffRecord) (i : nat) (s : list nat) : list nat :=
  if existsb (fun j => bool_decide (name <$> recs !! j = name <$> recs !! i)) s
  then s else s ++ [i].

(** One turn of the loop over [related["cds"].values()]; [None] is a
    [KeyError]. *)
Definition gene_step (related : list (string * list (option string * nat)))
    (st : rel_state) (c : nat) : option rel_state :=
  cds_record ← recs st !! c;
  mrnas ← dict_get "mrna" related;
  m ← dict_get (parent_id cds_record) mrnas;
  mrna_record ← recs st !! m;
  let recs1 :=
    if is_canonical mrna_record
    then alter (set_attrs ("Ensembl_canonical;" +:+ attrs cds_record)) c (recs st)
    else recs st in
  genes_by_name ← dict_get "gene" related;
  g ← dict_get (parent_id mrna_record) genes_by_name;
  gene ← recs1 !! g;
  (* gene_relationships = genes.get(gene.stableid, set()) *)
  let '(ref, sets1) :=
    match dict_get (Some (stableid gene)) (genes st) with
    | Some (_, ref) => (ref, sets st)
    | None => (length (sets st), sets st ++ [[]])
    end in
  (* gene_relationships.update((cds_record, mrna_record)) *)
  let sets2 := alter (fun s => set_add_record recs1 m (set_add_record recs1 c s)) ref sets1 in
  (* genes[gene] = gene_relationships: a key already there stays *)
  let genes1 :=
    match dict_get (name gene) (genes st) with
    | Some (g0, _) => dict_set (name gene) (g0, ref) (genes st)
    | None => dict_set (name gene) (g, ref) (genes st)
    end in
  Some {| recs := recs1; sets := sets2; genes := genes1 |}.

Fixpoint gene_loop (related : list (string * list (option string * nat)))
    (st : rel_state) (cs : list nat) : option rel_state :=
  match cs with
  | [] => Some st
  | c :: cs' =>
      st' ← gene_step related st c;
      gene_loop related st' cs'
  end.

(** [make_gene_relationships]; [None] is a [KeyError]. *)
Definition make_gene_relationships (records : list EnsemblGffRecord) : option rel_state :=
  let related := bucket records in
  cds ← dict_get "cds" related;
  gene_loop related {| recs := records; sets := []; genes := [] |} (cds.*2).

(** The returned mapping read by names: each gene with the names of the
    records in its set. *)
Definition relationships_by_name (st : rel_state)
    : list (option string * list (option string)) :=
  map (fun '(k, (_, ref)) =>
         (k, omap (fun i => name <$> recs st !! i) (default [] (sets st !! ref))))
      (genes st).

(** *** [EnsemblGffDb] *)

(** Modelled from the spec: the base class [SqliteDbMixin], which creates
    the tables and runs the statements, is not among the sources.  A row
    of the relational feature table has the columns that
    [_feature_schema] declares, and the integer [id] is its only key. *)
Record feature_row := {
  f_seqid : string;
  f_source : string;
  f_start : Z;
  f_stop : Z;
  f_score : string;
  f_strand : string;
  f_phase : string;
  f_attributes : string;
  f_comments : option string;
  f_spans : list (Z * Z);
  f_stableid : string;
  f_is_canonical : bool;
  f_biotype_id : Z;
  f_id : Z
}.

(** The tables [biotype] (type, id) and [feature], and the cache of
    [_get_biotype_id]. *)
Record EnsemblGffDb := {
  biotype_tbl : list (string * Z);
  feature_tbl : list feature_row;
  biotype_cache : gmap string Z
}.

(** [_get_biotype_id], with the cache of [functools.cache]. *)
Definition _get_biotype_id (db : EnsemblGffDb) (b : string) : EnsemblGffDb * Z :=
  match biotype_cache db !! b with
  | Some i => (db, i)
  | None =>
      let i := fresh_id (biotype_tbl db).*2 in
      ({| biotype_tbl := biotype_tbl db ++ [(b, i)];
          feature_tbl := feature_tbl db;
          biotype_cache := <[b := i]> (biotype_cache db) |}, i)
  end.

(** The numbers of a span list, as [numpy.array(spans)] holds them. *)
Definition coords (sp : list (Z * Z)) : list Z :=
  flat_map (fun '(a, b) => [a; b]) sp.

(** [int(spans.min())] and [int(spans.max())]; [None] on an empty array. *)
Definition spans_min (sp : list (Z * Z)) : option Z :=
  match coords sp with
  | [] => None
  | x :: xs => Some (foldr Z.min x xs)
  end.

Definition spans_max (sp : list (Z * Z)) : option Z :=
  match coords sp with
  | [] => None
  | x :: xs => Some (foldr Z.max x xs)
  end.

(** [add_feature(feature=...)]: the store and the record after the call,
    or [None] when the call raises: [spans.min()] on an empty array, or
    the [INSERT] on a [start] or [stop] that sqlite cannot hold, which are
    the two integers of the record bound to the statement.  The span
    list is taken to hold 64-bit integers, as the array of [numpy] does
    when they fit. *)
Definition add_feature (db : EnsemblGffDb) (feature : EnsemblGffRecord)
    : option (EnsemblGffDb * EnsemblGffRecord) :=
  start1 ← (if decide (start feature = 0) then spans_min (spans feature)
            else Some (start feature));
  stop1 ← (if decide (stop feature = 0) then spans_max (spans feature)
           else Some (stop feature));
  let feature1 := set_stop stop1 (set_start start1 feature) in
  let '(db1, bid) := _get_biotype_id db (biotype feature1) in
  if decide (int64 (start feature1) /\ int64 (stop feature1)) then
    let i := fresh_id (f_id <$> feature_tbl db1) in
    let row :=
      {| f_seqid := seqid feature1; f_source := source feature1;
         f_start := start feature1; f_stop := stop feature1;
         f_score := score feature1; f_strand := strand feature1;
         f_phase := phase feature1; f_attributes := attrs feature1;
         f_comments := comments feature1; f_spans := spans feature1;
         f_stableid := stableid feature1; f_is_canonical := is_canonical feature1;
         f_biotype_id := bid; f_id := i |} in
    Some ({| biotype_tbl := biotype_tbl db1;
             feature_tbl := feature_tbl db1 ++ [row];
             biotype_cache := biotype_cache db1 |},
          set_feature_id (Some i) feature1)
  else None.

(** A store just created. *)
Definition empty_db : EnsemblGffDb :=
  {| biotype_tbl := []; feature_tbl := []; biotype_cache := ∅ |}.

(** A row of the view [gff]. *)
Record gff_row := {
  g_seqid : string;
  g_biotype : string;
  g_start : Z;
  g_stop : Z;
  g_strand : string;
  g_spans : list (Z * Z);
  g_name : string;
  g_is_canonical : bool;
  g_feature_id : Z
}.

(** The columns that the view [gff] selects from a feature row and the
    biotype row joined to it. *)
Definition gff_of (f : feature_row) (b : string * Z) : gff_row :=
  {| g_seqid := f_seqid f; g_biotype := b.1; g_start := f_start f;
     g_stop := f_stop f; g_strand := f_strand f; g_spans := f_spans f;
     g_name := f_stableid f; g_is_canonical := f_is_canonical f;
     g_feature_id := f_id f |}.

(** The view [gff]: [feature f JOIN biotype b ON f.biotype_id = b.id],
    in the order of the nested loops as written. *)
Definition gff (db : EnsemblGffDb) : list gff_row :=
  f ← feature_tbl db;
  b ← biotype_tbl db;
  if decide (f_biotype_id f = b.2) then [gff_of f b] else [].

(** [num_records], which is [len(db)] too: [SELECT COUNT(...) FROM
    feature]. *)
Definition num_records (db : EnsemblGffDb) : Z := Z.of_nat (length (feature_tbl db)).

(** The property [size]: the sum of the lengths of the spans. *)
Definition size (r : EnsemblGffRecord) : Z :=
  foldl (fun acc '(s, e) => acc + Z.abs (s - e)) 0 (spans r).

(** [_rename]: the first word of a sequence label; [None] is the
    [IndexError] on a label without a word.  The label is an ASCII text:
    [str.split] also splits at whitespace beyond ASCII, which
    [split_ws] does not know. *)
Definition _rename (label : string) : option string := head (split_ws label).

(** *** The pipeline [make_annotation_db] *)

(** The store with its table [related_feature] (gene_id, related_id),
    which has no key. *)
Record annotation_store := {
  features : EnsemblGffDb;
  related_feature_tbl : list (Z * Z)
}.

(** The first loop of [EnsemblGffDb.add_records]: [add_feature] on the
    objects at the positions [records], each call leaving the record
    with its [feature_id]; [None] when a call raises. *)
Fixpoint add_features (db : EnsemblGffDb) (objects : list EnsemblGffRecord)
    (records : list nat) : option (EnsemblGffDb * list EnsemblGffRecord) :=
  match records with
  | [] => Some (db, objects)
  | i :: rest =>
      record ← objects !! i;
      r ← add_feature db record;
      add_features r.1 (<[i := r.2]> objects) rest
  end.

(** The rows of [related_feature] for one entry of [gene_relations];
    [None] is the [ValueError] on a gene or a child without
    [feature_id]. *)
Definition related_rows (objects : list EnsemblGffRecord) (sets : list (list nat))
    (entry : option string * (nat * nat)) : option (list (Z * Z)) :=
  let '(_, (g, ref)) := entry in
  gene ← objects !! g;
  gene_id ← feature_id gene;
  child_ids ← mapM (fun c => objects !! c ≫= feature_id) (default [] (sets !! ref));
  Some ((fun c => (gene_id, c)) <$> child_ids).

(** [EnsemblGffDb.add_records], with [gene_relations] as
    [make_gene_relationships] returns it and [records] the positions of
    the objects to add. *)
Definition add_records (store : annotation_store) (gene_relations : rel_state)
    (records : list nat) : option (annotation_store * rel_state) :=
  r ← add_features (features store) (recs gene_relations) records;
  rows ← mapM (related_rows r.2 (sets gene_relations)) (genes gene_relations);
  Some ({| features := r.1;
           related_feature_tbl := related_feature_tbl store ++ mjoin rows |},
        {| recs := r.2; sets := sets gene_relations; genes := genes gene_relations |}).

(** [make_annotation_db] for a destination that does not exist yet, on
    the lines of the source file: the store that is written; [None] when
    a step raises. *)
Definition make_annotation_db (lines : list GffLine) : option annotation_store :=
  let records := (custom_gff_parser lines 0).1 in
  related ← make_gene_relationships records.*2;
  r ← add_records {| features := empty_db; related_feature_tbl := [] |} related
         (seq 0 (length records));
  Some r.1.

(** *** The views of parents and children *)

(** A row of the view [parent_to_child]. *)
Record p2c_row := {
  p_name : string;
  p_parent_stableid : string;
  p_seqid : string;
  p_biotype : string;
  p_start : Z;
  p_stop : Z;
  p_strand : string;
  p_spans : list (Z * Z);
  p_is_canonical : bool
}.

(** A row of the view [child_to_parent]. *)
Record c2p_row := {
  c_name : string;
  c_child_stableid : string;
  c_seqid : string;
  c_biotype : string;
  c_start : Z;
  c_stop : Z;
  c_strand : string;
  c_is_canonical : bool;
  c_spans : list (Z * Z)
}.

(** The columns that [parent_to_child] selects: those of the child [fc],
    the stable id of the parent [fp] and the type of the biotype row. *)
Definition p2c_of (fp fc : feature_row) (b : string * Z) : p2c_row :=
  {| p_name := f_stableid fc; p_parent_stableid := f_stableid fp; p_seqid := f_seqid fc;
     p_biotype := b.1; p_start := f_start fc; p_stop := f_stop fc; p_strand := f_strand fc;
     p_spans := f_spans fc; p_is_canonical := f_is_canonical fc |}.

(** The columns that [child_to_parent] selects: those of the parent
    [fp] and the stable id of the child [fc]. *)
Definition c2p_of (fp fc : feature_row) (b : string * Z) : c2p_row :=
  {| c_name := f_stableid fp; c_child_stableid := f_stableid fc; c_seqid := f_seqid fp;
     c_biotype := b.1; c_start := f_start fp; c_stop := f_stop fp; c_strand := f_strand fp;
     c_is_canonical := f_is_canonical fp; c_spans := f_spans fp |}.

(** The view [parent_to_child]: [related_feature r JOIN biotype b ON
    fc.biotype_id = b.id JOIN feature fp ON fp.id = r.gene_id JOIN
    feature fc ON fc.id = r.related_id], in the order of the nested
    loops as written. *)
Definition parent_to_child (store : annotation_store) : list p2c_row :=
  r ← related_feature_tbl store;
  b ← biotype_tbl (features store);
  fp ← feature_tbl (features store);
  fc ← feature_tbl (features store);
  if decide (f_biotype_id fc = b.2 /\ f_id fp = r.1 /\ f_id fc = r.2)
  then [p2c_of fp fc b] else [].

(** The view [child_to_parent], which joins the biotype of the parent. *)
Definition child_to_parent (store : annotation_store) : list c2p_row :=
  r ← related_feature_tbl store;
  b ← biotype_tbl (features store);
  fp ← feature_tbl (features store);
  fc ← feature_tbl (features store);
  if decide (f_biotype_id fp = b.2 /\ f_id fp = r.1 /\ f_id fc = r.2)
  then [c2p_of fp fc b] else [].

(** *** The gene table *)

(** The loop of [get_gene_table_for_species]: the rows made of the
    records that [annot_db.get_records_matching(biotype="gene")] yields,
    a record being a dictionary read by [record.get(c, None)]; [i] is
    the count of [enumerate]. *)
Fixpoint gene_rows_from {V} (species : V) (i : Z) (limit : option Z)
    (records : list (string -> option V)) : list (list (option V)) :=
  match records with
  | [] => []
  | record :: rest =>
      (Some species ::
         (record <$> ["name"; "seqid"; "source"; "biotype"; "start"; "stop"; "score";
                      "strand"; "phase"])) ::
      (if decide (Some i = limit) then [] else gene_rows_from species (i + 1) limit rest)
  end.

(** The rows that [get_gene_table_for_species] hands to [make_table]. *)
Definition gene_rows {V} (species : V) (limit : option Z)
    (records : list (string -> option V)) : list (list (option V)) :=
  gene_rows_from species 0 limit records.

(** *** Sequences as arrays *)

(** [bytes.maketrans(frm, to)]: the table that sends each byte of [frm]
    to the byte of [to] at the same position, a later position winning,
    and leaves the other bytes; [None] is the [ValueError] on arguments
    of different lengths. *)
Definition maketrans (frm to : list ascii) : option (ascii -> ascii) :=
  if decide (length frm = length to) then
    Some (fold_left (fun tbl '(a, b) => fun c => if Ascii.eqb c a then b else tbl c)
            (zip frm to) (fun c => c))
  else None.

(** The bytes of ["".join(chr(i) for i in range(n)).encode("utf8")] for
    [n] up to 128, where every character is one byte. *)
Definition index_bytes (n : nat) : list ascii := ascii_of_nat <$> seq 0 n.

(** [data[: m]] *)
Definition slice_to {A} (m : Z) (data : list A) : list A :=
  if decide (0 <= m) then take (Z.to_nat m) data
  else take (length data - Z.to_nat (- m)) data.

(** The first statement of [main] in both classes: [max_length] cuts the
    data when it is neither [None] nor 0. *)
Definition cut {A} (max_length : option Z) (data : list A) : list A :=
  match max_length with
  | Some m => if decide (m = 0) then data else slice_to m data
  | None => data
  end.

(** An instance of [str2arr] or of [arr2str]. *)
Record translator := {
  translation : ascii -> ascii;
  max_length : option Z
}.

(** [str2arr(moltype, max_length)], with [extended] for
    ["".join(moltype.alphabets.degen)], an ASCII text of the library
    [cogent3].  An alphabet of more than 128 characters makes the index
    text longer in bytes than the alphabet, and [maketrans] raises. *)
Definition str2arr (extended : string) (max_length : option Z) : option translator :=
  let frm := list_ascii_of_string extended in
  if decide (length frm <= 128)%nat then
    tbl ← maketrans frm (index_bytes (length frm));
    Some {| translation := tbl; max_length := max_length |}
  else None.

(** [arr2str(moltype, max_length)] *)
Definition arr2str (extended : string) (max_length : option Z) : option translator :=
  let to := list_ascii_of_string extended in
  if decide (length to <= 128)%nat then
    tbl ← maketrans (index_bytes (length to)) to;
    Some {| translation := tbl; max_length := max_length |}
  else None.

(** [data.encode("utf8")] on an ASCII text: one byte for each
    character, of the same code. *)
Definition encode_utf8 (data : string) : list ascii := list_ascii_of_string data.

(** [bytearray(b).decode("utf8")] on bytes below 128: one character for
    each byte. *)
Definition decode_utf8 (b : list ascii) : string := string_of_list_ascii b.

(** [data[: max_length]] on a [str], which counts characters. *)
Definition cut_str (max_length : option Z) (data : string) : string :=
  string_of_list_ascii (cut max_length (list_ascii_of_string data)).

(** [str2arr.main]: the text is cut first and encoded then; the array of
    [uint8] is the list of its bytes. *)
Definition str2arr_main (app : translator) (data : string) : list ascii :=
  translation app <$> encode_utf8 (cut_str (max_length app) data).

(** [arr2str.main] *)
Definition arr2str_main (app : translator) (data : list ascii) : string :=
  decode_utf8 (translation app <$> cut (max_length app) data).

(** *** Notions used in the proofs *)

(** A line whose coordinates sqlite can hold. *)
Definition line_fits (l : GffLine) : Prop := int64 (l_start l) /\ int64 (l_stop l).

#[export] Instance line_fits_dec l : Decision (line_fits l).
Proof. unfold line_fits. apply _. Defined.

(** A record whose coordinates, those of its spans too, sqlite can
    hold. *)
Definition storable (r : EnsemblGffRecord) : Prop :=
  int64 (start r) /\ int64 (stop r) /\ Forall int64 (coords (spans r)).

#[export] Instance storable_dec r : Decision (storable r).
Proof. unfold storable. apply _. Defined.

(** A stored record whose [start] and [stop] are among the coordinates
    of its spans and bound them all. *)
Definition bounded (e : EnsemblGffRecord) : Prop :=
  start e ∈ coords (spans e) /\ stop e ∈ coords (spans e) /\
  forall c, c ∈ coords (spans e) -> start e <= c <= stop e.

(** The record that a first record and the later ones of its name add
    up to. *)
Definition merged (first : EnsemblGffRecord) (rest : list EnsemblGffRecord)
    : EnsemblGffRecord :=
  set_stop (foldl Z.max (stop first) (stop <$> rest))
    (set_start (foldl Z.min (start first) (start <$> rest))
       (set_spans ((fun x => (start x, stop x)) <$> first :: rest) first)).

(** Every line read so far that carries its own identifier lies within
    the [start] and [stop] of the record filed under it. *)
Definition covered (reduced : list (string * EnsemblGffRecord)) (lines : list GffLine) : Prop :=
  forall l k, l ∈ lines -> line_id l = Some k ->
    exists e, dict_get k reduced = Some e /\ start e <= l_start l /\ l_stop l <= stop e.

(** The stores that [add_feature] builds. *)
Inductive built : EnsemblGffDb -> Prop :=
  | built_empty : built empty_db
  | built_add db feature db' feature' :
      built db -> add_feature db feature = Some (db', feature') -> built db'.

(** The ids of the biotype rows are distinct, every cached id is the id
    of the row of its biotype, and every feature row refers to a biotype
    row. *)
Definition interned (db : EnsemblGffDb) : Prop :=
  NoDup (biotype_tbl db).*2 /\
  (forall b i, biotype_cache db !! b = Some i -> (b, i) ∈ biotype_tbl db) /\
  (forall row, row ∈ feature_tbl db -> f_biotype_id row ∈ (biotype_tbl db).*2).

(** The positions that the relationships hold are positions of records,
    and every record has a span. *)
Definition in_range (n : nat) (st : rel_state) : Prop :=
  length (recs st) = n /\
  Forall (fun r => spans r <> []) (recs st) /\
  Forall (fun s => Forall (fun i => (i < n)%nat) s) (sets st) /\
  Forall (fun e => (e.2.1 < n)%nat) (genes st).

(** The records of the state are those given, each with its name and its
    parent id, and canonical if it was. *)
Definition marked (records : list EnsemblGffRecord) (st : rel_state) : Prop :=
  length (recs st) = length records /\
  forall i r0, records !! i = Some r0 ->
    exists r, recs st !! i = Some r /\ parent_id r = parent_id r0 /\ name r = name r0 /\
      (is_canonical r0 = true -> is_canonical r = true).

(** *** Inputs of the scenarios *)

Definition gff_line (t a : string) (s e : Z) : GffLine :=
  {| l_seqid := "1"; l_source := "ensembl"; l_type := t; l_start := s;
     l_stop := e; l_score := "."; l_strand := "+"; l_phase := ".";
     l_attrs := a; l_comments := None |}.

Definition exon_line (a : string) (s e : Z) : GffLine := gff_line "exon" a s e.

(** A line of the same identifier as [exon_line "ID=exon1" _ _] whose
    other columns all differ. *)
Definition other_exon_line : GffLine :=
  {| l_seqid := "2"; l_source := "havana"; l_type := "CDS"; l_start := 30;
     l_stop := 40; l_score := "0.5"; l_strand := "-"; l_phase := "1";
     l_attrs := "ID=exon1;Parent=transcript:T9"; l_comments := Some "later" |}.

(** A gene with two transcripts, each with its coding sequence. *)
Definition two_transcripts : list GffLine :=
  [ gff_line "gene" "ID=gene:G" 1 100;
    gff_line "mRNA" "ID=transcript:T1;Parent=gene:G" 1 50;
    gff_line "CDS" "ID=CDS:C1;Parent=transcript:T1" 1 50;
    gff_line "mRNA" "ID=transcript:T2;Parent=gene:G" 60 100;
    gff_line "CDS" "ID=CDS:C2;Parent=transcript:T2" 60 100 ].

Definition gene_x : EnsemblGffRecord :=
  set_name (Some "gene:X") (make_record (gff_line "gene" "" 1 5)).

End GenomeDb.

(** ** Homology groups: [_homologydb.py] *)

Module HomologyDb.
Import PyStr Sqlite.

(** [homolog_group] *)
Record homolog_group := {
  relationship : string;
  gene_ids : gset string
}.

#[export] Instance homolog_group_eq_dec : EqDecision homolog_group.
Proof. solve_decision. Defined.

(** [val.gene_ids |= pair] *)
Definition add_gene_ids (ids : gset string) (g : homolog_group) : homolog_group :=
  {| relationship := relationship g; gene_ids := gene_ids g ∪ ids |}.

(** [homolog_group.__or__]; [None] is the [ValueError]. *)
Definition group_or (a b : homolog_group) : option homolog_group :=
  if decide (relationship b = relationship a)
  then Some {| relationship := relationship a; gene_ids := gene_ids a ∪ gene_ids b |}
  else None.

(** [homolog_group.__len__] *)
Definition group_len (g : homolog_group) : nat := size (gene_ids g).

(** *** [grouped_related]

    The groups are objects shared between the entries of [relationship]:
    [groups] holds them by allocation order and [grouped] maps a
    relationship type and a gene id to the position of its group. *)
Record cluster_state := {
  groups : list homolog_group;
  grouped : gmap string (gmap string nat)
}.

(** The group the pair goes to: that of the first id, else that of the
    second, else a new one. *)
Definition target (rel : gmap string nat) (gene_id_1 gene_id_2 : string) : option nat :=
  match rel !! gene_id_1 with
  | Some val => Some val
  | None => rel !! gene_id_2
  end.

(** One turn of the first loop of [grouped_related]. *)
Definition cluster_step (st : cluster_state) (row : string * string * string)
    : cluster_state :=
  let '(rel_type, gene_id_1, gene_id_2) := row in
  let rel := default ∅ (grouped st !! rel_type) in
  let pair : gset string := {[gene_id_1; gene_id_2]} in
  let '(val, groups1) :=
    match target rel gene_id_1 gene_id_2 with
    | Some val => (val, groups st)
    | None =>
        (length (groups st),
         groups st ++ [{| relationship := rel_type; gene_ids := ∅ |}])
    end in
  {| groups := alter (add_gene_ids pair) val groups1;
     grouped := <[rel_type := <[gene_id_2 := val]> (<[gene_id_1 := val]> rel)]> (grouped st) |}.

(** The positions, in allocation order, of the groups some gene id of
    [rel] maps to: [set(groups.values())], which tells groups apart as
    objects. *)
Definition distinct_values (n : nat) (rel : gmap string nat) : list nat :=
  filter (fun i => i ∈ (map_to_list rel).*2) (seq 0 n).

(** The second loop of [grouped_related]. *)
Definition reduce (st : cluster_state) : gmap string (list homolog_group) :=
  (fun rel => omap (fun i => groups st !! i) (distinct_values (length (groups st)) rel))
    <$> grouped st.

(** [grouped_related] *)
Definition grouped_related (data : list (string * string * string))
    : gmap string (list homolog_group) :=
  reduce (fold_left cluster_step data {| groups := []; grouped := ∅ |}).

(** *** [merge_grouped] *)

(** [_gene_id_to_group]: each gene id with the position in [series] of
    the last group that has it. *)
Definition _gene_id_to_group (series : list homolog_group) : gmap string nat :=
  fold_left
    (fun result '(i, group) => set_fold (fun gene_id r => <[gene_id := i]> r) result (gene_ids group))
    (imap (fun i g => (i, g)) series) ∅.

(** The groups at hand while one relationship type is merged: those of
    the first input, those of the second, and the unions made so far. *)
Inductive group_ref :=
  | InFirst (i : nat)
  | InSecond (i : nat)
  | Union (i : nat).

#[export] Instance group_ref_eq_dec : EqDecision group_ref.
Proof. solve_decision. Defined.

(** [_add_unique] *)
Definition _add_unique (mk : nat -> group_ref) (a b : gmap string nat)
    (combined : gmap string group_ref) : gmap string group_ref :=
  map_fold (fun gene_id i c => <[gene_id := mk i]> c) combined
    (filter (fun kv => b !! kv.1 = None) a).

Record merge_state := {
  rel_type_group : gmap string group_ref;
  skip : gset string;
  unions : list homolog_group
}.

(** One turn of the loop over [shared_ids]; [None] is the [ValueError]
    of [__or__]. *)
Definition merge_step (series1 series2 : list homolog_group) (grp1 grp2 : gmap string nat)
    (st : merge_state) (gene_id : string) : option merge_state :=
  if decide (gene_id ∈ skip st) then Some st
  else
    i ← grp1 !! gene_id;
    j ← grp2 !! gene_id;
    a ← series1 !! i;
    b ← series2 !! j;
    merged ← group_or a b;
    let ref := Union (length (unions st)) in
    Some {| rel_type_group :=
              set_fold (fun g r => <[g := ref]> r) (rel_type_group st) (gene_ids merged);
            skip := skip st ∪ gene_ids merged;
            unions := unions st ++ [merged] |}.

Fixpoint merge_loop (series1 series2 : list homolog_group) (grp1 grp2 : gmap string nat)
    (st : merge_state) (shared_ids : list string) : option merge_state :=
  match shared_ids with
  | [] => Some st
  | gene_id :: rest =>
      st' ← merge_step series1 series2 grp1 grp2 st gene_id;
      merge_loop series1 series2 grp1 grp2 st' rest
  end.

(** [tuple(set(rel_type_group.values()))]: the groups still referred to,
    each object once. *)
Definition referred (series1 series2 unions : list homolog_group)
    (m : gmap string group_ref) : list homolog_group :=
  let vals := (map_to_list m).*2 in
  (omap (fun i => series1 !! i) (filter (fun i => InFirst i ∈ vals) (seq 0 (length series1))) ++
   omap (fun i => series2 !! i) (filter (fun i => InSecond i ∈ vals) (seq 0 (length series2))) ++
   omap (fun i => unions !! i) (filter (fun i => Union i ∈ vals) (seq 0 (length unions)))).

(** The order in which a call goes through the set [shared_ids].
    Python leaves it open, and it may depend on which input comes first:
    the order is a function of the two series and of the set. *)
Definition traversal : Type :=
  list homolog_group -> list homolog_group -> gset string -> list string.

(** The traversal visits every shared id once. *)
Definition exhaustive (iter : traversal) : Prop :=
  forall series1 series2 X, iter series1 series2 X ≡ₚ elements X.

(** The body of the loop of [merge_grouped] for a relationship type both
    inputs have. *)
Definition merge_rel_type (iter : traversal)
    (series1 series2 : list homolog_group) : option (list homolog_group) :=
  let grp1 := _gene_id_to_group series1 in
  let grp2 := _gene_id_to_group series2 in
  let unique1 := _add_unique InFirst grp1 grp2 ∅ in
  let unique2 := _add_unique InSecond grp2 grp1 unique1 in
  let shared_ids := dom grp1 ∩ dom grp2 in
  st ← merge_loop series1 series2 grp1 grp2
         {| rel_type_group := unique2; skip := ∅; unions := [] |}
         (iter series1 series2 shared_ids);
  Some (referred series1 series2 (unions st) (rel_type_group st)).

(** [merge_grouped], the iteration order of [shared_ids] given by
    [iter]; [None] is a [ValueError]. *)
Definition merge_grouped (iter : traversal)
    (group1 group2 : gmap string (list homolog_group))
    : option (gmap string (list homolog_group)) :=
  map_fold
    (fun rel_type _ acc =>
       joint ← acc;
       match group1 !! rel_type, group2 !! rel_type with
       | Some series1, Some series2 =>
           r ← merge_rel_type iter series1 series2;
           Some (<[rel_type := r]> joint)
       | Some series, None | None, Some series => Some (<[rel_type := series]> joint)
       | None, None => Some joint
       end)
    (Some ∅)
    (union_with (fun a _ => Some a) group1 group2).

(** *** The store [HomologyDb] *)

(** Modelled from the spec: the base class [SqliteDbMixin], which creates
    the tables and runs the statements, is not among the sources.  The
    relational homology table set has the columns and keys that the
    schema dictionaries declare: [relationship] (homology_type, id),
    [homology] (id, relationship_id) and [member] (gene_id, homology_id,
    the pair being the key); [_relationship_types] is the dictionary of
    that name. *)
Record store := {
  relationship_tbl : list (string * Z);
  homology_tbl : list (Z * Z);
  member_tbl : list (string * Z);
  _relationship_types : gmap string Z
}.

(** [HomologyDb()] *)
Definition new_store : store :=
  {| relationship_tbl := []; homology_tbl := []; member_tbl := [];
     _relationship_types := ∅ |}.

(** A row of the view [related_groups]. *)
Record view_row := {
  v_homology_type : string;
  v_relationship_id : Z;
  v_homology_id : Z;
  v_gene_id : string
}.

(** The view [related_groups]: [homology h JOIN relationship r ON
    h.relationship_id = r.id JOIN member m ON m.homology_id = h.id].
    The rows come in the order of the nested loops as written, each
    table in insertion order; the lookup of [_get_homology_group_id],
    which depends on the order, has its own below. *)
Definition related_groups (db : store) : list view_row :=
  h ← homology_tbl db;
  r ← relationship_tbl db;
  if decide (h.2 = r.2) then
    m ← member_tbl db;
    if decide (m.2 = h.1) then
      [{| v_homology_type := r.1; v_relationship_id := r.2;
          v_homology_id := h.1; v_gene_id := m.1 |}]
    else []
  else [].

(** [_make_relationship_type_id] *)
Definition _make_relationship_type_id (db : store) (rel_type : string) : store * Z :=
  match _relationship_types db !! rel_type with
  | Some i => (db, i)
  | None =>
      let i := fresh_id (relationship_tbl db).*2 in
      ({| relationship_tbl := relationship_tbl db ++ [(rel_type, i)];
          homology_tbl := homology_tbl db;
          member_tbl := member_tbl db;
          _relationship_types := <[rel_type := i]> (_relationship_types db) |}, i)
  end.

(** [_get_homology_group_id(relationship_id=...)]: a new row of
    [homology]. *)
Definition new_homology_id (db : store) (relationship_id : Z) : store * Z :=
  let i := fresh_id (homology_tbl db).*1 in
  ({| relationship_tbl := relationship_tbl db;
      homology_tbl := homology_tbl db ++ [(i, relationship_id)];
      member_tbl := member_tbl db;
      _relationship_types := _relationship_types db |}, i).

(** The [WHERE] clause of the lookup: [r.relationship_id = ? AND
    r.gene_id IN (...)]. *)
Definition wanted (relationship_id : Z) (gene_ids : gset string) (r : view_row) : Prop :=
  v_relationship_id r = relationship_id /\ v_gene_id r ∈ gene_ids.

#[export] Instance wanted_dec relationship_id gene_ids r :
  Decision (wanted relationship_id gene_ids r).
Proof. unfold wanted. apply _. Defined.

(** The order in which sqlite comes upon the rows of the lookup, on the
    tables as [add_records] leaves them, before any [make_indexes].  It
    answers [r.gene_id IN (...)] through the key of [member], gene id
    first and homology id second: the gene ids asked for are tried in
    ascending order, texts comparing character by character, and under
    one gene id the rows come by ascending homology id. *)
Definition comes_first (a b : view_row) : bool :=
  match String.compare (v_gene_id a) (v_gene_id b) with
  | Lt => true
  | Gt => false
  | Eq => Z.leb (v_homology_id a) (v_homology_id b)
  end.

(** The row that [LIMIT 1] leaves of the rows that pass the [WHERE]
    clause. *)
Definition first_row (rows : list view_row) : option view_row :=
  foldr (fun r acc =>
           match acc with
           | Some r' => if comes_first r' r then Some r' else Some r
           | None => Some r
           end) None rows.

(** [_get_homology_group_id(relationship_id=..., gene_ids=...)] *)
Definition _get_homology_group_id (db : store) (relationship_id : Z)
    (gene_ids : gset string) : store * Z :=
  match first_row (filter (wanted relationship_id gene_ids) (related_groups db)) with
  | Some r => (db, v_homology_id r)
  | None => new_homology_id db relationship_id
  end.

(** [INSERT OR IGNORE INTO member(gene_id, homology_id)]: the pair is the
    primary key. *)
Definition insert_member (db : store) (row : string * Z) : store :=
  if decide (row ∈ member_tbl db) then db
  else {| relationship_tbl := relationship_tbl db;
          homology_tbl := homology_tbl db;
          member_tbl := member_tbl db ++ [row];
          _relationship_types := _relationship_types db |}.

(** One turn of the loop of [add_records]; [None] is the [ValueError]. *)
Definition add_group (relationship_type : string) (rel_type_id : Z)
    (db : store) (group : homolog_group) : option store :=
  if decide (relationship group = relationship_type) then
    let '(db1, homology_id) := _get_homology_group_id db rel_type_id (gene_ids group) in
    Some (fold_left insert_member
            ((fun gene_id => (gene_id, homology_id)) <$> elements (gene_ids group)) db1)
  else None.

Fixpoint add_groups (relationship_type : string) (rel_type_id : Z)
    (db : store) (records : list homolog_group) : option store :=
  match records with
  | [] => Some db
  | group :: rest =>
      db' ← add_group relationship_type rel_type_id db group;
      add_groups relationship_type rel_type_id db' rest
  end.

(** [add_records] *)
Definition add_records (db : store) (records : list homolog_group)
    (relationship_type : string) : option store :=
  let '(db1, rel_type_id) := _make_relationship_type_id db relationship_type in
  add_groups relationship_type rel_type_id db1 records.

(** [get_related_to] *)
Definition get_related_to (db : store) (gene_id relationship_type : string) : list string :=
  match filter (fun r => v_homology_type r = relationship_type ∧ v_gene_id r = gene_id)
               (related_groups db) with
  | [] => []
  | r :: _ =>
      let homology_id := v_homology_id r in
      split_comma (join_comma
        (v_gene_id <$> filter (fun r => v_homology_id r = homology_id) (related_groups db)))
  end.

(** [HomologyDb.num_records]: [SELECT COUNT(...) FROM member]. *)
Definition num_records (db : store) : Z := Z.of_nat (length (member_tbl db)).

(** The first occurrences of a list, in order. *)
Fixpoint dedup_first (seen : list Z) (l : list Z) : list Z :=
  match l with
  | [] => []
  | x :: l' => if decide (x ∈ seen) then dedup_first seen l' else x :: dedup_first (x :: seen) l'
  end.

(** [get_related_groups]: one group per homology id, in the order in
    which the ids first show in the view. *)
Definition get_related_groups (db : store) (relationship_type : string) : list homolog_group :=
  let rows := filter (fun r => v_homology_type r = relationship_type) (related_groups db) in
  (fun i =>
     {| relationship := relationship_type;
        gene_ids := list_to_set (split_comma (join_comma
          (v_gene_id <$> filter (fun r => v_homology_id r = i) rows))) |})
    <$> dedup_first [] (v_homology_id <$> rows).

(** *** Notions used in the proofs *)

(** The edge joins two groups made earlier: both ids map to a group
    already, and not to the same one. *)
Definition bridges (st : cluster_state) (row : string * string * string) : Prop :=
  let rel := default ∅ (grouped st !! row.1.1) in
  match rel !! row.1.2, rel !! row.2 with
  | Some v1, Some v2 => v1 <> v2
  | _, _ => False
  end.

(** No edge of [data] bridges when its turn comes. *)
Fixpoint no_bridge (st : cluster_state) (data : list (string * string * string)) : Prop :=
  match data with
  | [] => True
  | row :: rest => ~ bridges st row /\ no_bridge (cluster_step st row) rest
  end.

(** Every gene id maps to a group of its relationship type, and every
    member of a group maps to that group. *)
Definition consistent (st : cluster_state) : Prop :=
  (forall t rel g v, grouped st !! t = Some rel -> rel !! g = Some v ->
     exists grp, groups st !! v = Some grp /\ relationship grp = t) /\
  (forall v grp g, groups st !! v = Some grp -> g ∈ gene_ids grp ->
     exists rel, grouped st !! relationship grp = Some rel /\ rel !! g = Some v).

(** The same group seen from the other input. *)
Definition swap_ref (r : group_ref) : group_ref :=
  match r with
  | InFirst i => InSecond i
  | InSecond i => InFirst i
  | Union i => Union i
  end.

(** Two states of the loop over the shared ids, one for each order of
    the inputs. *)
Definition mirror (st st' : merge_state) : Prop :=
  rel_type_group st' = swap_ref <$> rel_type_group st /\
  skip st' = skip st /\ unions st' = unions st.

(** The ids that two series share are gone through in the same order
    whichever of the two comes first. *)
Definition same_order (iter : traversal) (series1 series2 : list homolog_group) : Prop :=
  let shared_ids := dom (_gene_id_to_group series1) ∩ dom (_gene_id_to_group series2) in
  iter series1 series2 shared_ids = iter series2 series1 shared_ids.

(** Two results that agree up to the order of the groups of each
    relationship type. *)
Definition same_groups (j1 j2 : option (gmap string (list homolog_group))) : Prop :=
  match j1, j2 with
  | Some m1, Some m2 =>
      forall t, match m1 !! t, m2 !! t with
                | Some l1, Some l2 => l1 ≡ₚ l2
                | None, None => True
                | _, _ => False
                end
  | None, None => True
  | _, _ => False
  end.

(** The entry of [joint] for a relationship type. *)
Definition entry (iter : traversal)
    (group1 group2 : gmap string (list homolog_group)) (t : string)
    : option (list homolog_group) :=
  match group1 !! t, group2 !! t with
  | Some series1, Some series2 => merge_rel_type iter series1 series2
  | Some series, None | None, Some series => Some series
  | None, None => None
  end.

(** The rows of the view that come from one row of [homology]. *)
Definition block (db : store) (h : Z * Z) : list view_row :=
  r ← relationship_tbl db;
  if decide (h.2 = r.2) then
    m ← member_tbl db;
    if decide (m.2 = h.1) then
      [{| v_homology_type := r.1; v_relationship_id := r.2;
          v_homology_id := h.1; v_gene_id := m.1 |}]
    else []
  else [].

(** The row [h] of [homology] contributes a wanted row. *)
Definition hit (db : store) (rid : Z) (g : gset string) (h : Z * Z) : Prop :=
  h.2 = rid /\ rid ∈ (relationship_tbl db).*2 /\
  Exists (fun m => m.2 = h.1 /\ m.1 ∈ g) (member_tbl db).

#[export] Instance hit_dec db rid g h : Decision (hit db rid g h).
Proof. unfold hit. apply _. Defined.




(** The stores that the program builds. *)
Inductive reachable : store -> Prop :=
  | reachable_new : reachable new_store
  | reachable_add db records relationship_type db' :
      reachable db -> add_records db records relationship_type = Some db' ->
      reachable db'.


(** The state of the clusterer after the edges [data]: every gene id
    maps to a group of its relationship type that has it, every member
    of a group is an id of an edge of that type, and both ids of every
    edge map to a group. *)
Definition tracks (st : cluster_state) (data : list (string * string * string)) : Prop :=
  (forall t rel g v, grouped st !! t = Some rel -> rel !! g = Some v ->
     exists grp, groups st !! v = Some grp /\ relationship grp = t /\ g ∈ gene_ids grp) /\
  (forall v grp g, groups st !! v = Some grp -> g ∈ gene_ids grp ->
     exists a b, (relationship grp, a, b) ∈ data /\ (g = a \/ g = b)) /\
  (forall t a b, (t, a, b) ∈ data ->
     exists rel, grouped st !! t = Some rel /\ is_Some (rel !! a) /\ is_Some (rel !! b)).

(** The group a reference stands for. *)
Definition deref (series1 series2 unions : list homolog_group) (r : group_ref)
    : option homolog_group :=
  match r with
  | InFirst i => series1 !! i
  | InSecond i => series2 !! i
  | Union i => unions !! i
  end.

(** The state of the loop over the shared ids: every gene id refers to a
    group that has it, every skipped id has an entry, and the members of
    the unions are members of groups of the inputs. *)
Definition kept (series1 series2 : list homolog_group) (st : merge_state) : Prop :=
  (forall g ref, rel_type_group st !! g = Some ref ->
     exists grp, deref series1 series2 (unions st) ref = Some grp /\ g ∈ gene_ids grp) /\
  (forall g, g ∈ skip st -> is_Some (rel_type_group st !! g)) /\
  (forall grp x, grp ∈ unions st -> x ∈ gene_ids grp ->
     exists grp0, grp0 ∈ series1 ++ series2 /\ x ∈ gene_ids grp0).







(** The tables of a store that the program has built, in full: the ids
    of [homology] and of [relationship] are distinct, every id in
    [_relationship_types] is the id of the row of its type, every
    homology row refers to a relationship row and every member row to a
    homology row. *)
Definition sound (db : store) : Prop :=
  NoDup (homology_tbl db).*1 /\
  NoDup (relationship_tbl db).*2 /\
  (forall t i, _relationship_types db !! t = Some i -> (t, i) ∈ relationship_tbl db) /\
  (forall h, h ∈ homology_tbl db -> h.2 ∈ (relationship_tbl db).*2) /\
  (forall m, m ∈ member_tbl db -> m.2 ∈ (homology_tbl db).*1).

(** The store [db'] is [db] with more rows of [homology] and [member],
    all for the relationship id [rid]. *)
Definition extends (rid : Z) (db db' : store) : Prop :=
  relationship_tbl db' = relationship_tbl db /\
  _relationship_types db' = _relationship_types db /\
  exists hs ms,
    homology_tbl db' = homology_tbl db ++ hs /\
    member_tbl db' = member_tbl db ++ ms /\
    (forall h, h ∈ hs -> h.2 = rid) /\
    (forall m, m ∈ ms -> exists h, h ∈ homology_tbl db' /\ h.1 = m.2 /\ h.2 = rid).

(** *** Inputs of the scenarios *)

(** The traversal that takes the shared ids in the order of [elements],
    whatever the inputs. *)
Definition by_elements : traversal := fun _ _ => elements.

Definition ortho (ids : list string) : homolog_group :=
  {| relationship := "ortho"; gene_ids := list_to_set ids |}.

(** A partial clustering with one group of type "ortho". *)
Definition part (ids : list string) : gmap string (list homolog_group) :=
  {[ "ortho" := [ortho ids] ]}.

(** Two clusterings whose shared ids g2 and g10 lie in different groups
    of the first and in one group of the second. *)
Definition bridged_left : gmap string (list homolog_group) :=
  {[ "ortho" := [ortho ["a"; "g2"]; ortho ["d"; "g10"]] ]}.

Definition bridged_right : gmap string (list homolog_group) :=
  {[ "ortho" := [ortho ["g2"; "g10"]; ortho ["r"; "s"]] ]}.

(** A traversal that takes the shared ids g2 and g10 in one order when
    the groups of [bridged_left] come first and in the other order
    otherwise. *)
Definition two_ways : traversal :=
  fun series1 _ X =>
    if decide (X = {[ "g2"; "g10" ]}) then
      if decide (series1 = [ortho ["a"; "g2"]; ortho ["d"; "g10"]])
      then ["g2"; "g10"] else ["g10"; "g2"]
    else elements X.

Definition para (ids : list string) : homolog_group :=
  {| relationship := "para"; gene_ids := list_to_set ids |}.

(** A store with two groups of type "para", and the same after two
    groups of type "ortho", which share genes with them, are added. *)
Definition paralogs : store :=
  default new_store (add_records new_store [para ["p1"; "p2"]; para ["p3"]] "para").

Definition paralogs_orthologs : store :=
  default new_store (add_records paralogs [ortho ["p1"; "g1"]; ortho ["p3"; "p2"]] "ortho").



End HomologyDb.

(** * Properties *)

Import PyStr Sqlite GenomeDb HomologyDb.

#[local] Arguments parser_step : simpl never.

(** ** Row ids *)

Lemma fresh_id_above ids i : i ∈ ids -> i < fresh_id ids.
Proof.
  unfold fresh_id. induction ids as [|j ids IH]; simpl; intros Hi.
  - by apply elem_of_nil in Hi.
  - apply elem_of_cons in Hi as [->|Hi]; [lia|]. specialize (IH Hi). lia.
Qed.

Lemma fresh_id_fresh ids : fresh_id ids ∉ ids.
Proof. intros Hin. apply fresh_id_above in Hin. lia. Qed.

(** ** Insertion-ordered dictionaries *)

Section dict_facts.
Context `{EqDecision K} {V : Type}.
Implicit Types (d : list (K * V)) (k : K).

Lemma dict_get_app k d d' :
  dict_get k (d ++ d') = match dict_get k d with Some v => Some v | None => dict_get k d' end.
Proof.
  induction d as [|[k' v] d IH]; simpl; [done|].
  destruct (decide (k = k')); auto.
Qed.

Lemma dict_get_None k d : dict_get k d = None <-> k ∉ d.*1.
Proof.
  induction d as [|[k' v] d IH]; simpl.
  - split; [intros _; apply not_elem_of_nil | done].
  - rewrite not_elem_of_cons. destruct (decide (k = k')) as [->|Hne].
    + split; [done | intros [? _]; done].
    + rewrite IH. tauto.
Qed.

Lemma dict_get_Some_elem k v d : dict_get k d = Some v -> (k, v) ∈ d.
Proof.
  induction d as [|[k' v'] d IH]; simpl; [done|].
  destruct (decide (k = k')) as [->|]; intros Hg.
  - injection Hg as ->. left.
  - right. auto.
Qed.

Lemma elem_dict_get k v d : NoDup d.*1 -> (k, v) ∈ d -> dict_get k d = Some v.
Proof.
  induction d as [|[k' v'] d IH]; simpl; intros Hnd Hin.
  - by apply elem_of_nil in Hin.
  - apply NoDup_cons in Hnd as [Hk Hnd].
    apply elem_of_cons in Hin as [Heq|Hin].
    + injection Heq as -> ->. by rewrite decide_True.
    + destruct (decide (k = k')) as [->|]; [|auto].
      exfalso. apply Hk. apply list_elem_of_fmap. by exists (k', v).
Qed.

Lemma dict_alter_keys (f : V -> V) k d : (dict_alter f k d).*1 = d.*1.
Proof.
  induction d as [|[k' v] d IH]; simpl; [done|].
  destruct (decide (k = k')); cbn; [done | by f_equal].
Qed.

Lemma dict_get_alter (f : V -> V) k k' d :
  dict_get k' (dict_alter f k d) =
  if decide (k' = k) then f <$> dict_get k d else dict_get k' d.
Proof.
  induction d as [|[k0 v] d IH]; simpl.
  - by destruct (decide (k' = k)).
  - repeat (case_decide; simplify_eq/=); try done; rewrite IH;
      repeat (case_decide; simplify_eq/=); done.
Qed.

Lemma dict_alter_app_new (f : V -> V) k v d :
  dict_get k d = None -> dict_alter f k (d ++ [(k, v)]) = d ++ [(k, f v)].
Proof.
  induction d as [|[k' v'] d IH]; simpl.
  - by rewrite decide_True.
  - destruct (decide (k = k')); [done|]. intros Hg. by rewrite IH.
Qed.

Lemma dict_alter_ext (f g : V -> V) k d :
  (forall v, dict_get k d = Some v -> f v = g v) -> dict_alter f k d = dict_alter g k d.
Proof.
  induction d as [|[k' v] d IH]; simpl; [done|].
  destruct (decide (k = k')) as [->|]; intros Hfg.
  - by rewrite Hfg.
  - by rewrite IH.
Qed.

Lemma dict_alter_Forall (P : K * V -> Prop) (f : V -> V) k d :
  (forall v, P (k, v) -> P (k, f v)) -> Forall P d -> Forall P (dict_alter f k d).
Proof.
  intros Hf. induction 1 as [|[k' v] d HP Hd IH]; simpl; [constructor|].
  destruct (decide (k = k')) as [->|]; constructor; auto.
Qed.

End dict_facts.

(** ** The record normaliser *)

(** *** Reading the attributes *)

Example tidy_lowers_type_prefixes :
  tidy_gff3_stableids "ID=Gene:ENSG01;Parent=Transcript:T1,Transcript:T2;Name=x1AB:c" =
  "ID=gene:ENSG01;Parent=transcript:T1,transcript:T2;Name=x1AB:c".
Proof. reflexivity. Qed.

Example update_from_attrs_cds :
  (fun r => (name r, parent_id r, biotype r))
    (update_from_attrs
       (make_record (gff_line "CDS" "ID=CDS:P1;Parent=Transcript:T1,Transcript:T2" 5 9))) =
  (Some "cds:P1", Some "transcript:T1", "cds").
Proof. reflexivity. Qed.

Example update_from_attrs_transcript :
  (fun r => (name r, parent_id r, biotype r))
    (update_from_attrs (make_record (gff_line "mRNA" "ID=transcript:T1;Parent=gene:G" 1 50))) =
  (Some "transcript:T1", Some "gene:G", "mrna").
Proof. reflexivity. Qed.

Example update_from_attrs_exon_id :
  (fun r => (name r, parent_id r, biotype r))
    (update_from_attrs
       (make_record (gff_line "exon" "Parent=transcript:T1;exon_id=E5;rank=1" 1 50))) =
  (Some "E5", Some "transcript:T1", "exon").
Proof. reflexivity. Qed.

Example named_record_anonymous :
  (fun x => (x.1.2, x.2)) (named_record (gff_line "exon" "rank=1" 1 50) 7) = ("unknown-7", 8).
Proof. reflexivity. Qed.

Example stableid_strips_type_prefix :
  stableid (set_name (Some "gene:G") (make_record (gff_line "gene" "" 1 100))) = "G".
Proof. reflexivity. Qed.

(** *** Reading the line *)

Lemma update_from_attrs_coords r :
  start (update_from_attrs r) = start r /\ stop (update_from_attrs r) = stop r /\
  spans (update_from_attrs r) = spans r.
Proof.
  unfold update_from_attrs.
  repeat (match goal with |- context [match ?x with _ => _ end] => destruct x end; simpl);
    done.
Qed.

Lemma named_record_coords l n r k n' :
  named_record l n = (r, k, n') ->
  start r = l_start l /\ stop r = l_stop l /\ spans r = [] /\ name r = Some k.
Proof.
  unfold named_record.
  destruct (update_from_attrs_coords (make_record l)) as (Hs & Ht & Hp).
  destruct (name (update_from_attrs (make_record l))) as [[|c s]|] eqn:Hn;
    intros [= <- <- <-]; simpl; rewrite ?Hs, ?Ht, ?Hp; done.
Qed.

Lemma named_record_line_id l n k :
  line_id l = Some k -> named_record l n = (update_from_attrs (make_record l), k, n).
Proof.
  unfold line_id, named_record.
  destruct (name (update_from_attrs (make_record l))) as [[|c s]|]; intros [= <-]; done.
Qed.

Lemma parser_app lines l n :
  custom_gff_parser (lines ++ [l]) n = parser_step (custom_gff_parser lines n) l.
Proof. unfold custom_gff_parser. by rewrite fold_left_app. Qed.

Lemma parser_step_keys_nodup reduced n l :
  NoDup reduced.*1 -> NoDup (parser_step (reduced, n) l).1.*1.
Proof.
  intros Hnd. unfold parser_step.
  destruct (named_record l n) as [[r k] n']. simpl.
  rewrite dict_alter_keys.
  destruct (dict_get k reduced) eqn:Hg; [done|].
  rewrite fmap_app. simpl. apply NoDup_app. split_and!; [done| |apply NoDup_singleton].
  intros x Hx Hx'. apply list_elem_of_singleton in Hx' as ->.
  by apply dict_get_None in Hg.
Qed.

Lemma parser_keys_nodup lines n : NoDup (custom_gff_parser lines n).1.*1.
Proof.
  induction lines as [|l lines IH] using rev_ind.
  - constructor.
  - rewrite parser_app. destruct (custom_gff_parser lines n) as [reduced m].
    by apply parser_step_keys_nodup.
Qed.

(** *** Extremes of a span list *)

Lemma foldr_min_spec x xs :
  foldr Z.min x xs ∈ x :: xs /\ forall c, c ∈ x :: xs -> foldr Z.min x xs <= c.
Proof.
  induction xs as [|y xs [IHin IHle]]; simpl.
  - split; [left|]. intros c Hc. apply list_elem_of_singleton in Hc. lia.
  - split.
    + destruct (Z.min_spec y (foldr Z.min x xs)) as [[_ ->]|[_ ->]].
      * right; left.
      * apply elem_of_cons in IHin as [->|Hin]; [left | right; by right].
    + intros c Hc. rewrite !elem_of_cons in Hc.
      destruct Hc as [->|[->|Hc]].
      * specialize (IHle x (ltac:(left))). lia.
      * lia.
      * specialize (IHle c (ltac:(by right))). lia.
Qed.

Lemma foldr_max_spec x xs :
  foldr Z.max x xs ∈ x :: xs /\ forall c, c ∈ x :: xs -> c <= foldr Z.max x xs.
Proof.
  induction xs as [|y xs [IHin IHle]]; simpl.
  - split; [left|]. intros c Hc. apply list_elem_of_singleton in Hc. lia.
  - split.
    + destruct (Z.max_spec y (foldr Z.max x xs)) as [[_ ->]|[_ ->]].
      * apply elem_of_cons in IHin as [->|Hin]; [left | right; by right].
      * right; left.
    + intros c Hc. rewrite !elem_of_cons in Hc.
      destruct Hc as [->|[->|Hc]].
      * specialize (IHle x (ltac:(left))). lia.
      * lia.
      * specialize (IHle c (ltac:(by right))). lia.
Qed.

Lemma spans_min_intro sp m :
  m ∈ coords sp -> (forall c, c ∈ coords sp -> m <= c) -> spans_min sp = Some m.
Proof.
  unfold spans_min. destruct (coords sp) as [|x xs]; intros Hin Hle.
  - by apply elem_of_nil in Hin.
  - f_equal. destruct (foldr_min_spec x xs) as [Hin' Hle'].
    specialize (Hle _ Hin'). specialize (Hle' _ Hin). lia.
Qed.

Lemma spans_max_intro sp m :
  m ∈ coords sp -> (forall c, c ∈ coords sp -> c <= m) -> spans_max sp = Some m.
Proof.
  unfold spans_max. destruct (coords sp) as [|x xs]; intros Hin Hle.
  - by apply elem_of_nil in Hin.
  - f_equal. destruct (foldr_max_spec x xs) as [Hin' Hle'].
    specialize (Hle _ Hin'). specialize (Hle' _ Hin). lia.
Qed.

Lemma coords_snoc sp a b : coords (sp ++ [(a, b)]) = coords sp ++ [a; b].
Proof. unfold coords. rewrite flat_map_app. simpl. done. Qed.

Lemma bounded_extremes e :
  bounded e -> spans_min (spans e) = Some (start e) /\ spans_max (spans e) = Some (stop e).
Proof.
  intros (Hs & Ht & Hb). split.
  - apply spans_min_intro; [done|]. intros c Hc. by apply Hb.
  - apply spans_max_intro; [done|]. intros c Hc. by apply Hb.
Qed.

Lemma absorb_first r :
  spans r = [] -> start r <= stop r -> bounded (absorb r r).
Proof.
  intros Hsp Hle. unfold bounded, absorb; simpl. rewrite Hsp. simpl.
  rewrite Z.min_id, Z.max_id. split_and!.
  - left.
  - right; left.
  - intros c Hc. rewrite !elem_of_cons in Hc.
    destruct Hc as [->|[->|Hc]]; [lia | lia | by apply elem_of_nil in Hc].
Qed.

Lemma absorb_bounded r e :
  start r <= stop r -> bounded e -> bounded (absorb r e).
Proof.
  intros Hle (Hs & Ht & Hb). unfold bounded, absorb; simpl.
  rewrite coords_snoc. split_and!.
  - destruct (Z.min_spec (start e) (start r)) as [[_ ->]|[_ ->]].
    + apply elem_of_app; by left.
    + apply elem_of_app; right; left.
  - destruct (Z.max_spec (stop e) (stop r)) as [[_ ->]|[_ ->]].
    + apply elem_of_app; right; right; left.
    + apply elem_of_app; by left.
  - intros c Hc. apply elem_of_app in Hc as [Hc|Hc].
    + specialize (Hb c Hc). lia.
    + rewrite !elem_of_cons in Hc.
      destruct Hc as [->|[->|Hc]]; [lia | lia | by apply elem_of_nil in Hc].
Qed.

Lemma parser_step_bounded reduced n l :
  l_start l <= l_stop l ->
  Forall (fun kr => bounded kr.2) reduced ->
  Forall (fun kr => bounded kr.2) (parser_step (reduced, n) l).1.
Proof.
  intros Hle Hall. unfold parser_step.
  destruct (named_record l n) as [[r k] n'] eqn:Hnr.
  apply named_record_coords in Hnr as (Hs & Ht & Hp & _). simpl.
  destruct (dict_get k reduced) eqn:Hg.
  - apply dict_alter_Forall; [|done]. simpl. intros v. apply absorb_bounded. lia.
  - rewrite dict_alter_app_new by done.
    apply Forall_app. split; [done|]. apply Forall_singleton. simpl.
    apply absorb_first; [done | lia].
Qed.

Lemma parser_bounded lines n :
  Forall (fun l => l_start l <= l_stop l) lines ->
  Forall (fun kr => bounded kr.2) (custom_gff_parser lines n).1.
Proof.
  induction lines as [|l lines IH] using rev_ind; intros Hall.
  - constructor.
  - apply Forall_app in Hall as [Hall Hl]. rewrite Forall_singleton in Hl.
    rewrite parser_app. specialize (IH Hall).
    destruct (custom_gff_parser lines n) as [reduced m].
    by apply parser_step_bounded.
Qed.

(** C5. Every record that [custom_gff_parser] returns for lines with
    start <= stop has at least one span, its [start] is the least
    coordinate of its spans and its [stop] the greatest; two lines with
    [ID=exon1] and the spans (10,20) and (30,40) give one record with
    both spans, start 10 and stop 40. *)
Theorem normalizer_start_stop :
  (forall lines n k r,
     Forall (fun l => l_start l <= l_stop l) lines ->
     (k, r) ∈ (custom_gff_parser lines n).1 ->
     spans r <> [] /\
     spans_min (spans r) = Some (start r) /\ spans_max (spans r) = Some (stop r)) /\
  custom_gff_parser [exon_line "ID=exon1" 10 20; exon_line "ID=exon1" 30 40] 0 =
    ([("exon1",
       {| seqid := "1"; source := "ensembl"; biotype := "exon"; name := Some "exon1";
          parent_id := None; start := 10; stop := 40; spans := [(10, 20); (30, 40)];
          score := "."; strand := "+"; phase := "."; comments := None;
          attrs := "ID=exon1"; feature_id := None |})], 0).
Proof.
  split; [|by vm_compute].
  intros lines n k r Hall Hin.
  pose proof (parser_bounded lines n Hall) as Hb.
  rewrite Forall_forall in Hb. specialize (Hb _ Hin). simpl in Hb.
  split; [|by apply bounded_extremes].
  destruct Hb as (Hs & _). intros Hnil. rewrite Hnil in Hs. by apply elem_of_nil in Hs.
Qed.

Lemma normalizer_start_stop_witness :
  spans_min [(10, 20); (30, 40)] = Some 10 /\ spans_max [(10, 20); (30, 40)] = Some 40.
Proof.
  destruct normalizer_start_stop as [H _].
  refine (proj2 (H [exon_line "ID=exon1" 10 20; exon_line "ID=exon1" 30 40] 0 "exon1"
    {| seqid := "1"; source := "ensembl"; biotype := "exon"; name := Some "exon1";
       parent_id := None; start := 10; stop := 40; spans := [(10, 20); (30, 40)];
       score := "."; strand := "+"; phase := "."; comments := None;
       attrs := "ID=exon1"; feature_id := None |} _ _)).
  - repeat constructor; simpl; lia.
  - vm_compute. left.
Defined.

(** *** What is filed under a name *)

Lemma parser_step_snd t n l : (parser_step (t, n) l).2 = (named_record l n).2.
Proof. unfold parser_step. by destruct (named_record l n) as [[r k] n']. Qed.

Lemma named_records_snoc_from lines l n t :
  named_records (lines ++ [l]) n =
  named_records lines n ++
    [let '(r, k, _) := named_record l (fold_left parser_step lines (t, n)).2 in (k, r)].
Proof.
  revert n t. induction lines as [|l0 lines IH]; intros n t; simpl.
  - by destruct (named_record l n) as [[r k] n'].
  - pose proof (parser_step_snd t n l0) as Hn.
    destruct (parser_step (t, n) l0) as [t1 n1].
    destruct (named_record l0 n) as [[r0 k0] n0]. simpl in *. subst n1.
    f_equal. apply IH.
Qed.

Lemma named_records_snoc lines l n :
  named_records (lines ++ [l]) n =
  named_records lines n ++
    [let '(r, k, _) := named_record l (custom_gff_parser lines n).2 in (k, r)].
Proof. apply named_records_snoc_from. Qed.

Lemma merged_first r : spans r = [] -> absorb r r = merged r [].
Proof.
  intros Hsp. unfold absorb, merged. simpl. rewrite Hsp, Z.min_id, Z.max_id.
  by destruct r.
Qed.

Lemma merged_snoc first rest r :
  absorb r (merged first rest) = merged first (rest ++ [r]).
Proof.
  unfold absorb, merged. simpl.
  rewrite !fmap_app, !foldl_app. simpl. done.
Qed.

Lemma parser_filed lines n k :
  match dict_get k (custom_gff_parser lines n).1 with
  | Some r => exists first rest, records_named k lines n = first :: rest /\ r = merged first rest
  | None => records_named k lines n = []
  end.
Proof.
  induction lines as [|l lines IH] using rev_ind; [done|].
  rewrite parser_app. unfold records_named in *. rewrite named_records_snoc.
  destruct (custom_gff_parser lines n) as [reduced m]. simpl in *.
  unfold parser_step.
  destruct (named_record l m) as [[r0 k0] m'] eqn:Hnr.
  apply named_record_coords in Hnr as (_ & _ & Hsp & _). simpl.
  rewrite filter_app, fmap_app, filter_cons, filter_nil. simpl.
  rewrite dict_get_alter.
  destruct (decide (k0 = k)) as [->|Hne].
  - rewrite decide_True by done.
    destruct (dict_get k reduced) as [e|] eqn:Hg; simpl.
    + rewrite Hg. simpl. destruct IH as (first & rest & -> & ->).
      exists first, (rest ++ [r0]). split; [done|]. apply merged_snoc.
    + rewrite dict_get_app, Hg. simpl. rewrite decide_True by done. simpl.
      rewrite IH. exists r0, []. split; [done|]. by apply merged_first.
  - rewrite decide_False by done. rewrite app_nil_r.
    destruct (dict_get k0 reduced) eqn:Hg0; [done|].
    rewrite dict_get_app. destruct (dict_get k reduced); [done|].
    simpl. by rewrite decide_False.
Qed.

(** C10. The record filed under a name is the record of the first line
    of that name; every later line of the name adds its (start, stop) to
    the spans and widens start and stop, and nothing else of it is kept.
    No name is filed twice. *)
Theorem normalizer_merges_by_name lines n k r :
  dict_get k (custom_gff_parser lines n).1 = Some r ->
  NoDup (custom_gff_parser lines n).1.*1 /\
  exists first rest,
    records_named k lines n = first :: rest /\
    r = set_stop (foldl Z.max (stop first) (stop <$> rest))
          (set_start (foldl Z.min (start first) (start <$> rest))
             (set_spans ((fun x => (start x, stop x)) <$> first :: rest) first)).
Proof.
  intros Hg. split; [apply parser_keys_nodup|].
  pose proof (parser_filed lines n k) as H. by rewrite Hg in H.
Qed.

Lemma normalizer_merges_by_name_witness :
  exists r,
    dict_get "exon1" (custom_gff_parser [exon_line "ID=exon1" 10 20; other_exon_line] 0).1
      = Some r /\
    seqid r = "1" /\ source r = "ensembl" /\ biotype r = "exon" /\ strand r = "+" /\
    attrs r = "ID=exon1" /\ parent_id r = None /\
    spans r = [(10, 20); (30, 40)] /\ start r = 10 /\ stop r = 40.
Proof.
  eexists. split; [by vm_compute|].
  destruct (normalizer_merges_by_name
              [exon_line "ID=exon1" 10 20; other_exon_line] 0 "exon1" _ eq_refl)
    as (_ & first & rest & Hnamed & _).
  vm_compute in Hnamed. injection Hnamed as <- <-. by vm_compute.
Defined.

(** *** Reading a line again *)

Lemma parser_covered lines n : covered (custom_gff_parser lines n).1 lines.
Proof.
  induction lines as [|l lines IH] using rev_ind.
  - intros l k Hl. by apply elem_of_nil in Hl.
  - rewrite parser_app. destruct (custom_gff_parser lines n) as [reduced m].
    simpl in IH. unfold parser_step.
    destruct (named_record l m) as [[r0 k0] m'] eqn:Hnr. simpl.
    intros l1 k Hl1 Hid. rewrite dict_get_alter.
    apply elem_of_app in Hl1 as [Hl1|Hl1].
    + destruct (IH l1 k Hl1 Hid) as (e & Hg & Hs & Ht).
      destruct (decide (k = k0)) as [->|Hne].
      * rewrite Hg. simpl. rewrite Hg. simpl. eexists; split; [done|].
        unfold absorb; simpl. lia.
      * destruct (dict_get k0 reduced); [by eauto|].
        rewrite dict_get_app, Hg. eauto.
    + apply list_elem_of_singleton in Hl1 as ->.
      rewrite (named_record_line_id _ m _ Hid) in Hnr. injection Hnr as <- <- <-.
      rewrite decide_True by done.
      destruct (update_from_attrs_coords (make_record l)) as (Hs & Ht & _).
      simpl in Hs, Ht.
      destruct (dict_get k reduced) as [e|] eqn:Hg; simpl.
      * rewrite Hg. simpl. eexists; split; [done|]. unfold absorb; simpl. lia.
      * rewrite dict_get_app, Hg. simpl. rewrite decide_True by done. simpl.
        eexists; split; [done|]. unfold absorb; simpl. lia.
Qed.

(** C9, as stated, fails: after the line is read twice the record has
    its span twice, which the record of the line read once has not. *)
Lemma normalizer_readd_differs :
  dict_get "exon1"
    (custom_gff_parser [exon_line "ID=exon1" 10 20; exon_line "ID=exon1" 10 20] 0).1
  <> dict_get "exon1" (custom_gff_parser [exon_line "ID=exon1" 10 20] 0).1.
Proof. vm_compute. discriminate. Qed.

(** C9, amended. Reading a line whose identifier, start and stop are
    those of an earlier line raises nothing and files no new record: the
    table is the one before with the (start, stop) pair added once more
    to the spans of the record of that identifier, whose start, stop and
    other fields stay, as do all other records and the counter. *)
Theorem normalizer_readd lines l l0 n k :
  line_id l = Some k ->
  l0 ∈ lines -> line_id l0 = Some k -> l_start l0 = l_start l -> l_stop l0 = l_stop l ->
  is_Some (dict_get k (custom_gff_parser lines n).1) /\
  custom_gff_parser (lines ++ [l]) n =
    (dict_alter (fun e => set_spans (spans e ++ [(l_start l, l_stop l)]) e) k
       (custom_gff_parser lines n).1,
     (custom_gff_parser lines n).2).
Proof.
  intros Hid Hl0 Hid0 Hs Ht.
  destruct (parser_covered lines n l0 k Hl0 Hid0) as (e & Hg & Hse & Hte).
  split; [by rewrite Hg|].
  rewrite parser_app. destruct (custom_gff_parser lines n) as [reduced m].
  simpl in *. unfold parser_step.
  rewrite (named_record_line_id _ m _ Hid). rewrite Hg. f_equal.
  apply dict_alter_ext. intros v Hv. rewrite Hg in Hv. injection Hv as <-.
  destruct (update_from_attrs_coords (make_record l)) as (Hs' & Ht' & _).
  simpl in Hs', Ht'. unfold absorb. rewrite Hs', Ht'.
  rewrite Z.min_l, Z.max_l by lia. by destruct e.
Qed.

Lemma normalizer_readd_witness :
  custom_gff_parser ([exon_line "ID=exon1" 10 20] ++ [exon_line "ID=exon1" 10 20]) 0 =
    (dict_alter (fun e => set_spans (spans e ++ [(10, 20)]) e) "exon1"
       (custom_gff_parser [exon_line "ID=exon1" 10 20] 0).1,
     (custom_gff_parser [exon_line "ID=exon1" 10 20] 0).2).
Proof.
  refine (proj2 (normalizer_readd [exon_line "ID=exon1" 10 20] (exon_line "ID=exon1" 10 20)
                   (exon_line "ID=exon1" 10 20) 0 "exon1" _ _ _ _ _)).
  - reflexivity.
  - left.
  - reflexivity.
  - reflexivity.
  - reflexivity.
Defined.

(** ** The relationship builder *)

(** C3 fails on a gene with two transcripts: the set of the gene is
    looked up under its [stableid], "G", while it is stored under the
    record named "gene:G", so the second coding sequence starts a new set
    and the first and its transcript are lost. *)
Lemma gene_relationships_two_transcripts :
  relationships_by_name <$>
    make_gene_relationships (custom_gff_parser two_transcripts 0).1.*2 =
  Some [(Some "gene:G", [Some "cds:C2"; Some "transcript:T2"])].
Proof. by vm_compute. Qed.

(** ** The feature table *)

(** C8, as stated, fails: a second feature of the same stable id is
    stored beside the first. *)
Lemma add_feature_twice_accepted :
  (fun r => (f_stableid <$> feature_tbl r.1, f_id <$> feature_tbl r.1)) <$>
    (add_feature empty_db gene_x ≫= (fun r => add_feature r.1 gene_x)) =
  Some (["X"; "X"], [1; 2]).
Proof. by vm_compute. Qed.

Lemma get_biotype_id_features db b :
  feature_tbl (_get_biotype_id db b).1 = feature_tbl db.
Proof. unfold _get_biotype_id. by destruct (biotype_cache db !! b). Qed.

Lemma spans_min_elem sp a : spans_min sp = Some a -> a ∈ coords sp.
Proof.
  unfold spans_min. destruct (coords sp) as [|x xs]; [done|].
  intros [= <-]. apply foldr_min_spec.
Qed.

Lemma spans_max_elem sp a : spans_max sp = Some a -> a ∈ coords sp.
Proof.
  unfold spans_max. destruct (coords sp) as [|x xs]; [done|].
  intros [= <-]. apply foldr_max_spec.
Qed.

(** The two integers that [add_feature] binds for a record that sqlite
    can hold. *)
Lemma storable_bounds feature :
  storable feature ->
  (forall a, (if decide (start feature = 0) then spans_min (spans feature)
              else Some (start feature)) = Some a -> int64 a) /\
  (forall b, (if decide (stop feature = 0) then spans_max (spans feature)
              else Some (stop feature)) = Some b -> int64 b).
Proof.
  intros (Hs & Ht & Hsp). rewrite Forall_forall in Hsp. split.
  - intros a. case_decide; [|by intros [= <-]]. intros Ha. by apply Hsp, spans_min_elem.
  - intros b. case_decide; [|by intros [= <-]]. intros Hb. by apply Hsp, spans_max_elem.
Qed.

Lemma absorb_storable r e :
  int64 (start r) -> int64 (stop r) -> storable e -> storable (absorb r e).
Proof.
  intros Hs Ht (Hes & Het & Hsp). unfold storable, absorb; simpl.
  rewrite coords_snoc. split_and!.
  - unfold int64 in *. lia.
  - unfold int64 in *. lia.
  - apply Forall_app. split; [done|].
    apply Forall_cons. split; [done|]. apply Forall_cons. split; [done|]. constructor.
Qed.

Lemma parser_step_storable reduced n l :
  line_fits l ->
  Forall (fun kr => storable kr.2) reduced ->
  Forall (fun kr => storable kr.2) (parser_step (reduced, n) l).1.
Proof.
  intros [Hl1 Hl2] Hall. unfold parser_step.
  destruct (named_record l n) as [[r k] n'] eqn:Hnr.
  apply named_record_coords in Hnr as (Hs & Ht & Hp & _). simpl.
  destruct (dict_get k reduced) eqn:Hg.
  - apply dict_alter_Forall; [|done]. simpl. intros v.
    apply absorb_storable; by rewrite ?Hs, ?Ht.
  - rewrite dict_alter_app_new by done.
    apply Forall_app. split; [done|]. apply Forall_singleton. simpl.
    apply absorb_storable; rewrite ?Hs, ?Ht; try done.
    unfold storable. rewrite Hs, Ht, Hp. split_and!; [done | done | constructor].
Qed.

Lemma parser_storable lines n :
  Forall line_fits lines ->
  Forall (fun kr => storable kr.2) (custom_gff_parser lines n).1.
Proof.
  induction lines as [|l lines IH] using rev_ind; intros Hall.
  - constructor.
  - apply Forall_app in Hall as [Hall Hl]. rewrite Forall_singleton in Hl.
    rewrite parser_app. specialize (IH Hall).
    destruct (custom_gff_parser lines n) as [reduced m].
    by apply parser_step_storable.
Qed.

(** A [start] that sqlite cannot hold makes the call raise. *)
Lemma add_feature_overflow db feature :
  start feature <> 0 -> ~ int64 (start feature) -> add_feature db feature = None.
Proof.
  intros H0 Hbig. unfold add_feature.
  destruct (decide (start feature = 0)) as [|_]; [done|]. simpl.
  destruct (if decide (stop feature = 0) then _ else _) as [stop1|]; [|done]. simpl.
  destruct (_get_biotype_id db (biotype feature)) as [db1 bid].
  rewrite decide_False; [done|]. simpl. tauto.
Qed.

(** C8, amended. [add_feature] does not look at the stable ids already
    stored: for a record with usable coordinates that sqlite can hold it
    succeeds, whatever the table holds, and adds one row with the
    record's stable id under an id not in use, which it notes in the
    record. *)
Theorem add_feature_accepts db feature :
  (start feature <> 0 \/ spans feature <> []) ->
  (stop feature <> 0 \/ spans feature <> []) ->
  storable feature ->
  exists db' feature' row,
    add_feature db feature = Some (db', feature') /\
    feature_tbl db' = feature_tbl db ++ [row] /\
    f_stableid row = stableid feature /\
    (f_id row ∉ (f_id <$> feature_tbl db)) /\
    feature_id feature' = Some (f_id row).
Proof.
  intros Hstart Hstop Hfit. unfold add_feature.
  assert (exists a, (if decide (start feature = 0) then spans_min (spans feature)
                     else Some (start feature)) = Some a) as [a Ha].
  { case_decide as H0; [|by eauto]. destruct Hstart as [|Hsp]; [done|].
    unfold spans_min, coords. destruct (spans feature) as [|[x y] sp]; [done|].
    simpl. eauto. }
  assert (exists b, (if decide (stop feature = 0) then spans_max (spans feature)
                     else Some (stop feature)) = Some b) as [b Hb].
  { destruct (decide (stop feature = 0)) as [H0|H0]; [|by eauto].
    destruct Hstop as [|Hsp]; [done|].
    unfold spans_max, coords. destruct (spans feature) as [|[x y] sp]; [done|].
    simpl. eauto. }
  destruct (storable_bounds feature Hfit) as [Hlo Hhi].
  specialize (Hlo a Ha). specialize (Hhi b Hb). rewrite Ha, Hb. simpl.
  pose proof (get_biotype_id_features db (biotype feature)) as Hf.
  destruct (_get_biotype_id db (biotype feature)) as [db1 bid]. simpl in Hf.
  rewrite decide_True by done.
  do 3 eexists. split; [done|]. simpl. rewrite Hf.
  split_and!; [done | done | apply fresh_id_fresh | done].
Qed.

Lemma add_feature_accepts_witness :
  stableid gene_x ∈
    (f_stableid <$> feature_tbl (default empty_db (fst <$> add_feature empty_db gene_x))) /\
  exists db' feature' row,
    add_feature (default empty_db (fst <$> add_feature empty_db gene_x)) gene_x =
      Some (db', feature') /\
    feature_tbl db' =
      feature_tbl (default empty_db (fst <$> add_feature empty_db gene_x)) ++ [row] /\
    f_stableid row = stableid gene_x /\
    (f_id row ∉
       (f_id <$> feature_tbl (default empty_db (fst <$> add_feature empty_db gene_x)))) /\
    feature_id feature' = Some (f_id row).
Proof.
  split; [vm_compute; left|].
  apply add_feature_accepts.
  - left; vm_compute; discriminate.
  - left; vm_compute; discriminate.
  - apply (bool_decide_unpack _). vm_compute. exact I.
Defined.

(** ** The clusterer *)

(** C1 fails on an edge that joins two groups made earlier: the pair
    (b, c) goes to the group of b, and c stays in its old group as
    well. *)
Lemma clusterer_bridging_overlap :
  grouped_related [("ortho", "a", "b"); ("ortho", "c", "d"); ("ortho", "b", "c")] =
    {[ "ortho" := [ortho ["a"; "b"; "c"]; ortho ["c"; "d"]] ]} /\
  "c" ∈ gene_ids (ortho ["a"; "b"; "c"]) ∩ gene_ids (ortho ["c"; "d"]).
Proof.
  split; [by vm_compute|].
  apply elem_of_intersection. split; apply elem_of_list_to_set.
  - do 2 right. left.
  - left.
Qed.

(** C6. The edges (g1, g2) and (g2, g3) of type "ortho" give the one
    group {g1, g2, g3}.  The pair of an edge is united into the group that
    [target] names, to which both ids then map; [target] is the group of
    the first id whenever it has one, whatever the second maps to, and
    else the group of the second. *)
Theorem clusterer_union_target :
  grouped_related [("ortho", "g1", "g2"); ("ortho", "g2", "g3")] =
    {[ "ortho" := [ortho ["g1"; "g2"; "g3"]] ]} /\
  (forall st rel_type a b v,
     target (default ∅ (grouped st !! rel_type)) a b = Some v ->
     groups (cluster_step st (rel_type, a, b)) = alter (add_gene_ids {[a; b]}) v (groups st) /\
     grouped (cluster_step st (rel_type, a, b)) !! rel_type =
       Some (<[b := v]> (<[a := v]> (default ∅ (grouped st !! rel_type))))) /\
  (forall (rel : gmap string nat) a b v1, rel !! a = Some v1 -> target rel a b = Some v1) /\
  (forall (rel : gmap string nat) a b v2,
     rel !! a = None -> rel !! b = Some v2 -> target rel a b = Some v2).
Proof.
  split_and!.
  - by vm_compute.
  - intros st rel_type a b v Ht. unfold cluster_step. rewrite Ht. simpl.
    split; [done|]. by rewrite lookup_insert_eq.
  - intros rel a b v1 Ha. unfold target. by rewrite Ha.
  - intros rel a b v2 Ha Hb. unfold target. by rewrite Ha.
Qed.

Lemma clusterer_union_target_witness :
  target ({[ "b" := 0%nat; "c" := 1%nat ]} : gmap string nat) "b" "c" = Some 0%nat /\
  target ({[ "b" := 0%nat; "c" := 1%nat ]} : gmap string nat) "x" "c" = Some 1%nat.
Proof.
  destruct clusterer_union_target as (_ & _ & Hfirst & Hsecond).
  split; [apply Hfirst | apply Hsecond]; reflexivity.
Defined.

(** *** Edges that bridge no groups *)

Lemma cluster_step_consistent st row :
  consistent st -> ~ bridges st row -> consistent (cluster_step st row).
Proof.
  destruct row as [[t0 a] b]. intros [Htyped Hmember] Hnb.
  unfold bridges in Hnb. simpl in Hnb. unfold cluster_step.
  set (rel := default ∅ (grouped st !! t0)) in *.
  assert (forall g v, rel !! g = Some v ->
            exists grp, groups st !! v = Some grp /\ relationship grp = t0) as Hrel.
  { intros g v Hv. subst rel. destruct (grouped st !! t0) as [rel0|] eqn:Ht0; simpl in Hv.
    - by apply (Htyped t0 rel0 g).
    - by rewrite lookup_empty in Hv. }
  assert (forall v grp g, groups st !! v = Some grp -> relationship grp = t0 ->
            g ∈ gene_ids grp -> rel !! g = Some v) as Hback.
  { intros v grp g Hv Ht Hg. destruct (Hmember v grp g Hv Hg) as (rel0 & Hrel0 & Hg0).
    subst rel. rewrite Ht in Hrel0. by rewrite Hrel0. }
  destruct (target rel a b) as [val|] eqn:Htarget.
  - (* the pair joins the group [val] *)
    assert (exists grp, groups st !! val = Some grp /\ relationship grp = t0) as (grp0 & Hval & Hty0).
    { unfold target in Htarget. destruct (rel !! a) as [v1|] eqn:Ha.
      - injection Htarget as <-. by apply (Hrel a).
      - by apply (Hrel b). }
    split.
    + intros t rel1 g v Ht Hg. simpl in *.
      assert (exists grp, groups st !! v = Some grp /\ relationship grp = t) as (grp & Hv & Hty).
      { destruct (decide (t = t0)) as [->|Hne].
        - rewrite lookup_insert_eq in Ht. injection Ht as <-.
          destruct (decide (g = b)) as [->|Hgb].
          { rewrite lookup_insert_eq in Hg. injection Hg as <-. eauto. }
          rewrite lookup_insert_ne in Hg by done.
          destruct (decide (g = a)) as [->|Hga].
          { rewrite lookup_insert_eq in Hg. injection Hg as <-. eauto. }
          rewrite lookup_insert_ne in Hg by done. by apply (Hrel g).
        - rewrite lookup_insert_ne in Ht by done. by apply (Htyped t rel1 g). }
      destruct (decide (v = val)) as [->|Hne].
      * rewrite list_lookup_alter_eq, Hv. simpl. eauto.
      * rewrite list_lookup_alter_ne by done. eauto.
    + intros v grp g Hv Hg. simpl in *.
      destruct (decide (v = val)) as [->|Hne].
      * rewrite list_lookup_alter_eq, Hval in Hv. injection Hv as <-. simpl in *.
        rewrite Hty0, lookup_insert_eq. eexists; split; [done|].
        destruct (decide (g = b)) as [->|Hgb]; [by rewrite lookup_insert_eq|].
        rewrite lookup_insert_ne by done.
        destruct (decide (g = a)) as [->|Hga]; [by rewrite lookup_insert_eq|].
        rewrite lookup_insert_ne by done.
        apply (Hback val grp0 g); [done | done |].
        apply elem_of_union in Hg as [Hg|Hg]; [done|].
        apply elem_of_union in Hg as [Hg|Hg]; apply elem_of_singleton in Hg; done.
      * rewrite list_lookup_alter_ne in Hv by done.
        destruct (decide (relationship grp = t0)) as [Ht|Ht].
        -- rewrite Ht, lookup_insert_eq. eexists; split; [done|].
           pose proof (Hback v grp g Hv Ht Hg) as Hgv.
           assert (g <> a) as Hga.
           { intros ->. unfold target in Htarget. rewrite Hgv in Htarget. congruence. }
           assert (g <> b) as Hgb.
           { intros ->. unfold target in Htarget. destruct (rel !! a) as [v1|] eqn:Ha.
             - injection Htarget as ->. apply Hnb. rewrite Hgv. congruence.
             - congruence. }
           by rewrite !lookup_insert_ne.
        -- rewrite lookup_insert_ne by done. by apply (Hmember v grp g).
  - (* the pair starts a group *)
    unfold target in Htarget. destruct (rel !! a) eqn:Ha; [done|]. rename Htarget into Hb.
    set (val := length (groups st)).
    assert (forall v grp, groups st !! v = Some grp -> val <> v) as Hold.
    { intros v grp Hv. apply lookup_lt_Some in Hv. subst val. lia. }
    split.
    + intros t rel1 g v Ht Hg. simpl in *.
      destruct (decide (t = t0)) as [->|Hne].
      * rewrite lookup_insert_eq in Ht. injection Ht as <-.
        assert (v = val \/ rel !! g = Some v) as [->|Hgv].
        { destruct (decide (g = b)) as [->|Hgb].
          { rewrite lookup_insert_eq in Hg. left. congruence. }
          rewrite lookup_insert_ne in Hg by done.
          destruct (decide (g = a)) as [->|Hga].
          { rewrite lookup_insert_eq in Hg. left. congruence. }
          rewrite lookup_insert_ne in Hg by done. by right. }
        -- rewrite list_lookup_alter_eq. unfold val. rewrite lookup_app_r by done.
           rewrite Nat.sub_diag. simpl. eauto.
        -- destruct (Hrel g v Hgv) as (grp & Hv & Hty).
           rewrite list_lookup_alter_ne by (by apply (Hold v grp)).
           rewrite lookup_app_l by (by apply lookup_lt_Some in Hv). eauto.
      * rewrite lookup_insert_ne in Ht by done.
        destruct (Htyped t rel1 g v Ht Hg) as (grp & Hv & Hty).
        rewrite list_lookup_alter_ne by (by apply (Hold v grp)).
        rewrite lookup_app_l by (by apply lookup_lt_Some in Hv). eauto.
    + intros v grp g Hv Hg. simpl in *.
      destruct (decide (v = val)) as [->|Hne].
      * rewrite list_lookup_alter_eq in Hv. unfold val in Hv.
        rewrite lookup_app_r, Nat.sub_diag in Hv by done. injection Hv as <-. simpl in *.
        rewrite lookup_insert_eq. eexists; split; [done|].
        assert (g = a \/ g = b) as [->| ->].
        { apply elem_of_union in Hg as [Hg|Hg]; [by apply not_elem_of_empty in Hg|].
          apply elem_of_union in Hg as [Hg|Hg]; apply elem_of_singleton in Hg; auto. }
        -- destruct (decide (a = b)) as [->|Hab]; [by rewrite lookup_insert_eq|].
           by rewrite lookup_insert_ne, lookup_insert_eq.
        -- by rewrite lookup_insert_eq.
      * rewrite list_lookup_alter_ne in Hv by done.
        assert (groups st !! v = Some grp) as Hv'.
        { apply lookup_app_Some in Hv as [Hv|[Hlen Hv]]; [done|].
          destruct (v - length (groups st))%nat as [|k] eqn:Hk; simpl in Hv; [|done].
          exfalso. apply Hne. unfold val. lia. }
        destruct (decide (relationship grp = t0)) as [Ht|Ht].
        -- rewrite Ht, lookup_insert_eq. eexists; split; [done|].
           pose proof (Hback v grp g Hv' Ht Hg) as Hgv.
           rewrite !lookup_insert_ne by congruence. done.
        -- rewrite lookup_insert_ne by done. by apply (Hmember v grp g).
Qed.


Lemma no_bridge_consistent data : forall st,
  consistent st -> no_bridge st data -> consistent (fold_left cluster_step data st).
Proof.
  induction data as [|row data IH]; intros st Hst Hnb; simpl; [done|].
  destruct Hnb as [Hrow Hrest]. apply IH; [|done]. by apply cluster_step_consistent.
Qed.

Lemma omap_two {A B} (f : A -> option B) (l : list A) i j y1 y2 :
  NoDup l -> i <> j -> omap f l !! i = Some y1 -> omap f l !! j = Some y2 ->
  exists x1 x2, x1 <> x2 /\ x1 ∈ l /\ x2 ∈ l /\ f x1 = Some y1 /\ f x2 = Some y2.
Proof.
  intros Hnd. revert i j. induction Hnd as [|x l Hx Hnd IH]; intros i j Hij Hi Hj; simpl in *.
  - by rewrite lookup_nil in Hi.
  - assert (forall k y, omap f l !! k = Some y -> exists x', x' ∈ l /\ f x' = Some y) as Hin.
    { intros k y Hk. apply list_elem_of_lookup_2 in Hk.
      by apply list_elem_of_omap in Hk. }
    destruct (f x) as [y|] eqn:Hfx.
    + destruct i as [|i], j as [|j]; simpl in *.
      * done.
      * injection Hi as <-. destruct (Hin j y2 Hj) as (x2 & Hx2 & Hf2).
        exists x, x2. split_and!; try done; [by intros -> | left | by right].
      * injection Hj as <-. destruct (Hin i y1 Hi) as (x1 & Hx1 & Hf1).
        exists x1, x. split_and!; try done; [by intros -> | by right | left].
      * destruct (IH i j ltac:(lia) Hi Hj) as (x1 & x2 & ? & ? & ? & ? & ?).
        exists x1, x2. split_and!; try done; by right.
    + destruct (IH i j Hij Hi Hj) as (x1 & x2 & ? & ? & ? & ? & ?).
      exists x1, x2. split_and!; try done; by right.
Qed.

(** X1. When no edge joins two groups made earlier, the groups that
    [grouped_related] returns for a relationship type are pairwise
    disjoint. *)
Theorem clusterer_disjoint_without_bridges data rel_type series i j g1 g2 :
  no_bridge {| groups := []; grouped := ∅ |} data ->
  grouped_related data !! rel_type = Some series ->
  i <> j -> series !! i = Some g1 -> series !! j = Some g2 ->
  gene_ids g1 ## gene_ids g2.
Proof.
  intros Hnb Hseries Hij Hi Hj.
  assert (consistent {| groups := []; grouped := ∅ |}) as Hinit.
  { split; simpl.
    - intros t rel g v Ht. by rewrite lookup_empty in Ht.
    - intros v grp g Hv. by rewrite lookup_nil in Hv. }
  pose proof (no_bridge_consistent data _ Hinit Hnb) as [Htyped Hmember].
  unfold grouped_related, reduce in Hseries.
  set (st := fold_left cluster_step data {| groups := []; grouped := ∅ |}) in *.
  rewrite lookup_fmap in Hseries.
  destruct (grouped st !! rel_type) as [rel|] eqn:Hrel; [|done].
  injection Hseries as <-.
  destruct (omap_two _ _ i j g1 g2 (NoDup_filter _ _ (NoDup_seq 0 _)) Hij Hi Hj)
    as (v1 & v2 & Hne & Hv1 & Hv2 & Hg1 & Hg2).
  assert (forall v, v ∈ distinct_values (length (groups st)) rel ->
            exists g, rel !! g = Some v) as Hval.
  { intros v Hv. apply list_elem_of_filter in Hv as [Hv _].
    apply list_elem_of_fmap in Hv as ([g v'] & -> & Hv).
    apply elem_of_map_to_list in Hv. by exists g. }
  destruct (Hval v1 Hv1) as (a1 & Ha1). destruct (Hval v2 Hv2) as (a2 & Ha2).
  destruct (Htyped _ _ _ _ Hrel Ha1) as (grp1 & Hgrp1 & Hty1).
  destruct (Htyped _ _ _ _ Hrel Ha2) as (grp2 & Hgrp2 & Hty2).
  rewrite Hg1 in Hgrp1. injection Hgrp1 as <-.
  rewrite Hg2 in Hgrp2. injection Hgrp2 as <-.
  intros g Hin1 Hin2.
  destruct (Hmember v1 g1 g Hg1 Hin1) as (rel1 & Hrel1 & Hm1).
  destruct (Hmember v2 g2 g Hg2 Hin2) as (rel2 & Hrel2 & Hm2).
  rewrite Hty1, Hrel in Hrel1. rewrite Hty2, Hrel in Hrel2.
  injection Hrel1 as <-. injection Hrel2 as <-. congruence.
Qed.

Lemma clusterer_disjoint_without_bridges_witness :
  gene_ids {| relationship := "ortho"; gene_ids := {[ "g1"; "g2"; "g3" ]} |} ##
  gene_ids {| relationship := "ortho"; gene_ids := {[ "h1"; "h2" ]} |}.
Proof.
  refine (clusterer_disjoint_without_bridges
    [("ortho", "g1", "g2"); ("ortho", "h1", "h2"); ("ortho", "g2", "g3"); ("ortho", "g1", "g3")]
    "ortho" _ 0%nat 1%nat _ _ _ _ _ _ _).
  - vm_compute. split_and!; [tauto | tauto | tauto | | exact I]. intros H. by apply H.
  - by vm_compute.
  - done.
  - by vm_compute.
  - by vm_compute.
Defined.

(** ** The merge engine *)

Lemma merge_grouped_singleton iter t s1 s2 :
  merge_grouped iter {[ t := s1 ]} {[ t := s2 ]} =
  r ← merge_rel_type iter s1 s2; Some {[ t := r ]}.
Proof.
  unfold merge_grouped.
  assert (union_with (fun a _ => Some a) ({[ t := s1 ]} : gmap string (list homolog_group))
            {[ t := s2 ]} = {[ t := s1 ]}) as ->.
  { apply map_eq. intros i. rewrite lookup_union_with.
    destruct (decide (i = t)) as [->|Hne].
    - by rewrite !lookup_singleton_eq.
    - by rewrite !lookup_singleton_ne. }
  rewrite map_fold_singleton. rewrite !lookup_singleton_eq. simpl.
  destruct (merge_rel_type iter s1 s2); simpl; [|done]. by rewrite insert_empty.
Qed.

Lemma iter_empty (iter : gset string -> list string) :
  (forall X, iter X ≡ₚ elements X) -> iter ∅ = [].
Proof. intros H. apply Permutation_nil_r. by rewrite H, elements_empty. Qed.

Lemma iter_singleton (iter : gset string -> list string) x :
  (forall X, iter X ≡ₚ elements X) -> iter {[ x ]} = [x].
Proof. intros H. apply Permutation_singleton_r. by rewrite H, elements_singleton. Qed.

Lemma iter_pair (iter : gset string -> list string) x y :
  x <> y -> (forall X, iter X ≡ₚ elements X) ->
  iter {[ x; y ]} = [x; y] \/ iter {[ x; y ]} = [y; x].
Proof.
  intros Hne H. 
  assert (iter {[ x; y ]} ≡ₚ [x; y]) as Hp.
  { rewrite H. rewrite elements_union_singleton by set_solver.
    by rewrite elements_singleton. }
  symmetry in Hp. apply Permutation_length_2_inv in Hp. tauto.
Qed.

Lemma merge_ab_cd iter :
  exhaustive iter ->
  merge_rel_type iter [ortho ["a"; "b"]] [ortho ["c"; "d"]] =
    Some [ortho ["a"; "b"]; ortho ["c"; "d"]].
Proof.
  intros H. unfold merge_rel_type.
  replace (dom (_gene_id_to_group [ortho ["a"; "b"]]) ∩ dom (_gene_id_to_group [ortho ["c"; "d"]]))
    with (∅ : gset string) by (by vm_compute).
  rewrite (iter_empty _ (H _ _)). by vm_compute.
Qed.

Lemma merge_cd_bc iter :
  exhaustive iter ->
  merge_rel_type iter [ortho ["c"; "d"]] [ortho ["b"; "c"]] = Some [ortho ["b"; "c"; "d"]].
Proof.
  intros H. unfold merge_rel_type.
  replace (dom (_gene_id_to_group [ortho ["c"; "d"]]) ∩ dom (_gene_id_to_group [ortho ["b"; "c"]]))
    with ({[ "c" ]} : gset string) by (by vm_compute).
  rewrite (iter_singleton _ _ (H _ _)). by vm_compute.
Qed.

Lemma merge_ab_bcd iter :
  exhaustive iter ->
  merge_rel_type iter [ortho ["a"; "b"]] [ortho ["b"; "c"; "d"]] =
    Some [ortho ["a"; "b"; "c"; "d"]].
Proof.
  intros H. unfold merge_rel_type.
  replace (dom (_gene_id_to_group [ortho ["a"; "b"]]) ∩
           dom (_gene_id_to_group [ortho ["b"; "c"; "d"]]))
    with ({[ "b" ]} : gset string) by (by vm_compute).
  rewrite (iter_singleton _ _ (H _ _)). by vm_compute.
Qed.

Lemma merge_abcd_bc iter :
  exhaustive iter ->
  merge_rel_type iter [ortho ["a"; "b"]; ortho ["c"; "d"]] [ortho ["b"; "c"]] =
    Some [ortho ["c"; "d"]; ortho ["a"; "b"; "c"]] \/
  merge_rel_type iter [ortho ["a"; "b"]; ortho ["c"; "d"]] [ortho ["b"; "c"]] =
    Some [ortho ["a"; "b"]; ortho ["b"; "c"; "d"]].
Proof.
  intros H. unfold merge_rel_type.
  replace (dom (_gene_id_to_group [ortho ["a"; "b"]; ortho ["c"; "d"]]) ∩
           dom (_gene_id_to_group [ortho ["b"; "c"]]))
    with ({[ "b"; "c" ]} : gset string) by (by vm_compute).
  destruct (iter_pair (iter [ortho ["a"; "b"]; ortho ["c"; "d"]] [ortho ["b"; "c"]])
              "b" "c" ltac:(done) (H _ _)) as [-> | ->]; [left | right]; by vm_compute.
Qed.

(** C2 fails on the clusterings {a,b}, {c,d} and {b,c}: whatever the
    order in which the shared ids are gone through, merging the first two
    and then the third leaves two groups that overlap, while merging the
    last two and then the first gives the one group {a,b,c,d}. *)
Theorem merge_grouped_not_associative iter :
  exhaustive iter ->
  exists l,
    (merge_grouped iter (part ["a"; "b"]) (part ["c"; "d"]) ≫=
       (fun m => merge_grouped iter m (part ["b"; "c"]))) = Some {[ "ortho" := l ]} /\
    (l = [ortho ["c"; "d"]; ortho ["a"; "b"; "c"]] \/
     l = [ortho ["a"; "b"]; ortho ["b"; "c"; "d"]]) /\
    (merge_grouped iter (part ["c"; "d"]) (part ["b"; "c"]) ≫=
       (fun m => merge_grouped iter (part ["a"; "b"]) m)) =
      Some {[ "ortho" := [ortho ["a"; "b"; "c"; "d"]] ]}.
Proof.
  intros H. unfold part.
  rewrite !merge_grouped_singleton, merge_ab_cd, merge_cd_bc by done. simpl.
  rewrite !merge_grouped_singleton, merge_ab_bcd by done. simpl.
  destruct (merge_abcd_bc iter H) as [-> | ->]; simpl; eauto.
Qed.

Lemma merge_grouped_not_associative_witness :
  exists l,
    (merge_grouped by_elements (part ["a"; "b"]) (part ["c"; "d"]) ≫=
       (fun m => merge_grouped by_elements m (part ["b"; "c"]))) = Some {[ "ortho" := l ]} /\
    (l = [ortho ["c"; "d"]; ortho ["a"; "b"; "c"]] \/
     l = [ortho ["a"; "b"]; ortho ["b"; "c"; "d"]]) /\
    (merge_grouped by_elements (part ["c"; "d"]) (part ["b"; "c"]) ≫=
       (fun m => merge_grouped by_elements (part ["a"; "b"]) m)) =
      Some {[ "ortho" := [ortho ["a"; "b"; "c"; "d"]] ]}.
Proof.
  apply (merge_grouped_not_associative by_elements). intros s1 s2 X. reflexivity.
Defined.

(** *** The order of the inputs *)

Lemma swap_ref_involutive r : swap_ref (swap_ref r) = r.
Proof. by destruct r. Qed.

Lemma map_fold_insert_lookup (mk : nat -> group_ref) (m : gmap string nat)
    (c : gmap string group_ref) g :
  map_fold (fun k i acc => <[k := mk i]> acc) c m !! g =
  match m !! g with Some i => Some (mk i) | None => c !! g end.
Proof.
  revert g. apply (map_fold_weak_ind (fun r m => forall g,
    r !! g = match m !! g with Some i => Some (mk i) | None => c !! g end)).
  - intros g. by rewrite lookup_empty.
  - intros k i m' r Hk IH g. destruct (decide (g = k)) as [->|Hne].
    + by rewrite !lookup_insert_eq.
    + by rewrite !lookup_insert_ne.
Qed.

Lemma add_unique_lookup mk (a b : gmap string nat) c g :
  _add_unique mk a b c !! g =
  match a !! g, b !! g with
  | Some i, None => Some (mk i)
  | _, _ => c !! g
  end.
Proof.
  unfold _add_unique. rewrite map_fold_insert_lookup, map_lookup_filter.
  destruct (a !! g) as [i|]; simpl; [|done].
  destruct (b !! g) as [j|] eqn:Hb.
  - rewrite option_guard_False; [done|]. simpl. congruence.
  - by rewrite option_guard_True.
Qed.

Lemma set_fold_insert_lookup (X : gset string) (ref : group_ref)
    (m : gmap string group_ref) g :
  set_fold (fun k r => <[k := ref]> r) m X !! g =
  if decide (g ∈ X) then Some ref else m !! g.
Proof.
  revert g.
  pose (P := fun (r : gmap string group_ref) (Y : gset string) =>
               forall g, r !! g = if decide (g ∈ Y) then Some ref else m !! g).
  apply (set_fold_ind_L P); unfold P; clear P.
  - intros g. rewrite decide_False; [done|]. apply not_elem_of_empty.
  - intros x X' r Hx IH g. destruct (decide (g = x)) as [->|Hne].
    + rewrite lookup_insert_eq, decide_True; [done|]. apply elem_of_union. left.
      by apply elem_of_singleton.
    + rewrite lookup_insert_ne by done. rewrite IH.
      destruct (decide (g ∈ X')) as [Hg|Hg].
      * rewrite decide_True; [done|]. apply elem_of_union. by right.
      * rewrite decide_False; [done|]. intros [Hin|Hin]%elem_of_union; [|done].
        by apply elem_of_singleton in Hin.
Qed.

Lemma group_or_comm a b : group_or a b = group_or b a.
Proof.
  unfold group_or. destruct (decide (relationship b = relationship a)) as [Hab|Hab].
  - rewrite decide_True by done. f_equal. rewrite Hab. f_equal. apply (comm_L (∪)).
  - rewrite decide_False; [done|]. by intros ?.
Qed.

Lemma unique_mirror (grp1 grp2 : gmap string nat) :
  _add_unique InSecond grp1 grp2 (_add_unique InFirst grp2 grp1 ∅) =
  swap_ref <$> _add_unique InSecond grp2 grp1 (_add_unique InFirst grp1 grp2 ∅).
Proof.
  apply map_eq. intros g. rewrite lookup_fmap, !add_unique_lookup, lookup_empty.
  by destruct (grp1 !! g), (grp2 !! g).
Qed.

Lemma merge_step_mirror series1 series2 grp1 grp2 st st' gene_id :
  mirror st st' ->
  match merge_step series1 series2 grp1 grp2 st gene_id,
        merge_step series2 series1 grp2 grp1 st' gene_id with
  | Some r, Some r' => mirror r r'
  | None, None => True
  | _, _ => False
  end.
Proof.
  intros (Hrtg & Hskip & Hun). unfold merge_step. rewrite Hskip, Hun, Hrtg.
  destruct (decide (gene_id ∈ skip st)); [done|].
  destruct (grp1 !! gene_id) as [i|], (grp2 !! gene_id) as [j|]; simpl; try done.
  destruct (series1 !! i) as [a|], (series2 !! j) as [b|]; simpl; try done.
  rewrite (group_or_comm b a). destruct (group_or a b) as [merged|]; simpl; [|done].
  split_and!; simpl; [|done|done].
  apply map_eq. intros g.
  rewrite lookup_fmap, !set_fold_insert_lookup, lookup_fmap.
  by destruct (decide (g ∈ gene_ids merged)).
Qed.

Lemma merge_loop_mirror series1 series2 grp1 grp2 shared_ids : forall st st',
  mirror st st' ->
  match merge_loop series1 series2 grp1 grp2 st shared_ids,
        merge_loop series2 series1 grp2 grp1 st' shared_ids with
  | Some r, Some r' => mirror r r'
  | None, None => True
  | _, _ => False
  end.
Proof.
  induction shared_ids as [|gene_id rest IH]; intros st st' Hm; simpl; [done|].
  pose proof (merge_step_mirror series1 series2 grp1 grp2 st st' gene_id Hm) as Hstep.
  destruct (merge_step series1 series2 grp1 grp2 st gene_id) as [r|],
           (merge_step series2 series1 grp2 grp1 st' gene_id) as [r'|]; simpl; try done.
  by apply IH.
Qed.

Lemma values_swap (m : gmap string group_ref) r :
  r ∈ (map_to_list (swap_ref <$> m)).*2 <-> swap_ref r ∈ (map_to_list m).*2.
Proof.
  rewrite !list_elem_of_fmap. split.
  - intros ([g r'] & -> & Hin). apply elem_of_map_to_list in Hin.
    rewrite lookup_fmap in Hin. destruct (m !! g) as [y|] eqn:Hy; [|done].
    injection Hin as <-. exists (g, y). split; [simpl; by rewrite swap_ref_involutive|].
    by apply elem_of_map_to_list.
  - intros ([g y] & Hy & Hin). apply elem_of_map_to_list in Hin. simpl in *.
    exists (g, r). split; [done|]. apply elem_of_map_to_list.
    rewrite lookup_fmap, Hin, <- Hy. simpl. by rewrite swap_ref_involutive.
Qed.

Lemma referred_mirror series1 series2 us (m : gmap string group_ref) :
  referred series2 series1 us (swap_ref <$> m) ≡ₚ referred series1 series2 us m.
Proof.
  unfold referred.
  rewrite (list_filter_iff (fun i => InFirst i ∈ (map_to_list (swap_ref <$> m)).*2)
                           (fun i => InSecond i ∈ (map_to_list m).*2))
    by (intros i; apply (values_swap m (InFirst i))).
  rewrite (list_filter_iff (fun i => InSecond i ∈ (map_to_list (swap_ref <$> m)).*2)
                           (fun i => InFirst i ∈ (map_to_list m).*2))
    by (intros i; apply (values_swap m (InSecond i))).
  rewrite (list_filter_iff (fun i => Union i ∈ (map_to_list (swap_ref <$> m)).*2)
                           (fun i => Union i ∈ (map_to_list m).*2))
    by (intros i; apply (values_swap m (Union i))).
  rewrite !app_assoc. f_equiv. apply Permutation_app_comm.
Qed.

Lemma merge_rel_type_comm iter series1 series2 :
  same_order iter series1 series2 ->
  match merge_rel_type iter series1 series2, merge_rel_type iter series2 series1 with
  | Some l1, Some l2 => l1 ≡ₚ l2
  | None, None => True
  | _, _ => False
  end.
Proof.
  intros Hsame. unfold same_order in Hsame. unfold merge_rel_type.
  rewrite (comm_L (∩) (dom (_gene_id_to_group series2))).
  rewrite <- Hsame.
  match goal with |- context [merge_loop series1 series2 ?g1 ?g2 ?st ?ids] =>
    match goal with |- context [merge_loop series2 series1 g2 g1 ?st' ids] =>
      pose proof (merge_loop_mirror series1 series2 g1 g2 ids st st') as Hloop
    end end.
  simpl in Hloop.
  match type of Hloop with ?P -> _ => assert P as Hm end.
  { split_and!; simpl; [apply unique_mirror | done | done]. }
  specialize (Hloop Hm).
  destruct (merge_loop series1 series2 _ _ _ _) as [r|],
           (merge_loop series2 series1 _ _ _ _) as [r'|]; simpl; try done.
  destruct Hloop as (-> & _ & ->). symmetry. apply referred_mirror.
Qed.

Lemma merge_grouped_entries iter (group1 group2 : gmap string (list homolog_group)) :
  match merge_grouped iter group1 group2 with
  | Some joint =>
      (forall t, joint !! t = entry iter group1 group2 t) /\
      (forall t, is_Some (group1 !! t) \/ is_Some (group2 !! t) ->
         is_Some (entry iter group1 group2 t))
  | None =>
      exists t, (is_Some (group1 !! t) \/ is_Some (group2 !! t)) /\
        entry iter group1 group2 t = None
  end.
Proof.
  unfold merge_grouped.
  set (keys := union_with (fun a _ => Some a) group1 group2).
  assert (forall t, is_Some (keys !! t) <-> is_Some (group1 !! t) \/ is_Some (group2 !! t))
    as Hkeys.
  { intros t. unfold keys. rewrite lookup_union_with.
    destruct (group1 !! t), (group2 !! t); simpl; split; intros H;
      try (by eauto); try (by destruct H as [[]|[]]); by destruct H. }
  pose (P := fun (r : option (gmap string (list homolog_group)))
                 (m : gmap string (list homolog_group)) =>
    (forall t, is_Some (m !! t) -> is_Some (group1 !! t) \/ is_Some (group2 !! t)) ->
    match r with
    | Some joint =>
        (forall t, joint !! t =
                   if m !! t is Some _ then entry iter group1 group2 t else None) /\
        (forall t, is_Some (m !! t) -> is_Some (entry iter group1 group2 t))
    | None => exists t, is_Some (m !! t) /\ entry iter group1 group2 t = None
    end).
  match goal with |- match map_fold ?f ?b keys with _ => _ end =>
    assert (P (map_fold f b keys) keys) as HP end.
  { apply (map_fold_weak_ind P); unfold P; clear P.
    - intros _. split; intros t; rewrite lookup_empty; [done|]. by intros [].
    - intros i x m r Hi IH Hdom.
      assert (forall t, is_Some (m !! t) -> is_Some (group1 !! t) \/ is_Some (group2 !! t))
        as Hdom'.
      { intros t Ht. apply Hdom. destruct (decide (t = i)) as [->|Hne].
        - by rewrite lookup_insert_eq.
        - by rewrite lookup_insert_ne. }
      specialize (IH Hdom'). destruct r as [joint|]; simpl.
      + destruct IH as [Hjoint Hsome].
        assert (is_Some (group1 !! i) \/ is_Some (group2 !! i)) as Hi'.
        { apply Hdom. by rewrite lookup_insert_eq. }
        assert (forall l, entry iter group1 group2 i = Some l ->
          (forall t, <[i := l]> joint !! t =
             if <[i := x]> m !! t is Some _ then entry iter group1 group2 t else None) /\
          (forall t, is_Some (<[i := x]> m !! t) -> is_Some (entry iter group1 group2 t)))
          as Hok.
        { intros l Hl. split; intros t; destruct (decide (t = i)) as [->|Hne].
          - by rewrite !lookup_insert_eq.
          - rewrite !lookup_insert_ne by done. apply Hjoint.
          - intros _. by rewrite Hl.
          - rewrite lookup_insert_ne by done. apply Hsome. }
        unfold entry in Hok |- *.
        destruct (group1 !! i) as [s1|] eqn:H1, (group2 !! i) as [s2|] eqn:H2.
        * destruct (merge_rel_type iter s1 s2) as [l|] eqn:Hm; simpl.
          -- by apply Hok.
          -- exists i. rewrite lookup_insert_eq, H1, H2. split; [by eauto | done].
        * by apply Hok.
        * by apply Hok.
        * by destruct Hi' as [[]|[]].
      + destruct IH as (t & Ht & He). exists t. split; [|done].
        destruct (decide (t = i)) as [->|Hne].
        * by rewrite lookup_insert_eq.
        * by rewrite lookup_insert_ne. }
  unfold P in HP. clear P.
  match type of HP with ?Q -> _ => assert Q as Hdom by (intros t; apply Hkeys) end.
  specialize (HP Hdom).
  match goal with |- match ?r with _ => _ end => destruct r as [joint|] end.
  - destruct HP as [Hjoint Hsome]. split.
    + intros t. rewrite Hjoint. destruct (keys !! t) eqn:Hk; [done|].
      unfold entry. destruct (group1 !! t) eqn:H1, (group2 !! t) eqn:H2; try done;
        exfalso; (assert (is_Some (keys !! t)) as [? Hs];
                  [apply Hkeys; rewrite ?H1, ?H2; by eauto | congruence]).
    + intros t Ht. apply Hsome. by apply Hkeys.
  - destruct HP as (t & Ht & He). exists t. split; [by apply Hkeys | done].
Qed.

Lemma entry_comm iter (group1 group2 : gmap string (list homolog_group)) t :
  (forall series1 series2,
     group1 !! t = Some series1 -> group2 !! t = Some series2 ->
     same_order iter series1 series2) ->
  match entry iter group1 group2 t, entry iter group2 group1 t with
  | Some l1, Some l2 => l1 ≡ₚ l2
  | None, None => True
  | _, _ => False
  end.
Proof.
  intros Hsame.
  unfold entry. destruct (group1 !! t) as [s1|], (group2 !! t) as [s2|]; try done.
  apply merge_rel_type_comm. by apply Hsame.
Qed.

(** X2. [merge_grouped] treats its two inputs alike but for the order in
    which it goes through the ids they share: when, for every
    relationship type that both inputs have, that order is the same
    whichever input comes first, the call fails for both orders of the
    inputs or for neither, and the two results have the same
    relationship types and, for each, the same groups up to their
    order. *)
Theorem merge_grouped_commutative iter group1 group2 :
  (forall t series1 series2,
     group1 !! t = Some series1 -> group2 !! t = Some series2 ->
     same_order iter series1 series2) ->
  same_groups (merge_grouped iter group1 group2) (merge_grouped iter group2 group1).
Proof.
  intros Hsame.
  pose proof (merge_grouped_entries iter group1 group2) as H12.
  pose proof (merge_grouped_entries iter group2 group1) as H21.
  unfold same_groups.
  destruct (merge_grouped iter group1 group2) as [j1|],
           (merge_grouped iter group2 group1) as [j2|].
  - destruct H12 as [H12 _], H21 as [H21 _]. intros t. rewrite H12, H21.
    apply entry_comm. apply Hsame.
  - destruct H12 as [_ Hsome], H21 as (t & Ht & He).
    destruct (Hsome t) as [l Hl]; [tauto|].
    pose proof (entry_comm iter group1 group2 t (Hsame t)) as Hc. by rewrite Hl, He in Hc.
  - destruct H21 as [_ Hsome], H12 as (t & Ht & He).
    destruct (Hsome t) as [l Hl]; [tauto|].
    pose proof (entry_comm iter group1 group2 t (Hsame t)) as Hc. by rewrite Hl, He in Hc.
  - done.
Qed.

Lemma merge_grouped_commutative_witness :
  same_groups (merge_grouped by_elements (part ["a"; "b"]) (part ["b"; "c"; "d"]))
              (merge_grouped by_elements (part ["b"; "c"; "d"]) (part ["a"; "b"])).
Proof. apply merge_grouped_commutative. intros t s1 s2 _ _. reflexivity. Defined.

Lemma two_ways_exhaustive : exhaustive two_ways.
Proof.
  intros s1 s2 X. unfold two_ways. case_decide as HX; [|done]. subst X.
  assert (Hp : elements ({[ "g2"; "g10" ]} : gset string) ≡ₚ ["g2"; "g10"]).
  { rewrite elements_union_singleton by set_solver. by rewrite elements_singleton. }
  rewrite Hp. case_decide; [done|]. apply Permutation_swap.
Qed.

Lemma merge_left_right :
  merge_rel_type two_ways [ortho ["a"; "g2"]; ortho ["d"; "g10"]]
                          [ortho ["g2"; "g10"]; ortho ["r"; "s"]] =
    Some [ortho ["d"; "g10"]; ortho ["r"; "s"]; ortho ["a"; "g2"; "g10"]].
Proof.
  unfold merge_rel_type.
  replace (dom (_gene_id_to_group [ortho ["a"; "g2"]; ortho ["d"; "g10"]]) ∩
           dom (_gene_id_to_group [ortho ["g2"; "g10"]; ortho ["r"; "s"]]))
    with ({[ "g2"; "g10" ]} : gset string) by (by vm_compute).
  unfold two_ways. rewrite !decide_True by done. by vm_compute.
Qed.

Lemma merge_right_left :
  merge_rel_type two_ways [ortho ["g2"; "g10"]; ortho ["r"; "s"]]
                          [ortho ["a"; "g2"]; ortho ["d"; "g10"]] =
    Some [ortho ["r"; "s"]; ortho ["a"; "g2"]; ortho ["d"; "g10"; "g2"]].
Proof.
  unfold merge_rel_type.
  replace (dom (_gene_id_to_group [ortho ["g2"; "g10"]; ortho ["r"; "s"]]) ∩
           dom (_gene_id_to_group [ortho ["a"; "g2"]; ortho ["d"; "g10"]]))
    with ({[ "g2"; "g10" ]} : gset string) by (by vm_compute).
  unfold two_ways. rewrite decide_True by done. rewrite decide_False by (by vm_compute).
  by vm_compute.
Qed.

(** Without that the inputs do not commute: going through the shared
    ids g2 and g10 in one order for the one call and in the other order
    for the other leaves different groups. *)
Lemma merge_grouped_order_matters :
  exhaustive two_ways /\
  ~ same_groups (merge_grouped two_ways bridged_left bridged_right)
                (merge_grouped two_ways bridged_right bridged_left).
Proof.
  split; [apply two_ways_exhaustive|].
  unfold bridged_left, bridged_right.
  rewrite !merge_grouped_singleton, merge_left_right, merge_right_left. simpl.
  intros H. specialize (H "ortho"). rewrite !lookup_singleton_eq in H.
  assert (Hin : ortho ["a"; "g2"] ∈
                [ortho ["d"; "g10"]; ortho ["r"; "s"]; ortho ["a"; "g2"; "g10"]]).
  { rewrite H. right. left. }
  revert Hin. apply (bool_decide_unpack _). vm_compute. exact I.
Qed.

(** ** The homology store *)

(** *** The view and the lookup *)

Lemma related_groups_blocks db : related_groups db = homology_tbl db ≫= block db.
Proof. reflexivity. Qed.

Lemma elem_of_block db h row :
  row ∈ block db h <->
  exists r m, r ∈ relationship_tbl db /\ m ∈ member_tbl db /\ h.2 = r.2 /\ m.2 = h.1 /\
    row = {| v_homology_type := r.1; v_relationship_id := r.2;
             v_homology_id := h.1; v_gene_id := m.1 |}.
Proof.
  unfold block. rewrite list_elem_of_bind. split.
  - intros (r & Hrow & Hr). case_decide; [|by apply elem_of_nil in Hrow].
    apply list_elem_of_bind in Hrow as (m & Hrow & Hm).
    case_decide; [|by apply elem_of_nil in Hrow].
    apply list_elem_of_singleton in Hrow. by exists r, m.
  - intros (r & m & Hr & Hm & Hrel & Hhid & ->). exists r. split; [|done].
    rewrite decide_True by done. apply list_elem_of_bind. exists m. split; [|done].
    rewrite decide_True by done. left.
Qed.

Lemma filter_nil_Forall {A} (P : A -> Prop) `{!forall x, Decision (P x)} (l : list A) :
  filter P l = [] <-> Forall (fun x => ~ P x) l.
Proof.
  induction l as [|x l IH]; [by split; [constructor|]|].
  rewrite filter_cons, Forall_cons. destruct (decide (P x)); [|tauto].
  split; [done | tauto].
Qed.

Lemma filter_bind {A B} (P : B -> Prop) `{!forall x, Decision (P x)} (f : A -> list B) l :
  filter P (l ≫= f) = l ≫= fun x => filter P (f x).
Proof.
  induction l as [|x l IH]; [done|].
  by rewrite !bind_cons, filter_app, IH.
Qed.




Lemma related_groups_member db row :
  row ∈ related_groups db -> (v_gene_id row, v_homology_id row) ∈ member_tbl db.
Proof.
  unfold related_groups. intros Hrow.
  apply list_elem_of_bind in Hrow as (h & Hrow & Hh).
  apply list_elem_of_bind in Hrow as (r & Hrow & Hr).
  case_decide; [|by apply elem_of_nil in Hrow].
  apply list_elem_of_bind in Hrow as ([g i] & Hrow & Hm).
  case_decide; [|by apply elem_of_nil in Hrow].
  apply list_elem_of_singleton in Hrow as ->. simpl in *. by subst.
Qed.

(** C4, as stated, fails: the gene asked about is among the genes
    returned. *)
Lemma get_related_to_includes_self :
  exists db, add_records new_store [ortho ["g1"; "g2"; "g3"]] "ortho" = Some db /\
    "g1" ∈ get_related_to db "g1" "ortho".
Proof.
  eexists. split; [by vm_compute|]. vm_compute. right. left.
Qed.

(** C4, amended. After the group {g1, g2, g3} of type "ortho" is added
    to a new store, [get_related_to] for g1 returns the three members of
    the group, g1 among them; for a gene id that no member row has it
    returns the empty list. *)
Theorem get_related_to_group :
  (exists db, add_records new_store [ortho ["g1"; "g2"; "g3"]] "ortho" = Some db /\
     (get_related_to db "g1" "ortho" ≡ₚ ["g1"; "g2"; "g3"])) /\
  (forall db gene_id relationship_type,
     gene_id ∉ (member_tbl db).*1 -> get_related_to db gene_id relationship_type = []).
Proof.
  split.
  - eexists. split; [by vm_compute|]. vm_compute.
    by rewrite (Permutation_swap "g1" "g3"), (Permutation_swap "g2" "g3").
  - intros db gene_id rel Habs. unfold get_related_to.
    destruct (filter _ (related_groups db)) as [|r rest] eqn:Hf; [done|].
    exfalso. apply Habs.
    assert (r ∈ filter (fun r => v_homology_type r = rel /\ v_gene_id r = gene_id)
                  (related_groups db)) as Hr by (rewrite Hf; left).
    apply list_elem_of_filter in Hr as [[_ <-] Hr].
    apply related_groups_member in Hr. apply list_elem_of_fmap.
    by exists (v_gene_id r, v_homology_id r).
Qed.

Lemma get_related_to_group_witness : get_related_to new_store "g9" "ortho" = [].
Proof.
  destruct get_related_to_group as [_ H]. apply H. apply not_elem_of_nil.
Defined.

(** *** Inserting member rows *)

Lemma insert_member_tables db row :
  relationship_tbl (insert_member db row) = relationship_tbl db /\
  homology_tbl (insert_member db row) = homology_tbl db /\
  _relationship_types (insert_member db row) = _relationship_types db /\
  forall m, m ∈ member_tbl (insert_member db row) <-> m ∈ member_tbl db \/ m = row.
Proof.
  unfold insert_member. case_decide as Hin; simpl.
  - split_and!; try done. intros m. split; [by left|]. by intros [?| ->].
  - split_and!; try done. intros m. rewrite elem_of_app, list_elem_of_singleton. done.
Qed.

Lemma insert_members_tables rows db :
  relationship_tbl (fold_left insert_member rows db) = relationship_tbl db /\
  homology_tbl (fold_left insert_member rows db) = homology_tbl db /\
  _relationship_types (fold_left insert_member rows db) = _relationship_types db /\
  forall m, m ∈ member_tbl (fold_left insert_member rows db) <-> m ∈ member_tbl db \/ m ∈ rows.
Proof.
  revert db. induction rows as [|row rows IH]; intros db; simpl.
  - split_and!; try done. intros m. rewrite elem_of_nil. tauto.
  - destruct (IH (insert_member db row)) as (-> & -> & -> & Hm).
    destruct (insert_member_tables db row) as (-> & -> & -> & Hm').
    split_and!; try done. intros m. rewrite Hm, Hm', elem_of_cons. tauto.
Qed.



(** *** The order of the lookup *)








Lemma first_row_cons r rows :
  first_row (r :: rows) =
  match first_row rows with
  | Some r' => if comes_first r' r then Some r' else Some r
  | None => Some r
  end.
Proof. reflexivity. Qed.


Lemma first_row_elem rows r : first_row rows = Some r -> r ∈ rows.
Proof.
  revert r. induction rows as [|x rows IH]; intros r; [done|].
  rewrite first_row_cons. destruct (first_row rows) as [r'|].
  - destruct (comes_first r' x); intros [= <-]; [right; by apply IH | left].
  - intros [= <-]. left.
Qed.





(** *** One group *)








(** *** A sequence of groups *)






(** *** [add_records] twice *)







(** * Further properties *)

(** ** Type prefixes *)

Lemma lower_char_idemp c : lower_char (lower_char c) = lower_char c.
Proof.
  destruct c as [[] [] [] [] [] [] [] []]; reflexivity.
Qed.

Lemma lower_idemp s : lower (lower s) = lower s.
Proof. induction s as [|c s IH]; simpl; [done|]. by rewrite lower_char_idemp, IH. Qed.

Lemma append_cons c s t : String c s +:+ t = String c (s +:+ t).
Proof. reflexivity. Qed.

Lemma append_nil_l t : "" +:+ t = t.
Proof. reflexivity. Qed.

Lemma lower_app s t : lower (s +:+ t) = lower s +:+ lower t.
Proof.
  induction s as [|c s IH]; [done|].
  rewrite append_cons. simpl. by rewrite IH, append_cons.
Qed.

Lemma span_alpha_app s run rest : span_alpha s = (run, rest) -> s = run +:+ rest.
Proof.
  revert run rest. induction s as [|c s IH]; intros run rest; simpl.
  - by intros [= <- <-].
  - destruct (is_alpha c).
    + destruct (span_alpha s) as [run' rest'] eqn:E. intros [= <- <-].
      rewrite append_cons. f_equal. by apply IH.
    + by intros [= <- <-].
Qed.

Lemma startswith_cons a p b s :
  startswith (String a p) (String b s) = if Ascii.eqb a b then startswith p s else false.
Proof. reflexivity. Qed.

Lemma startswith_colon rest : startswith ":" rest = true -> exists rest', rest = String ":" rest'.
Proof.
  destruct rest as [|c rest]; [done|]. rewrite startswith_cons.
  destruct (Ascii.eqb_spec ":" c) as [<-|]; [|done]. by exists rest.
Qed.

Lemma drop_chars_app s t : drop_chars (String.length s) (s +:+ t) = t.
Proof. induction s as [|c s IH]; [by destruct t|]. by rewrite append_cons. Qed.

Lemma drop_chars_nil n : drop_chars n "" = "".
Proof. by destruct n. Qed.

Lemma typed_id_sub_from_lower s : forall prev skip,
  lower (typed_id_sub_from lower prev skip s) = lower (drop_chars skip s).
Proof.
  induction s as [|c s IH]; intros prev skip.
  - simpl. by rewrite drop_chars_nil.
  - destruct skip as [|k]; [|simpl; apply IH].
    cbn [typed_id_sub_from drop_chars].
    destruct (negb prev && is_alpha c) eqn:Hm; [|simpl; by rewrite IH].
    destruct (span_alpha (String c s)) as [run rest] eqn:Hspan.
    destruct (startswith ":" rest) eqn:Hcolon; [|simpl; by rewrite IH].
    apply startswith_colon in Hcolon as [rest' Hrest]. subst rest.
    pose proof (span_alpha_app _ _ _ Hspan) as Happ.
    simpl in Hspan. apply andb_true_iff in Hm as [_ Ha]. rewrite Ha in Hspan.
    destruct (span_alpha s) as [run' rest''] eqn:Hs'. injection Hspan as <- ->.
    rewrite append_cons in Happ. injection Happ as ->.
    rewrite lower_app, lower_idemp, IH.
    cbn [String.length].
    replace (run' +:+ String ":" rest') with ((run' +:+ ":") +:+ rest').
    2:{ clear. induction run' as [|c r IH]; [done|]. by rewrite !append_cons, IH. }
    replace (S (String.length run')) with (String.length (run' +:+ ":")).
    2:{ clear. induction run' as [|c r IH]; [done|]. rewrite append_cons. simpl. by rewrite IH. }
    rewrite drop_chars_app, <- lower_app.
    f_equal.
Qed.

Lemma lower_length s : String.length (lower s) = String.length s.
Proof. induction s as [|c s IH]; simpl; [done|]. by rewrite IH. Qed.

Lemma lower_char_low c :
  (nat_of_ascii (lower_char c) <? 128)%nat = (nat_of_ascii c <? 128)%nat.
Proof. destruct c as [[] [] [] [] [] [] [] []]; reflexivity. Qed.

Lemma isascii_lower s : isascii (lower s) = isascii s.
Proof.
  unfold isascii. induction s as [|c s IH]; [done|].
  cbn [lower all_chars]. by rewrite lower_char_low, IH.
Qed.

Lemma all_chars_app p s t : all_chars p (s +:+ t) = all_chars p s && all_chars p t.
Proof.
  induction s as [|c s IH]; [done|].
  change (String c s +:+ t) with (String c (s +:+ t)). cbn [all_chars].
  by rewrite IH, andb_assoc.
Qed.

(** X3. On an ASCII text [tidy_gff3_stableids] changes nothing but the
    case of letters: the text it returns equals its argument once both
    are lower-cased, has the same length and is an ASCII text. *)
Theorem tidy_only_changes_case a :
  isascii a = true ->
  lower (tidy_gff3_stableids a) = lower a /\
  String.length (tidy_gff3_stableids a) = String.length a /\
  isascii (tidy_gff3_stableids a) = true.
Proof.
  intros Ha.
  assert (H : lower (tidy_gff3_stableids a) = lower a).
  { unfold tidy_gff3_stableids, typed_id_sub. by rewrite typed_id_sub_from_lower. }
  split; [done|]. split.
  - by rewrite <- (lower_length (tidy_gff3_stableids a)), H, lower_length.
  - by rewrite <- isascii_lower, H, isascii_lower.
Qed.

Lemma tidy_only_changes_case_witness :
  tidy_gff3_stableids "ID=Gene:G1;Parent=Transcript:T1" = "ID=gene:G1;Parent=transcript:T1" /\
  lower (tidy_gff3_stableids "ID=Gene:G1;Parent=Transcript:T1") =
    lower "ID=Gene:G1;Parent=Transcript:T1" /\
  String.length (tidy_gff3_stableids "ID=Gene:G1;Parent=Transcript:T1") =
    String.length "ID=Gene:G1;Parent=Transcript:T1" /\
  isascii (tidy_gff3_stableids "ID=Gene:G1;Parent=Transcript:T1") = true.
Proof. split; [reflexivity|]. apply tidy_only_changes_case. reflexivity. Defined.

(** ** The lines of a file *)

(** *** The counter of made-up names *)

Lemma named_record_counter l n :
  (named_record l n).2 = if decide (line_id l = None) then n + 1 else n.
Proof.
  unfold named_record, line_id.
  destruct (name (update_from_attrs (make_record l))) as [[|c s]|]; simpl; done.
Qed.

Lemma parser_counter_from lines : forall t n,
  (fold_left parser_step lines (t, n)).2 =
  n + Z.of_nat (length (filter (fun l => line_id l = None) lines)).
Proof.
  induction lines as [|l lines IH]; intros t n; simpl; [lia|].
  destruct (parser_step (t, n) l) as [t' n'] eqn:E.
  assert (n' = (named_record l n).2) as -> by (by rewrite <- parser_step_snd with (t := t), E).
  rewrite IH, named_record_counter, filter_cons.
  destruct (decide (line_id l = None)); simpl; lia.
Qed.

(** X4. The counter that [custom_gff_parser] returns is the one it was
    given plus the number of lines that carry no identifier of their
    own. *)
Theorem parser_counter lines n :
  (custom_gff_parser lines n).2 =
  n + Z.of_nat (length (filter (fun l => line_id l = None) lines)).
Proof. apply parser_counter_from. Qed.

(** *** Every line leaves a span *)

Lemma sum_dict_alter {K} `{EqDecision K} {V} (f : V -> nat) (g : V -> V) (k : K) d v :
  dict_get k d = Some v ->
  (sum_list_with (fun kv => f kv.2) (dict_alter g k d) + f v =
   sum_list_with (fun kv => f kv.2) d + f (g v))%nat.
Proof.
  induction d as [|[k' v'] d IH]; [done|]. cbn [dict_get dict_alter].
  destruct (decide (k = k')) as [->|].
  - intros [= ->]. simpl. lia.
  - intros H. specialize (IH H). simpl. lia.
Qed.

Lemma absorb_spans r e : spans (absorb r e) = spans e ++ [(start r, stop r)].
Proof. reflexivity. Qed.

Lemma absorb_name r e : name (absorb r e) = name e.
Proof. reflexivity. Qed.

Lemma parser_step_spans reduced n l :
  Forall (fun kr => name kr.2 = Some kr.1 /\ spans kr.2 <> []) reduced ->
  Forall (fun kr => name kr.2 = Some kr.1 /\ spans kr.2 <> []) (parser_step (reduced, n) l).1 /\
  sum_list_with (fun kr => length (spans kr.2)) (parser_step (reduced, n) l).1 =
  S (sum_list_with (fun kr => length (spans kr.2)) reduced).
Proof.
  intros Hall. unfold parser_step.
  destruct (named_record l n) as [[r k] n'] eqn:Hnr.
  apply named_record_coords in Hnr as (_ & _ & Hsp & Hname).
  destruct (dict_get k reduced) as [e|] eqn:Hget; cbn [fst].
  - split.
    + apply dict_alter_Forall; [|done]. intros v [Hn Hs]. simpl.
      split; [done|]. by destruct (spans v).
    + pose proof (sum_dict_alter (fun v => length (spans v)) (absorb r) k reduced e Hget) as H.
      cbv beta in H. rewrite absorb_spans, length_app in H. simpl in H. lia.
  - rewrite dict_alter_app_new by done. split.
    + apply Forall_app. split; [done|]. apply Forall_singleton. simpl.
      split; [done|]. by destruct (spans r).
    + rewrite sum_list_with_app. simpl. rewrite Hsp. simpl. lia.
Qed.

(** X5. [custom_gff_parser] loses no line: the spans of the records it
    returns are as many as the lines read, every record has a span and
    is filed under its own name. *)
Theorem parser_keeps_every_line lines n :
  sum_list_with (fun kr => length (spans kr.2)) (custom_gff_parser lines n).1 = length lines /\
  Forall (fun kr => name kr.2 = Some kr.1 /\ spans kr.2 <> []) (custom_gff_parser lines n).1.
Proof.
  induction lines as [|l lines IH] using rev_ind; [by split; [|constructor]|].
  rewrite parser_app. destruct IH as [Hsum Hall].
  destruct (custom_gff_parser lines n) as [reduced m].
  destruct (parser_step_spans reduced m l Hall) as [Hall' Hsum'].
  split; [|done]. rewrite Hsum', length_app. simpl in *. lia.
Qed.

(** *** The size of a record *)

Lemma foldl_spans_fmap (l : list EnsemblGffRecord) : forall acc,
  foldl (fun acc '(s, e) => acc + Z.abs (s - e)) acc ((fun x => (start x, stop x)) <$> l) =
  foldl (fun acc x => acc + Z.abs (start x - stop x)) acc l.
Proof. induction l as [|x l IH]; intros acc; simpl; [done|]. by rewrite IH. Qed.

Lemma foldl_abs_nonneg (l : list EnsemblGffRecord) : forall acc,
  0 <= acc -> 0 <= foldl (fun acc x => acc + Z.abs (start x - stop x)) acc l.
Proof. induction l as [|x l IH]; intros acc Hacc; simpl; [done|]. apply IH. lia. Qed.

(** X6. The [size] of a record that [custom_gff_parser] returns is the
    sum of the distances between start and stop of the lines filed under
    its name, and is never negative. *)
Theorem size_sums_lines lines n k r :
  dict_get k (custom_gff_parser lines n).1 = Some r ->
  size r = foldl (fun acc x => acc + Z.abs (start x - stop x)) 0 (records_named k lines n) /\
  0 <= size r.
Proof.
  intros Hget. pose proof (parser_filed lines n k) as H. rewrite Hget in H.
  destruct H as (first & rest & Hnamed & ->).
  assert (Hs : size (merged first rest) =
    foldl (fun acc x => acc + Z.abs (start x - stop x)) 0 (records_named k lines n)).
  { unfold size, merged. cbn [spans set_stop set_start set_spans].
    by rewrite foldl_spans_fmap, Hnamed. }
  split; [done|]. rewrite Hs. by apply foldl_abs_nonneg.
Qed.

Lemma size_sums_lines_witness :
  exists r,
    dict_get "exon1" (custom_gff_parser [exon_line "ID=exon1" 10 20; exon_line "ID=exon1" 30 40] 0).1
      = Some r /\ size r = 20.
Proof.
  eexists. split; [reflexivity|].
  by destruct (size_sums_lines [exon_line "ID=exon1" 10 20; exon_line "ID=exon1" 30 40] 0 "exon1" _ eq_refl)
    as [-> _].
Defined.

(** *** Storing a parsed record *)

Lemma record_eta r :
  set_stop (stop r) (set_start (start r) r) = r.
Proof. by destruct r. Qed.

(** X7. For lines with start <= stop whose coordinates sqlite can hold,
    [add_feature] accepts every record that [custom_gff_parser] returns
    and stores its start, stop and spans as they are, a coordinate 0
    included; the record changes in its [feature_id] only. *)
Theorem add_feature_keeps_parsed_coordinates lines n k r db :
  Forall (fun l => l_start l <= l_stop l) lines ->
  Forall line_fits lines ->
  (k, r) ∈ (custom_gff_parser lines n).1 ->
  exists db' row,
    add_feature db r = Some (db', set_feature_id (Some (f_id row)) r) /\
    feature_tbl db' = feature_tbl db ++ [row] /\
    f_start row = start r /\ f_stop row = stop r /\ f_spans row = spans r.
Proof.
  intros Hlines Hfit Hin.
  pose proof (parser_bounded lines n Hlines) as Hb.
  rewrite Forall_forall in Hb. specialize (Hb _ Hin). simpl in Hb.
  apply bounded_extremes in Hb as [Hmin Hmax].
  pose proof (parser_storable lines n Hfit) as Hst.
  rewrite Forall_forall in Hst. destruct (Hst _ Hin) as (Hs & Ht & _). simpl in Hs, Ht.
  unfold add_feature. rewrite Hmin, Hmax.
  assert (H1 : (if decide (start r = 0) then Some (start r) else Some (start r)) = Some (start r))
    by (by destruct (decide (start r = 0))).
  assert (H2 : (if decide (stop r = 0) then Some (stop r) else Some (stop r)) = Some (stop r))
    by (by destruct (decide (stop r = 0))).
  rewrite H1, H2. simpl. rewrite record_eta.
  destruct (_get_biotype_id db (biotype r)) as [db1 bid] eqn:Hbio.
  rewrite decide_True by done.
  match goal with |- context [ _ ++ [?row] ] => eexists _, row end.
  split; [reflexivity|]. simpl.
  pose proof (get_biotype_id_features db (biotype r)) as Hf. rewrite Hbio in Hf. simpl in Hf.
  by rewrite Hf.
Qed.

Lemma add_feature_keeps_parsed_coordinates_witness :
  exists db' row,
    add_feature empty_db (default gene_x
      (dict_get "exon1" (custom_gff_parser [exon_line "ID=exon1" 0 20; exon_line "ID=exon1" 30 40] 0).1))
    = Some (db', set_feature_id (Some (f_id row)) (default gene_x
      (dict_get "exon1" (custom_gff_parser [exon_line "ID=exon1" 0 20; exon_line "ID=exon1" 30 40] 0).1))) /\
    feature_tbl db' = feature_tbl empty_db ++ [row] /\
    f_start row = 0 /\ f_stop row = 40 /\ f_spans row = [(0, 20); (30, 40)].
Proof.
  apply (add_feature_keeps_parsed_coordinates
           [exon_line "ID=exon1" 0 20; exon_line "ID=exon1" 30 40] 0 "exon1").
  - repeat constructor; simpl; lia.
  - apply (bool_decide_unpack _). vm_compute. exact I.
  - vm_compute. apply list_elem_of_here.
Defined.


(** *** Made-up names *)

Lemma to_int_proper n : Z.to_int n <> Decimal.Pos Decimal.Nil /\ Z.to_int n <> Decimal.Neg Decimal.Nil.
Proof.
  destruct n as [|p|p]; simpl; split; try done.
  - intros [= H]. by apply DecimalPos.Unsigned.to_uint_nonnil in H.
  - intros [= H]. by apply DecimalPos.Unsigned.to_uint_nonnil in H.
Qed.

Lemma of_int_inj a b : of_int a = of_int b -> a = b.
Proof.
  unfold of_int. intros H.
  apply DecimalZ.to_int_inj.
  destruct (to_int_proper a) as [Ha1 Ha2], (to_int_proper b) as [Hb1 Hb2].
  pose proof (NilZero.isi _ Ha1 Ha2) as Ia. pose proof (NilZero.isi _ Hb1 Hb2) as Ib.
  rewrite H in Ia. congruence.
Qed.

Lemma named_record_anon l n :
  line_id l = None -> (named_record l n).1.2 = "unknown-" +:+ of_int n.
Proof.
  unfold named_record, line_id.
  by destruct (name (update_from_attrs (make_record l))) as [[|c s]|].
Qed.

Lemma named_records_lookup lines : forall n i l,
  lines !! i = Some l ->
  (named_records lines n).*1 !! i =
  Some (named_record l (n + Z.of_nat (length (filter (fun l => line_id l = None) (take i lines))))).1.2.
Proof.
  induction lines as [|l0 lines IH]; intros n i l; [done|].
  cbn [named_records].
  destruct (named_record l0 n) as [[r k] n'] eqn:Hnr.
  destruct i as [|i].
  - intros [= ->]. simpl. by rewrite Z.add_0_r, Hnr.
  - intros Hl. cbn [take]. rewrite fmap_cons. cbn [lookup list_lookup].
    change ((named_records lines n').*1 !! i = Some (named_record l (n +
      Z.of_nat (length (filter (fun l => line_id l = None) (l0 :: take i lines))))).1.2).
    rewrite (IH n' i l Hl). do 3 f_equal.
    assert (n' = (named_record l0 n).2) as -> by (by rewrite Hnr).
    rewrite named_record_counter, filter_cons.
    destruct (decide (line_id l0 = None)); simpl; f_equal; lia.
Qed.

Lemma anonymous_before i j (lines : list GffLine) li :
  (i < j)%nat -> lines !! i = Some li -> line_id li = None ->
  (length (filter (fun l => line_id l = None) (take i lines)) <
   length (filter (fun l => line_id l = None) (take j lines)))%nat.
Proof.
  intros Hij Hi Hli.
  rewrite <- (take_drop i (take j lines)), take_take, Nat.min_l by lia.
  rewrite filter_app, length_app.
  assert (Hd : drop i (take j lines) = li :: drop (S i) (take j lines)).
  { apply drop_S. rewrite lookup_take_lt by lia. done. }
  rewrite Hd, filter_cons, decide_True by done. simpl. lia.
Qed.

(** X8. Two lines without an identifier of their own never get the same
    made-up name. *)
Theorem parser_fake_names_distinct lines n i j li lj ki kj :
  i <> j ->
  lines !! i = Some li -> lines !! j = Some lj ->
  line_id li = None -> line_id lj = None ->
  (named_records lines n).*1 !! i = Some ki ->
  (named_records lines n).*1 !! j = Some kj ->
  ki <> kj.
Proof.
  intros Hij Hi Hj Hli Hlj Hki Hkj.
  rewrite (named_records_lookup _ _ _ _ Hi), named_record_anon in Hki by done.
  rewrite (named_records_lookup _ _ _ _ Hj), named_record_anon in Hkj by done.
  injection Hki as <-. injection Hkj as <-.
  intros Heq. apply (f_equal (drop_chars 8)) in Heq. cbn [drop_chars String.append] in Heq.
  apply of_int_inj in Heq.
  destruct (decide (i < j)%nat).
  - pose proof (anonymous_before i j lines li ltac:(lia) Hi Hli). lia.
  - pose proof (anonymous_before j i lines lj ltac:(lia) Hj Hlj). lia.
Qed.

Lemma parser_fake_names_distinct_witness :
  "unknown-7" <> "unknown-8".
Proof.
  apply (parser_fake_names_distinct
           [exon_line "rank=1" 1 5; exon_line "ID=e1" 1 5; exon_line "rank=2" 6 9] 7 0 2
           (exon_line "rank=1" 1 5) (exon_line "rank=2" 6 9)); [lia|reflexivity..].
Defined.

(** ** Biotype ids *)

Lemma get_biotype_id_cached db b :
  biotype_cache (_get_biotype_id db b).1 !! b = Some (_get_biotype_id db b).2.
Proof.
  unfold _get_biotype_id. destruct (biotype_cache db !! b) eqn:E; simpl; [done|].
  by rewrite lookup_insert_eq.
Qed.

Lemma get_biotype_id_again db b :
  _get_biotype_id (_get_biotype_id db b).1 b = _get_biotype_id db b.
Proof.
  pose proof (get_biotype_id_cached db b) as H.
  destruct (_get_biotype_id db b) as [db1 i]. simpl in *.
  unfold _get_biotype_id. by rewrite H.
Qed.

Lemma get_biotype_id_interned db b :
  interned db ->
  interned (_get_biotype_id db b).1 /\
  (b, (_get_biotype_id db b).2) ∈ biotype_tbl (_get_biotype_id db b).1 /\
  (forall i, i ∈ (biotype_tbl db).*2 -> i ∈ (biotype_tbl (_get_biotype_id db b).1).*2).
Proof.
  intros (Hnd & Hcache & Hrows). unfold _get_biotype_id.
  destruct (biotype_cache db !! b) as [i|] eqn:E; simpl.
  - split; [done|]. split; [by apply Hcache|done].
  - split; [|split].
    + split; [|split]; simpl.
      * rewrite fmap_app. apply NoDup_app. split; [done|]. split.
        -- intros x Hx Hx'. apply list_elem_of_singleton in Hx'. subst x.
           by apply fresh_id_fresh in Hx.
        -- apply NoDup_singleton.
      * intros b' i'. destruct (decide (b' = b)) as [->|Hne].
        -- rewrite lookup_insert_eq. intros [= <-]. apply elem_of_app. right.
           apply list_elem_of_singleton. done.
        -- rewrite lookup_insert_ne by done. intros H. apply elem_of_app. left. by apply Hcache.
      * intros row Hrow. rewrite fmap_app. apply elem_of_app. left. by apply Hrows.
    + apply elem_of_app. right. by apply list_elem_of_singleton.
    + intros i Hi. rewrite fmap_app. apply elem_of_app. by left.
Qed.

Lemma add_feature_unfold db feature db' feature' :
  add_feature db feature = Some (db', feature') ->
  exists row,
    biotype_tbl db' = biotype_tbl (_get_biotype_id db (biotype feature)).1 /\
    biotype_cache db' = biotype_cache (_get_biotype_id db (biotype feature)).1 /\
    feature_tbl db' = feature_tbl db ++ [row] /\
    f_biotype_id row = (_get_biotype_id db (biotype feature)).2 /\
    f_stableid row = stableid feature /\
    f_id row = fresh_id (f_id <$> feature_tbl db) /\
    feature_id feature' = Some (f_id row).
Proof.
  unfold add_feature. intros H.
  destruct (if decide (start feature = 0) then _ else _) as [start1|]; [|done].
  destruct (if decide (stop feature = 0) then _ else _) as [stop1|]; [|done].
  simpl in H.
  pose proof (get_biotype_id_features db (biotype feature)) as Hf.
  destruct (_get_biotype_id db (biotype feature)) as [db1 bid]. simpl in *.
  case_decide; [|done].
  injection H as <- <-. eexists. simpl. rewrite Hf. repeat split.
Qed.

Lemma add_feature_interned db feature db' feature' :
  interned db -> add_feature db feature = Some (db', feature') -> interned db'.
Proof.
  intros Hint H. apply add_feature_unfold in H as (row & Hb & Hc & Hf & Hbid & _).
  destruct (get_biotype_id_interned db (biotype feature) Hint) as ((Hnd & Hcache & _) & Hin & Hmono).
  split; [|split].
  - by rewrite Hb.
  - intros b i. rewrite Hb, Hc. apply Hcache.
  - intros r. rewrite Hf, Hb. intros [Hr|Hr]%elem_of_app.
    + apply Hmono. destruct Hint as (_ & _ & Hrows). by apply Hrows.
    + apply list_elem_of_singleton in Hr as ->. rewrite Hbid.
      apply list_elem_of_fmap. eexists. split; [|apply Hin]. done.
Qed.

Lemma built_interned db : built db -> interned db.
Proof.
  induction 1 as [|db feature db' feature' _ IH H].
  - split; [constructor|]. split; [done|]. intros row Hrow. by apply elem_of_nil in Hrow.
  - by eapply add_feature_interned.
Qed.

Lemma nodup_snd_inj (tbl : list (string * Z)) b b' i :
  NoDup tbl.*2 -> (b, i) ∈ tbl -> (b', i) ∈ tbl -> b = b'.
Proof.
  induction tbl as [|[b0 i0] tbl IH]; [by intros _ ?%elem_of_nil|].
  rewrite fmap_cons, NoDup_cons. intros [Hni Hnd] H1 H2.
  apply elem_of_cons in H1 as [H1|H1]; apply elem_of_cons in H2 as [H2|H2]; simplify_eq.
  - done.
  - exfalso. apply Hni. apply list_elem_of_fmap. eexists. split; [|apply H2]. done.
  - exfalso. apply Hni. apply list_elem_of_fmap. eexists. split; [|apply H1]. done.
  - by apply IH.
Qed.

(** X9. In a store that [add_feature] built, asking [_get_biotype_id]
    again for a biotype returns the same id and adds no row, and another
    biotype, even one that differs in case only, gets another id. *)
Theorem biotype_ids_interned db b b' :
  built db ->
  _get_biotype_id (_get_biotype_id db b).1 b = _get_biotype_id db b /\
  (b' <> b -> (_get_biotype_id (_get_biotype_id db b).1 b').2 <> (_get_biotype_id db b).2).
Proof.
  intros Hb%built_interned. split; [apply get_biotype_id_again|].
  intros Hne.
  destruct (get_biotype_id_interned db b Hb) as (Hint1 & Hin1 & _).
  pose proof (get_biotype_id_cached db b) as Hc1.
  destruct (_get_biotype_id db b) as [db1 i]. simpl in *.
  destruct (get_biotype_id_interned db1 b' Hint1) as (Hint2 & Hin2 & Hmono).
  pose proof (get_biotype_id_cached db1 b') as Hc2.
  unfold _get_biotype_id in *.
  destruct (biotype_cache db1 !! b') as [j|] eqn:E; simpl in *.
  - intros Heq. subst. apply Hne. destruct Hint1 as (Hnd & _). 
    exact (nodup_snd_inj _ b' b i Hnd Hin2 Hin1).
  - intros Heq. apply (fresh_id_fresh (biotype_tbl db1).*2). rewrite Heq.
    apply list_elem_of_fmap. eexists. split; [|apply Hin1]. done.
Qed.

Lemma biotype_ids_interned_witness :
  _get_biotype_id (_get_biotype_id empty_db "gene").1 "gene" = _get_biotype_id empty_db "gene" /\
  (_get_biotype_id (_get_biotype_id empty_db "gene").1 "Gene").2 <>
    (_get_biotype_id empty_db "gene").2.
Proof.
  destruct (biotype_ids_interned empty_db "gene" "Gene" built_empty) as [H1 H2].
  split; [exact H1|]. apply H2. discriminate.
Defined.

(** ** The view [gff] *)


Lemma join_unique (tbl : list (string * Z)) f :
  NoDup tbl.*2 -> forall b, b ∈ tbl -> f_biotype_id f = b.2 ->
  (b0 ← tbl; if decide (f_biotype_id f = b0.2) then [gff_of f b0] else []) = [gff_of f b].
Proof.
  induction tbl as [|b1 tbl IH]; intros Hnd b Hin Hid; [by apply elem_of_nil in Hin|].
  rewrite fmap_cons, NoDup_cons in Hnd. destruct Hnd as [Hni Hnd].
  rewrite bind_cons.
  apply elem_of_cons in Hin as [->|Hin].
  - rewrite decide_True by done. simpl. f_equal.
    clear IH. induction tbl as [|b2 tbl IH]; [done|].
    rewrite bind_cons, decide_False.
    + simpl. apply IH.
      * intros H. apply Hni. rewrite fmap_cons. by right.
      * rewrite fmap_cons, NoDup_cons in Hnd. tauto.
    + intros H. apply Hni. rewrite fmap_cons, <- Hid, H. by left.
  - rewrite decide_False.
    + simpl. by apply IH.
    + intros H. apply Hni. rewrite <- H, Hid. apply list_elem_of_fmap. by exists b.
Qed.

Lemma join_miss (tbl : list (string * Z)) f :
  f_biotype_id f ∉ tbl.*2 ->
  (b0 ← tbl; if decide (f_biotype_id f = b0.2) then [gff_of f b0] else []) = [].
Proof.
  induction tbl as [|b1 tbl IH]; [done|]. rewrite fmap_cons, not_elem_of_cons. intros [H1 H2].
  rewrite bind_cons, decide_False by done. simpl. by apply IH.
Qed.

Lemma gff_unfold db :
  gff db = f ← feature_tbl db;
           (b0 ← biotype_tbl db; if decide (f_biotype_id f = b0.2) then [gff_of f b0] else []).
Proof. reflexivity. Qed.

(** X10. In a store that [add_feature] built, a feature just added is
    the one new row of the view [gff], with the biotype, the stable id
    and the feature id of the record, and [GenomeDb.num_records] counts the rows
    of the view. *)
Theorem gff_shows_added_feature db feature db' feature' :
  built db -> add_feature db feature = Some (db', feature') ->
  exists row,
    gff db' = gff db ++ [row] /\
    g_biotype row = biotype feature /\ g_name row = stableid feature /\
    Some (g_feature_id row) = feature_id feature' /\
    GenomeDb.num_records db' = Z.of_nat (length (gff db')).
Proof.
  intros Hb Hadd. pose proof (built_interned _ Hb) as Hint.
  pose proof (built_interned _ (built_add _ _ _ _ Hb Hadd)) as Hint'.
  assert (Hbio : biotype (default feature (snd <$> add_feature db feature)) = biotype feature).
  { rewrite Hadd. simpl. clear -Hadd. unfold add_feature in Hadd.
    destruct (if decide (start feature = 0) then _ else _) as [start1|]; [|done].
    destruct (if decide (stop feature = 0) then _ else _) as [stop1|]; [|done].
    simpl in Hadd. destruct (_get_biotype_id db (biotype feature)).
    case_decide; [|done]. by injection Hadd as <- <-. }
  apply add_feature_unfold in Hadd as (frow & Htb & Hc & Hf & Hbid & Hst & Hid & Hfid).
  destruct (get_biotype_id_interned db (biotype feature) Hint) as (Hint1 & Hin1 & Hmono).
  assert (Hlen : forall d, interned d -> length (gff d) = length (feature_tbl d)).
  { intros d (Hnd & _ & Hrows). rewrite gff_unfold.
    induction (feature_tbl d) as [|f fs IH]; [done|].
    rewrite bind_cons, length_app. 
    assert (Hf' : f_biotype_id f ∈ (biotype_tbl d).*2) by (apply Hrows; by left).
    apply list_elem_of_fmap in Hf' as (b0 & Hb0 & Hin0).
    rewrite (join_unique _ f Hnd b0 Hin0 Hb0). simpl. f_equal. apply IH.
    intros row Hrow. apply Hrows. by right. }
  exists (gff_of frow (biotype feature, f_biotype_id frow)). split; [|split; [|split; [|split]]].
  - rewrite !gff_unfold, Hf, bind_app. f_equal.
    + destruct Hint as (Hnd & _ & Hrows).
      assert (Hall : forall f, f ∈ feature_tbl db -> f ∈ feature_tbl db) by done.
      revert Hall. generalize (feature_tbl db) at 1 3 4. intros fs Hall.
      induction fs as [|f fs IH]; [done|].
      rewrite !bind_cons. f_equal; [|apply IH; intros f0 H0; apply Hall; by right].
      assert (Hf' : f_biotype_id f ∈ (biotype_tbl db).*2) by (apply Hrows, Hall; by left).
      apply list_elem_of_fmap in Hf' as (b0 & Hb0 & Hin0).
      rewrite (join_unique _ f Hnd b0 Hin0 Hb0).
      apply join_unique; [rewrite Htb; apply Hint1| |done].
      rewrite Htb. unfold _get_biotype_id.
      destruct (biotype_cache db !! biotype feature); simpl; [done|].
      apply elem_of_app. by left.
    + rewrite bind_cons. change (@nil feature_row ≫= _) with (@nil gff_row). rewrite app_nil_r.
      apply join_unique; [apply Hint'| |done].
      rewrite Htb, Hbid. done.
  - done.
  - done.
  - by rewrite Hfid.
  - unfold GenomeDb.num_records. by rewrite Hlen.
Qed.

Lemma gff_shows_added_feature_witness :
  exists row,
    gff (default empty_db (fst <$> add_feature empty_db gene_x)) = gff empty_db ++ [row] /\
    g_biotype row = "gene" /\ g_name row = "X" /\
    Some (g_feature_id row) = feature_id (default gene_x (snd <$> add_feature empty_db gene_x)) /\
    GenomeDb.num_records (default empty_db (fst <$> add_feature empty_db gene_x)) =
      Z.of_nat (length (gff (default empty_db (fst <$> add_feature empty_db gene_x)))).
Proof.
  apply (gff_shows_added_feature empty_db gene_x _ _ built_empty). reflexivity.
Defined.

(** ** Records without coding sequence *)

Lemma dict_get_set {K} `{EqDecision K} {V} (k k' : K) (v : V) d :
  dict_get k' (dict_set k v d) = if decide (k' = k) then Some v else dict_get k' d.
Proof.
  induction d as [|[k0 v0] d IH]; cbn [dict_set dict_get].
  - by destruct (decide (k' = k)).
  - destruct (decide (k = k0)) as [->|Hne]; cbn [dict_get].
    + by destruct (decide (k' = k0)).
    + destruct (decide (k' = k0)) as [->|]; [by rewrite decide_False|done].
Qed.

Lemma bucket_step_none b (xs : list (nat * EnsemblGffRecord)) : forall acc,
  dict_get b acc = None ->
  Forall (fun x => lower (biotype x.2) <> b) xs ->
  dict_get b
    (fold_left
       (fun related '(i, record) =>
          let b := lower (biotype record) in
          let bt := default [] (dict_get b related) in
          dict_set b (dict_set (name record) i bt) related) xs acc) = None.
Proof.
  induction xs as [|[i r] xs IH]; intros acc Hacc Hxs; [done|].
  apply Forall_cons in Hxs as [Hx Hxs]. simpl in Hx. cbn [fold_left].
  apply IH; [|done]. cbv zeta. rewrite dict_get_set, decide_False by done. done.
Qed.

(** X11. [make_gene_relationships] raises [KeyError] on records none of
    which has the biotype cds, whatever its case. *)
Theorem gene_relationships_need_cds records :
  Forall (fun r => lower (biotype r) <> "cds") records ->
  make_gene_relationships records = None.
Proof.
  intros Hall. unfold make_gene_relationships, bucket.
  rewrite bucket_step_none; [done|done|].
  apply Forall_forall. intros [i r] Hin.
  apply elem_of_lookup_imap in Hin as (j & y & [= -> ->] & Hj).
  rewrite Forall_forall in Hall. apply Hall. by eapply list_elem_of_lookup_2.
Qed.

Lemma gene_relationships_need_cds_witness :
  make_gene_relationships
    (custom_gff_parser [gff_line "gene" "ID=gene:G" 1 100;
                        gff_line "ncRNA" "ID=transcript:T1;Parent=gene:G" 1 50] 0).1.*2 = None.
Proof.
  apply gene_relationships_need_cds. vm_compute. repeat constructor; discriminate.
Defined.

(** ** Sequence labels *)


Lemma append_snoc cur c w : (cur +:+ String c "") +:+ w = cur +:+ String c w.
Proof. induction cur as [|a cur IH]; [done|]. by rewrite !append_cons, IH. Qed.

Lemma append_empty_r s : s +:+ "" = s.
Proof. induction s as [|a s IH]; [done|]. by rewrite append_cons, IH. Qed.

Lemma append_nonempty cur c : cur +:+ String c "" <> "".
Proof. by destruct cur. Qed.

Lemma split_ws_from_word s : forall cur,
  cur <> "" ->
  exists w post,
    head (split_ws_from cur s) = Some (cur +:+ w) /\ s = w +:+ post /\
    all_chars (fun c => negb (is_space c)) w = true /\
    (post = "" \/ exists c rest, post = String c rest /\ is_space c = true).
Proof.
  induction s as [|c s IH]; intros cur Hcur.
  - exists "", "". cbn [split_ws_from]. apply String.eqb_neq in Hcur. rewrite Hcur.
    rewrite append_empty_r. repeat split. by left.
  - cbn [split_ws_from]. destruct (is_space c) eqn:Hc.
    + exists "", (String c s). apply String.eqb_neq in Hcur. rewrite Hcur.
      rewrite append_empty_r. repeat split. right. by exists c, s.
    + destruct (IH (cur +:+ String c "") (append_nonempty cur c)) as (w & post & Hh & -> & Hw & Hpost).
      exists (String c w), post. rewrite Hh, append_snoc. repeat split; [|done].
      cbn [all_chars]. by rewrite Hc, Hw.
Qed.

Lemma rename_word w :
  w <> "" -> all_chars (fun c => negb (is_space c)) w = true -> _rename w = Some w.
Proof.
  unfold _rename, split_ws. intros Hne Hw.
  destruct w as [|c w]; [done|]. cbn [all_chars] in Hw. apply andb_true_iff in Hw as [Hc Hw].
  apply negb_true_iff in Hc. cbn [split_ws_from]. rewrite Hc.
  change ("" +:+ String c "") with (String c "").
  assert (H : forall cur, cur <> "" -> head (split_ws_from cur w) = Some (cur +:+ w)).
  { clear Hne Hc. induction w as [|a w IH]; intros cur Hcur.
    - cbn [split_ws_from]. apply String.eqb_neq in Hcur. by rewrite Hcur, append_empty_r.
    - cbn [all_chars] in Hw. apply andb_true_iff in Hw as [Ha Hw]. apply negb_true_iff in Ha.
      cbn [split_ws_from]. rewrite Ha, (IH Hw) by apply append_nonempty. by rewrite append_snoc. }
  by rewrite H.
Qed.

(** X12. On an ASCII label [_rename] returns the first word: it is not
    empty, is an ASCII text without whitespace, follows whitespace only
    and ends at whitespace or at the end of the label, and [_rename]
    leaves it as it is; on a label of whitespace only the call raises
    [IndexError]. *)
Theorem rename_first_word label :
  isascii label = true ->
  match _rename label with
  | Some w =>
      w <> "" /\ isascii w = true /\
      all_chars (fun c => negb (is_space c)) w = true /\
      _rename w = Some w /\
      exists pre post,
        label = pre +:+ w +:+ post /\ all_chars is_space pre = true /\
        (post = "" \/ exists c rest, post = String c rest /\ is_space c = true)
  | None => all_chars is_space label = true
  end.
Proof.
  intros Hascii.
  assert (H : match _rename label with
    | Some w =>
        w <> "" /\ all_chars (fun c => negb (is_space c)) w = true /\
        exists pre post,
          label = pre +:+ w +:+ post /\ all_chars is_space pre = true /\
          (post = "" \/ exists c rest, post = String c rest /\ is_space c = true)
    | None => all_chars is_space label = true
    end).
  { clear Hascii. unfold _rename, split_ws. induction label as [|c s IH]; [done|].
    cbn [split_ws_from]. destruct (is_space c) eqn:Hc.
    - change (String.eqb "" "") with true. cbv iota.
      destruct (head (split_ws_from "" s)) as [w|].
      + destruct IH as (Hne & Hw & pre & post & -> & Hpre & Hpost).
        split; [done|]. split; [done|]. exists (String c pre), post.
        split; [done|]. split; [|done]. cbn [all_chars]. by rewrite Hc, Hpre.
      + cbn [all_chars]. by rewrite Hc, IH.
    - change ("" +:+ String c "") with (String c "").
      destruct (split_ws_from_word s (String c "") ltac:(done)) as (w & post & Hh & -> & Hw & Hpost).
      rewrite Hh. split; [done|]. split.
      { rewrite append_cons. change ("" +:+ w) with w. cbn [all_chars]. by rewrite Hc, Hw. }
      exists "", post. split; [done|]. split; [done|]. done. }
  destruct (_rename label) as [w|]; [|done].
  destruct H as (Hne & Hw & pre & post & Hlabel & Hex). split; [done|]. split.
  { rewrite Hlabel in Hascii. unfold isascii in *.
    rewrite !all_chars_app in Hascii.
    apply andb_true_iff in Hascii as [_ Hascii]. by apply andb_true_iff in Hascii as [? _]. }
  split; [done|]. split; [by apply rename_word|]. by exists pre, post.
Qed.

Lemma rename_first_word_witness :
  _rename "chr1 dna:chromosome" = Some "chr1" /\ isascii "chr1" = true /\
  _rename "chr1" = Some "chr1".
Proof.
  assert (E : _rename "chr1 dna:chromosome" = Some "chr1") by reflexivity.
  pose proof (rename_first_word "chr1 dna:chromosome" eq_refl) as H. rewrite E in H.
  destruct H as (_ & Ha & _ & Hr & _). split; [exact E|]. split; [exact Ha|exact Hr].
Defined.

(** ** Groups *)

Lemma group_eta (g : homolog_group) :
  {| relationship := relationship g; gene_ids := gene_ids g |} = g.
Proof. by destruct g. Qed.

(** X13. The union of two groups is defined exactly when they have the
    same relationship; it is idempotent, commutative and associative,
    failures included, it holds the members of both and no others, and
    is no longer than the two together. *)
Theorem group_or_algebra a b c :
  (is_Some (group_or a b) <-> relationship a = relationship b) /\
  group_or a a = Some a /\
  group_or a b = group_or b a /\
  (group_or a b ≫= fun ab => group_or ab c) = (group_or b c ≫= fun bc => group_or a bc) /\
  (forall g, group_or a b = Some g ->
     relationship g = relationship a /\ gene_ids g = gene_ids a ∪ gene_ids b /\
     (group_len g <= group_len a + group_len b)%nat).
Proof.
  split_and!.
  - unfold group_or. destruct (decide (relationship b = relationship a)) as [H|H].
    + split; [done|]. intros _. by eexists.
    + split; [by intros [? [=]]|]. intros H'. by rewrite H' in H.
  - unfold group_or. rewrite decide_True by done. by rewrite union_idemp_L, group_eta.
  - apply group_or_comm.
  - unfold group_or.
    destruct (decide (relationship b = relationship a)) as [Hba|Hba];
      destruct (decide (relationship c = relationship b)) as [Hcb|Hcb]; simpl.
    + rewrite !decide_True by congruence. by rewrite (assoc_L (∪)).
    + by rewrite decide_False by congruence.
    + by rewrite decide_False by congruence.
    + done.
  - intros g. unfold group_or. destruct (decide _); [|done]. intros [= <-]. simpl.
    split; [done|]. split; [done|]. unfold group_len. simpl.
    rewrite size_union_alt. apply Nat.add_le_mono_l, subseteq_size.
    intros x Hx. apply elem_of_difference in Hx. tauto.
Qed.

(** ** Groups of another type *)



(** ** Merging with nothing *)

(** X15. An empty mapping is neutral for [merge_grouped] on both sides. *)
Theorem merge_grouped_empty iter (group : gmap string (list homolog_group)) :
  merge_grouped iter group ∅ = Some group /\
  merge_grouped iter ∅ group = Some group.
Proof.
  split.
  - pose proof (merge_grouped_entries iter group ∅) as H.
    destruct (merge_grouped iter group ∅) as [joint|].
    + destruct H as [H _]. f_equal. apply map_eq. intros t. rewrite H. unfold entry.
      rewrite lookup_empty. by destruct (group !! t).
    + destruct H as (t & Ht & He). unfold entry in He. rewrite lookup_empty in He.
      destruct (group !! t); [done|]. destruct Ht as [Ht|Ht]; by apply is_Some_None in Ht.
  - pose proof (merge_grouped_entries iter ∅ group) as H.
    destruct (merge_grouped iter ∅ group) as [joint|].
    + destruct H as [H _]. f_equal. apply map_eq. intros t. rewrite H. unfold entry.
      rewrite lookup_empty. by destruct (group !! t).
    + destruct H as (t & Ht & He). unfold entry in He. rewrite lookup_empty in He.
      destruct (group !! t); [done|]. destruct Ht as [Ht|Ht]; by apply is_Some_None in Ht.
Qed.

(** ** From gene ids to groups *)

Lemma set_fold_insert_nat (X : gset string) (i : nat) (m : gmap string nat) g :
  set_fold (fun k r => <[k := i]> r) m X !! g =
  if decide (g ∈ X) then Some i else m !! g.
Proof.
  pose (P := fun (r : gmap string nat) (Y : gset string) =>
    r !! g = if decide (g ∈ Y) then Some i else m !! g).
  apply (set_fold_ind_L P); unfold P; clear P.
  - by rewrite decide_False by apply not_elem_of_empty.
  - intros x Y r Hx IH. destruct (decide (g = x)) as [->|Hne].
    + rewrite lookup_insert_eq, decide_True; [done|]. apply elem_of_union. left.
      by apply elem_of_singleton.
    + rewrite lookup_insert_ne by done. rewrite IH.
      destruct (decide (g ∈ Y)) as [HY|HY].
      * rewrite decide_True; [done|]. apply elem_of_union. by right.
      * rewrite decide_False; [done|]. intros [H|H]%elem_of_union; [|done].
        by apply elem_of_singleton in H.
Qed.

Lemma gene_id_to_group_snoc series x :
  _gene_id_to_group (series ++ [x]) =
  set_fold (fun gene_id r => <[gene_id := length series]> r) (_gene_id_to_group series) (gene_ids x).
Proof.
  unfold _gene_id_to_group. rewrite imap_app, fold_left_app. simpl.
  by rewrite Nat.add_0_r.
Qed.

Lemma gene_id_to_group_spec series g :
  match _gene_id_to_group series !! g with
  | Some i =>
      (exists grp, series !! i = Some grp /\ g ∈ gene_ids grp) /\
      forall j grp, series !! j = Some grp -> g ∈ gene_ids grp -> (j <= i)%nat
  | None => forall grp, grp ∈ series -> g ∉ gene_ids grp
  end.
Proof.
  induction series as [|x series IH] using rev_ind.
  - unfold _gene_id_to_group. simpl. rewrite lookup_empty. by intros grp ?%elem_of_nil.
  - rewrite gene_id_to_group_snoc, set_fold_insert_nat.
    destruct (decide (g ∈ gene_ids x)) as [Hx|Hx].
    + split.
      * exists x. split; [|done]. by rewrite lookup_app_r, Nat.sub_diag.
      * intros j grp Hj _. apply lookup_lt_Some in Hj. rewrite length_app in Hj. simpl in Hj. lia.
    + destruct (_gene_id_to_group series !! g) as [i|].
      * destruct IH as [(grp & Hi & Hg) Hlast]. split.
        -- exists grp. split; [|done]. by apply lookup_app_l_Some.
        -- intros j grp' Hj Hg'. apply lookup_app_Some in Hj as [Hj|[Hlen Hj]].
           ++ by eapply Hlast.
           ++ apply list_lookup_singleton_Some in Hj as [_ <-]. done.
      * intros grp [Hin|Hin]%elem_of_app; [by apply IH|].
        apply list_elem_of_singleton in Hin as ->. done.
Qed.

(** X16. [_gene_id_to_group] maps a gene id to the last group of the
    series that has it, and has no entry for a gene id that no group
    has. *)
Theorem gene_id_to_group_last series g :
  match _gene_id_to_group series !! g with
  | Some i =>
      (exists grp, series !! i = Some grp /\ g ∈ gene_ids grp) /\
      forall j grp, series !! j = Some grp -> g ∈ gene_ids grp -> (j <= i)%nat
  | None => forall grp, grp ∈ series -> g ∉ gene_ids grp
  end.
Proof. apply gene_id_to_group_spec. Qed.


(** ** What the clusterer keeps *)

Lemma cluster_step_spec st data t a b :
  tracks st data ->
  exists val grp0,
    (groups st !! val = Some grp0 \/
     (val = length (groups st) /\ grp0 = {| relationship := t; gene_ids := ∅ |})) /\
    relationship grp0 = t /\
    (forall v, groups (cluster_step st (t, a, b)) !! v =
       if decide (v = val) then Some (add_gene_ids {[a; b]} grp0) else groups st !! v) /\
    grouped (cluster_step st (t, a, b)) =
      <[t := <[b := val]> (<[a := val]> (default ∅ (grouped st !! t)))]> (grouped st).
Proof.
  intros (I1 & _ & _). unfold cluster_step.
  destruct (target (default ∅ (grouped st !! t)) a b) as [val|] eqn:Ht.
  - assert (Hex : exists g, default ∅ (grouped st !! t) !! g = Some val).
    { unfold target in Ht. destruct (default ∅ (grouped st !! t) !! a) eqn:Ea.
      - exists a. congruence.
      - by exists b. }
    destruct Hex as [g Hg].
    destruct (grouped st !! t) as [rel|] eqn:Hrel; simpl in Hg; [|by rewrite lookup_empty in Hg].
    destruct (I1 t rel g val Hrel Hg) as (grp0 & Hv & Hr & _).
    exists val, grp0. split; [by left|]. split; [done|]. split; [|done].
    intros v. simpl. destruct (decide (v = val)) as [->|Hne].
    + by rewrite list_lookup_alter_eq, Hv.
    + by rewrite list_lookup_alter_ne.
  - exists (length (groups st)), {| relationship := t; gene_ids := ∅ |}.
    split; [by right|]. split; [done|]. split; [|done].
    intros v. simpl. destruct (decide (v = length (groups st))) as [->|Hne].
    + rewrite list_lookup_alter_eq, lookup_app_r, Nat.sub_diag by done. done.
    + rewrite list_lookup_alter_ne by done.
      destruct (decide (v < length (groups st))%nat).
      * by rewrite lookup_app_l.
      * rewrite !lookup_ge_None_2; [done|lia|]. rewrite length_app. simpl. lia.
Qed.

Lemma cluster_step_tracks st data row :
  tracks st data -> tracks (cluster_step st row) (data ++ [row]).
Proof.
  intros Htr. destruct row as [[t a] b].
  destruct (cluster_step_spec st data t a b Htr) as (val & grp0 & Hval & Hrel0 & Hgroups & Hgrouped).
  destruct Htr as (I1 & I3 & I4).
  split; [|split].
  - intros t' rel' g v. rewrite Hgrouped, Hgroups.
    destruct (decide (t' = t)) as [->|Hne].
    + rewrite lookup_insert_eq. intros [= <-] Hg.
      destruct (decide (g = b)) as [->|Hgb]; [|destruct (decide (g = a)) as [->|Hga]].
      * rewrite lookup_insert_eq in Hg. injection Hg as <-. rewrite decide_True by done.
        eexists. split; [done|]. split; [done|]. simpl.
        apply elem_of_union. right. apply elem_of_union. right. by apply elem_of_singleton.
      * rewrite lookup_insert_ne, lookup_insert_eq in Hg by done. injection Hg as <-.
        rewrite decide_True by done.
        eexists. split; [done|]. split; [done|]. simpl.
        apply elem_of_union. right. apply elem_of_union. left. by apply elem_of_singleton.
      * rewrite !lookup_insert_ne in Hg by done.
        destruct (grouped st !! t) as [rel|] eqn:Hrel; simpl in Hg; [|by rewrite lookup_empty in Hg].
        destruct (I1 t rel g v Hrel Hg) as (grp & Hv & Hr & Hin).
        destruct (decide (v = val)) as [->|Hne].
        -- destruct Hval as [Hval|[-> _]].
           ++ rewrite Hv in Hval. injection Hval as <-.
              eexists. split; [done|]. split; [done|]. simpl. apply elem_of_union. by left.
           ++ apply lookup_lt_Some in Hv. lia.
        -- by exists grp.
    + rewrite lookup_insert_ne by done. intros Hrel Hg.
      destruct (I1 t' rel' g v Hrel Hg) as (grp & Hv & Hr & Hin).
      destruct (decide (v = val)) as [->|Hne'].
      * destruct Hval as [Hval|[-> _]].
        -- rewrite Hv in Hval. injection Hval as <-. congruence.
        -- apply lookup_lt_Some in Hv. lia.
      * by exists grp.
  - intros v grp g. rewrite Hgroups. destruct (decide (v = val)) as [->|Hne].
    + intros [= <-]. simpl. rewrite Hrel0. intros [Hg|Hg]%elem_of_union.
      * destruct Hval as [Hval|[_ ->]]; [|by apply elem_of_empty in Hg].
        destruct (I3 _ _ _ Hval Hg) as (a' & b' & Hin & Hor). rewrite Hrel0 in Hin.
        exists a', b'. split; [|done]. apply elem_of_app. by left.
      * exists a, b. split; [apply elem_of_app; right; by apply list_elem_of_singleton|].
        apply elem_of_union in Hg as [Hg|Hg]; apply elem_of_singleton in Hg; tauto.
    + intros Hv Hg. destruct (I3 _ _ _ Hv Hg) as (a' & b' & Hin & Hor).
      exists a', b'. split; [|done]. apply elem_of_app. by left.
  - intros t' a' b' [Hin|Hin]%elem_of_app; rewrite Hgrouped.
    + destruct (I4 _ _ _ Hin) as (rel & Hrel & Ha & Hb).
      destruct (decide (t' = t)) as [->|Hne].
      * rewrite lookup_insert_eq. eexists. split; [done|]. rewrite Hrel. simpl.
        split.
        -- destruct (decide (a' = b)) as [->|]; [by rewrite lookup_insert_eq|].
           rewrite lookup_insert_ne by done.
           destruct (decide (a' = a)) as [->|]; [by rewrite lookup_insert_eq|].
           by rewrite lookup_insert_ne.
        -- destruct (decide (b' = b)) as [->|]; [by rewrite lookup_insert_eq|].
           rewrite lookup_insert_ne by done.
           destruct (decide (b' = a)) as [->|]; [by rewrite lookup_insert_eq|].
           by rewrite lookup_insert_ne.
      * rewrite lookup_insert_ne by done. by exists rel.
    + apply list_elem_of_singleton in Hin. injection Hin as -> -> ->.
      rewrite lookup_insert_eq. eexists. split; [done|]. split.
      * destruct (decide (a = b)) as [->|]; [by rewrite lookup_insert_eq|].
        by rewrite lookup_insert_ne, lookup_insert_eq.
      * by rewrite lookup_insert_eq.
Qed.

Lemma tracks_empty : tracks {| groups := []; grouped := ∅ |} [].
Proof.
  split; [|split].
  - intros t rel g v H. simpl in H. by rewrite lookup_empty in H.
  - intros v grp g H. simpl in H. by rewrite lookup_nil in H.
  - intros t a b H. by apply elem_of_nil in H.
Qed.

Lemma fold_tracks rest : forall st data,
  tracks st data -> tracks (fold_left cluster_step rest st) (data ++ rest).
Proof.
  induction rest as [|row rest IH]; intros st data Htr; simpl.
  - by rewrite app_nil_r.
  - rewrite (cons_middle row data rest), app_assoc. apply IH. by apply cluster_step_tracks.
Qed.

Lemma in_reduce st t rel g v grp :
  grouped st !! t = Some rel -> rel !! g = Some v -> groups st !! v = Some grp ->
  exists series, reduce st !! t = Some series /\ grp ∈ series.
Proof.
  intros Hrel Hg Hv. unfold reduce. rewrite lookup_fmap, Hrel. simpl.
  eexists. split; [done|]. apply list_elem_of_omap. exists v. split; [|done].
  unfold distinct_values. apply list_elem_of_filter. split.
  - apply list_elem_of_fmap. exists (g, v). split; [done|]. by apply elem_of_map_to_list.
  - apply elem_of_seq. apply lookup_lt_Some in Hv. lia.
Qed.

Lemma reduce_in st t series grp :
  reduce st !! t = Some series -> grp ∈ series ->
  exists rel g v, grouped st !! t = Some rel /\ rel !! g = Some v /\ groups st !! v = Some grp.
Proof.
  unfold reduce. rewrite lookup_fmap. destruct (grouped st !! t) as [rel|]; [|done].
  simpl. intros [= <-] Hin. apply list_elem_of_omap in Hin as (v & Hv & Hgrp).
  unfold distinct_values in Hv. apply list_elem_of_filter in Hv as [Hv _].
  apply list_elem_of_fmap in Hv as ([g v'] & -> & Hgv). apply elem_of_map_to_list in Hgv.
  by exists rel, g, v'.
Qed.

(** X17. [grouped_related] loses no gene id and invents none: both ids of
    every edge are members of groups returned for the type of the edge,
    and every group returned for a type has that relationship, is not
    empty and has only ids of edges of that type. *)
Theorem grouped_related_covers data :
  (forall t a b, (t, a, b) ∈ data ->
     exists series ga gb,
       grouped_related data !! t = Some series /\ ga ∈ series /\ gb ∈ series /\
       a ∈ gene_ids ga /\ b ∈ gene_ids gb) /\
  (forall t series grp, grouped_related data !! t = Some series -> grp ∈ series ->
     relationship grp = t /\ gene_ids grp <> ∅ /\
     forall g, g ∈ gene_ids grp -> exists a b, (t, a, b) ∈ data /\ (g = a \/ g = b)).
Proof.
  pose proof (fold_tracks data _ [] tracks_empty) as (I1 & I3 & I4).
  rewrite app_nil_l in I3, I4. unfold grouped_related.
  set (st := fold_left cluster_step data _) in *.
  split.
  - intros t a b Hin. destruct (I4 t a b Hin) as (rel & Hrel & [va Ha] & [vb Hb]).
    destruct (I1 t rel a va Hrel Ha) as (ga & Hga & _ & Hina).
    destruct (I1 t rel b vb Hrel Hb) as (gb & Hgb & _ & Hinb).
    destruct (in_reduce st t rel a va ga Hrel Ha Hga) as (series & Hs & Hsa).
    destruct (in_reduce st t rel b vb gb Hrel Hb Hgb) as (series' & Hs' & Hsb).
    rewrite Hs in Hs'. injection Hs' as <-. by exists series, ga, gb.
  - intros t series grp Hs Hin.
    destruct (reduce_in st t series grp Hs Hin) as (rel & g & v & Hrel & Hg & Hv).
    destruct (I1 t rel g v Hrel Hg) as (grp' & Hv' & Hr & Hing).
    rewrite Hv in Hv'. injection Hv' as <-. split; [done|]. split.
    + intros He. rewrite He in Hing. by apply elem_of_empty in Hing.
    + intros g' Hg'. destruct (I3 v grp g' Hv Hg') as (a & b & Hab & Hor).
      rewrite Hr in Hab. by exists a, b.
Qed.

(** ** Edges within groups *)

Lemma fold_grows rest : forall st data v grp,
  tracks st data -> groups st !! v = Some grp ->
  exists grp', groups (fold_left cluster_step rest st) !! v = Some grp' /\
    relationship grp' = relationship grp /\ gene_ids grp ⊆ gene_ids grp'.
Proof.
  induction rest as [|[[t a] b] rest IH]; intros st data v grp Htr Hv; simpl.
  - by exists grp.
  - destruct (cluster_step_spec st data t a b Htr) as (val & grp0 & Hval & Hrel0 & Hgroups & _).
    pose proof (cluster_step_tracks st data (t, a, b) Htr) as Htr'.
    destruct (decide (v = val)) as [->|Hne].
    + destruct Hval as [Hval|[-> _]]; [|apply lookup_lt_Some in Hv; lia].
      rewrite Hv in Hval. injection Hval as <-.
      destruct (IH _ _ val (add_gene_ids {[a; b]} grp) Htr') as (grp' & H1 & H2 & H3).
      { by rewrite Hgroups, decide_True. }
      exists grp'. split; [done|]. split; [done|]. simpl in H3.
      intros x Hx. apply H3. apply elem_of_union. by left.
    + apply (IH _ _ v grp Htr'). by rewrite Hgroups, decide_False.
Qed.

(** X18. When no edge joins two groups made earlier, the two ids of every
    edge are members of one and the same group that [grouped_related]
    returns for the type of the edge. *)
Theorem clusterer_edges_within_groups data t a b :
  no_bridge {| groups := []; grouped := ∅ |} data ->
  (t, a, b) ∈ data ->
  exists series grp,
    grouped_related data !! t = Some series /\ grp ∈ series /\
    a ∈ gene_ids grp /\ b ∈ gene_ids grp.
Proof.
  intros Hnb Hin.
  assert (Hcons : consistent (fold_left cluster_step data {| groups := []; grouped := ∅ |})).
  { apply no_bridge_consistent; [|done]. split.
    - intros t' rel g v H. simpl in H. by rewrite lookup_empty in H.
    - intros v grp g H. simpl in H. by rewrite lookup_nil in H. }
  apply list_elem_of_split in Hin as (pre & post & ->).
  unfold grouped_related. rewrite fold_left_app in *. simpl in *.
  pose proof (fold_tracks pre _ [] tracks_empty) as Htr. rewrite app_nil_l in Htr.
  set (st1 := fold_left cluster_step pre _) in *.
  destruct (cluster_step_spec st1 pre t a b Htr) as (val & grp0 & _ & Hrel0 & Hgroups & _).
  pose proof (cluster_step_tracks st1 pre (t, a, b) Htr) as Htr2.
  destruct (fold_grows post _ _ val (add_gene_ids {[a; b]} grp0) Htr2) as (grp & Hv & Hr & Hsub).
  { by rewrite Hgroups, decide_True. }
  simpl in Hr, Hsub. rewrite Hrel0 in Hr.
  assert (Ha : a ∈ gene_ids grp).
  { apply Hsub. apply elem_of_union. right. apply elem_of_union. left. by apply elem_of_singleton. }
  assert (Hb : b ∈ gene_ids grp).
  { apply Hsub. apply elem_of_union. right. apply elem_of_union. right. by apply elem_of_singleton. }
  destruct Hcons as [_ I2]. destruct (I2 val grp a Hv Ha) as (rel & Hrel & Hra).
  rewrite Hr in Hrel.
  destruct (in_reduce _ t rel a val grp Hrel Hra Hv) as (series & Hs & Hin).
  by exists series, grp.
Qed.

Lemma clusterer_edges_within_groups_witness :
  exists series grp,
    grouped_related [("ortho", "g1", "g2"); ("ortho", "h1", "h2"); ("ortho", "g2", "g3")]
      !! "ortho" = Some series /\ grp ∈ series /\
    "g2" ∈ gene_ids grp /\ "g3" ∈ gene_ids grp.
Proof.
  apply clusterer_edges_within_groups.
  - vm_compute. split_and!; [tauto | tauto | | exact I]. intros H. by apply H.
  - apply elem_of_cons. right. apply elem_of_cons. right. apply list_elem_of_here.
Defined.

(** ** What the merge keeps *)



Lemma referred_elem series1 series2 us (m : gmap string group_ref) grp :
  grp ∈ referred series1 series2 us m <->
  exists g ref, m !! g = Some ref /\ deref series1 series2 us ref = Some grp.
Proof.
  assert (Hvals : forall r, r ∈ (map_to_list m).*2 <-> exists g, m !! g = Some r).
  { intros r. rewrite list_elem_of_fmap. split.
    - intros ([g r'] & -> & H). exists g. by apply elem_of_map_to_list.
    - intros (g & H). exists (g, r). split; [done|]. by apply elem_of_map_to_list. }
  unfold referred. rewrite !elem_of_app, !list_elem_of_omap. split.
  - intros [(i & Hi & Hg)|[(i & Hi & Hg)|(i & Hi & Hg)]];
      apply list_elem_of_filter in Hi as [Hi _]; apply Hvals in Hi as [g Hi];
      by eexists g, _.
  - intros (g & [i|i|i] & Hm & Hd); simpl in Hd.
    + left. exists i. split; [|done]. apply list_elem_of_filter. split.
      * apply Hvals. by exists g.
      * apply elem_of_seq. apply lookup_lt_Some in Hd. lia.
    + right. left. exists i. split; [|done]. apply list_elem_of_filter. split.
      * apply Hvals. by exists g.
      * apply elem_of_seq. apply lookup_lt_Some in Hd. lia.
    + right. right. exists i. split; [|done]. apply list_elem_of_filter. split.
      * apply Hvals. by exists g.
      * apply elem_of_seq. apply lookup_lt_Some in Hd. lia.
Qed.

Lemma gene_id_to_group_Some series g i :
  _gene_id_to_group series !! g = Some i ->
  exists grp, series !! i = Some grp /\ g ∈ gene_ids grp.
Proof.
  intros H. pose proof (gene_id_to_group_spec series g) as Hs. rewrite H in Hs. tauto.
Qed.

Lemma gene_id_to_group_member series g grp :
  grp ∈ series -> g ∈ gene_ids grp -> is_Some (_gene_id_to_group series !! g).
Proof.
  intros Hin Hg. pose proof (gene_id_to_group_spec series g) as Hs.
  destruct (_gene_id_to_group series !! g); [by eexists|]. by destruct (Hs grp Hin).
Qed.

Lemma merge_step_kept series1 series2 st gene_id st' :
  kept series1 series2 st ->
  merge_step series1 series2 (_gene_id_to_group series1) (_gene_id_to_group series2) st gene_id
    = Some st' ->
  kept series1 series2 st' /\
  is_Some (rel_type_group st' !! gene_id) /\
  (forall g, is_Some (rel_type_group st !! g) -> is_Some (rel_type_group st' !! g)).
Proof.
  intros (Ka & Kb & Kc). unfold merge_step.
  destruct (decide (gene_id ∈ skip st)) as [Hs|Hs].
  { intros [= <-]. split; [done|]. split; [by apply Kb|done]. }
  destruct (_gene_id_to_group series1 !! gene_id) as [i|] eqn:H1; [|done].
  destruct (_gene_id_to_group series2 !! gene_id) as [j|] eqn:H2; [|done]. simpl.
  apply gene_id_to_group_Some in H1 as (a & Ha & Hga).
  apply gene_id_to_group_Some in H2 as (b & Hb & Hgb).
  rewrite Ha, Hb. simpl.
  destruct (group_or a b) as [merged|] eqn:Hor; [|done]. simpl. intros [= <-].
  assert (Hm : gene_ids merged = gene_ids a ∪ gene_ids b).
  { unfold group_or in Hor. destruct (decide _); [|done]. by injection Hor as <-. }
  split; [split; [|split]|split]; simpl.
  - intros g ref. rewrite set_fold_insert_lookup.
    destruct (decide (g ∈ gene_ids merged)) as [Hg|Hg].
    + intros [= <-]. exists merged. split; [|done]. simpl.
      by rewrite lookup_app_r, Nat.sub_diag.
    + intros Hl. destruct (Ka g ref Hl) as (grp & Hd & Hin). exists grp. split; [|done].
      destruct ref as [k|k|k]; simpl in *; [done|done|]. by apply lookup_app_l_Some.
  - intros g. rewrite set_fold_insert_lookup. intros [Hg|Hg]%elem_of_union.
    + destruct (decide (g ∈ gene_ids merged)); [by eexists|]. by apply Kb.
    + by rewrite decide_True.
  - intros grp x [Hin|Hin]%elem_of_app.
    + by apply Kc.
    + apply list_elem_of_singleton in Hin as ->. rewrite Hm. intros [Hx|Hx]%elem_of_union.
      * exists a. split; [|done]. apply elem_of_app. left. by eapply list_elem_of_lookup_2.
      * exists b. split; [|done]. apply elem_of_app. right. by eapply list_elem_of_lookup_2.
  - rewrite set_fold_insert_lookup, decide_True; [by eexists|].
    rewrite Hm. apply elem_of_union. by left.
  - intros g Hg. rewrite set_fold_insert_lookup. by destruct (decide _); [eexists|].
Qed.

Lemma merge_loop_kept series1 series2 ids : forall st st',
  kept series1 series2 st ->
  merge_loop series1 series2 (_gene_id_to_group series1) (_gene_id_to_group series2) st ids
    = Some st' ->
  kept series1 series2 st' /\
  (forall g, g ∈ ids -> is_Some (rel_type_group st' !! g)) /\
  (forall g, is_Some (rel_type_group st !! g) -> is_Some (rel_type_group st' !! g)).
Proof.
  induction ids as [|gene_id ids IH]; intros st st' Hk; simpl.
  - intros [= <-]. split; [done|]. split; [|done]. by intros g ?%elem_of_nil.
  - destruct (merge_step _ _ _ _ st gene_id) as [st1|] eqn:Hstep; [|done]. simpl.
    intros Hloop.
    destruct (merge_step_kept _ _ _ _ _ Hk Hstep) as (Hk1 & Hid & Hmono1).
    destruct (IH _ _ Hk1 Hloop) as (Hk' & Hids & Hmono).
    split; [done|]. split.
    + intros g [->|Hg]%elem_of_cons; [by apply Hmono|by apply Hids].
    + intros g Hg. by apply Hmono, Hmono1.
Qed.

Lemma merge_rel_type_keeps iter series1 series2 out g :
  exhaustive iter ->
  merge_rel_type iter series1 series2 = Some out ->
  (exists grp, grp ∈ out /\ g ∈ gene_ids grp) <->
  (exists grp, grp ∈ series1 ++ series2 /\ g ∈ gene_ids grp).
Proof.
  intros Hiter. unfold exhaustive in Hiter. unfold merge_rel_type.
  set (grp1 := _gene_id_to_group series1). set (grp2 := _gene_id_to_group series2).
  set (st0 := {| rel_type_group := _; skip := ∅; unions := [] |}).
  destruct (merge_loop series1 series2 grp1 grp2 st0 _) as [st|] eqn:Hloop; [|done].
  simpl. intros [= <-].
  assert (Hk0 : kept series1 series2 st0).
  { split; [|split]; simpl.
    - intros x ref. rewrite !add_unique_lookup, lookup_empty.
      destruct (grp2 !! x) as [j|] eqn:E2; destruct (grp1 !! x) as [i|] eqn:E1; try done.
      + intros [= <-]. by apply gene_id_to_group_Some.
      + intros [= <-]. by apply gene_id_to_group_Some.
    - by intros x ?%elem_of_empty.
    - by intros grp x ?%elem_of_nil. }
  destruct (merge_loop_kept _ _ _ _ _ Hk0 Hloop) as ((Ka & _ & Kc) & Hids & Hmono).
  split.
  - intros (grp & Hin & Hg). apply referred_elem in Hin as (x & ref & Hx & Hd).
    destruct ref as [i|i|i]; simpl in Hd.
    + exists grp. split; [|done]. apply elem_of_app. left. by eapply list_elem_of_lookup_2.
    + exists grp. split; [|done]. apply elem_of_app. right. by eapply list_elem_of_lookup_2.
    + apply (Kc grp g); [|done]. by eapply list_elem_of_lookup_2.
  - intros (grp0 & Hin & Hg).
    assert (Hsome : is_Some (rel_type_group st !! g)).
    { destruct (grp1 !! g) as [i|] eqn:E1; destruct (grp2 !! g) as [j|] eqn:E2.
      - apply Hids. rewrite Hiter. apply elem_of_elements, elem_of_intersection.
        split; apply elem_of_dom; by eexists.
      - apply Hmono. simpl. rewrite !add_unique_lookup. fold grp1 grp2. rewrite E1, E2.
        by eexists.
      - apply Hmono. simpl. rewrite !add_unique_lookup. fold grp1 grp2. rewrite E1, E2.
        by eexists.
      - exfalso. apply elem_of_app in Hin as [Hin|Hin].
        + destruct (gene_id_to_group_member series1 g grp0 Hin Hg) as [? H]. fold grp1 in H. congruence.
        + destruct (gene_id_to_group_member series2 g grp0 Hin Hg) as [? H]. fold grp2 in H. congruence. }
    destruct Hsome as [ref Href]. destruct (Ka g ref Href) as (grp & Hd & Hing).
    exists grp. split; [|done]. apply referred_elem. by exists g, ref.
Qed.

(** X19. [merge_grouped] loses no gene id and invents none: when it
    returns, a gene id is a member of a group of the result for a
    relationship type exactly when it is a member of a group of one of
    the inputs for that type. *)
Theorem merge_keeps_gene_ids iter group1 group2 joint t g :
  exhaustive iter ->
  merge_grouped iter group1 group2 = Some joint ->
  (exists series grp, joint !! t = Some series /\ grp ∈ series /\ g ∈ gene_ids grp) <->
  (exists series grp,
     (group1 !! t = Some series \/ group2 !! t = Some series) /\
     grp ∈ series /\ g ∈ gene_ids grp).
Proof.
  intros Hiter Hj. pose proof (merge_grouped_entries iter group1 group2) as H.
  rewrite Hj in H. destruct H as [H _]. rewrite H. unfold entry.
  destruct (group1 !! t) as [s1|] eqn:E1; destruct (group2 !! t) as [s2|] eqn:E2.
  - split.
    + intros (series & grp & Hm & Hin & Hg).
      destruct (proj1 (merge_rel_type_keeps iter s1 s2 series g Hiter Hm)) as (grp0 & Hin0 & Hg0).
      { by exists grp. }
      apply elem_of_app in Hin0 as [Hin0|Hin0]; [exists s1|exists s2]; exists grp0; tauto.
    + intros (series & grp & Hor & Hin & Hg).
      destruct (merge_rel_type iter s1 s2) as [out|] eqn:Hm.
      * destruct (proj2 (merge_rel_type_keeps iter s1 s2 out g Hiter Hm)) as (grp' & Hin' & Hg').
        { exists grp. split; [|done]. apply elem_of_app.
          destruct Hor as [[= <-]|[= <-]]; tauto. }
        by exists out, grp'.
      * pose proof (H t) as Ht. unfold entry in Ht. rewrite E1, E2, Hm in Ht.
        pose proof (merge_grouped_entries iter group1 group2) as H'.
        rewrite Hj in H'. destruct H' as [_ H']. destruct (H' t) as [? Hx].
        { left. by eexists. }
        unfold entry in Hx. rewrite E1, E2, Hm in Hx. done.
  - split.
    + intros (series & grp & [= <-] & Hin & Hg). exists s1, grp. tauto.
    + intros (series & grp & [[= <-]|[=]] & Hin & Hg). by exists s1, grp.
  - split.
    + intros (series & grp & [= <-] & Hin & Hg). exists s2, grp. tauto.
    + intros (series & grp & [[=]|[= <-]] & Hin & Hg). by exists s2, grp.
  - split.
    + by intros (series & grp & [=] & _).
    + by intros (series & grp & [[=]|[=]] & _).
Qed.

Lemma merge_keeps_gene_ids_witness :
  (exists series grp,
     ({[ "ortho" := [ortho ["a"; "b"; "c"; "d"]] ]} : gmap string (list homolog_group)) !! "ortho"
       = Some series /\ grp ∈ series /\ "d" ∈ gene_ids grp) <->
  (exists series grp,
     (part ["a"; "b"] !! "ortho" = Some series \/ part ["b"; "c"; "d"] !! "ortho" = Some series) /\
     grp ∈ series /\ "d" ∈ gene_ids grp).
Proof.
  apply (merge_keeps_gene_ids by_elements (part ["a"; "b"]) (part ["b"; "c"; "d"])).
  - intros s1 s2 X. reflexivity.
  - unfold part. rewrite merge_grouped_singleton, merge_ab_bcd; [done|].
    intros s1 s2 X. reflexivity.
Defined.

(** ** Storing groups and reading them back *)

(** *** Joining and splitting *)



(** *** The tables *)










(** *** One more group *)





(** *** The view *)


Lemma bind_miss {A B} (f : A -> list B) (l : list A) :
  (forall x, x ∈ l -> f x = []) -> l ≫= f = [].
Proof.
  induction l as [|x l IH]; intros H; [done|]. rewrite bind_cons, H by (by left).
  apply IH. intros y Hy. apply H. by right.
Qed.



Lemma bind_ext_in {A B} (f g : A -> list B) (l : list A) :
  (forall x, x ∈ l -> f x = g x) -> l ≫= f = l ≫= g.
Proof.
  induction l as [|x l IH]; intros H; [done|]. rewrite !bind_cons, H by (by left).
  f_equal. apply IH. intros y Hy. apply H. by right.
Qed.


(** *** Reading back *)











(** ** Relationship types side by side *)

Lemma insert_members_append rows : forall db,
  exists ms,
    member_tbl (fold_left insert_member rows db) = member_tbl db ++ ms /\
    (forall m, m ∈ ms -> m ∈ rows).
Proof.
  induction rows as [|row rows IH]; intros db; simpl.
  - exists []. split; [by rewrite app_nil_r|]. by intros m ?%elem_of_nil.
  - destruct (decide (row ∈ member_tbl db)) as [Hrow|Hrow].
    + assert (E : insert_member db row = db) by (unfold insert_member; by rewrite decide_True).
      rewrite E. destruct (IH db) as (ms & Hms & Hin).
      exists ms. split; [done|]. intros m Hm. right. by apply Hin.
    + assert (E : member_tbl (insert_member db row) = member_tbl db ++ [row])
        by (unfold insert_member; by rewrite decide_False).
      destruct (IH (insert_member db row)) as (ms & Hms & Hin).
      exists (row :: ms). rewrite Hms, E, <- app_assoc. split; [done|].
      intros m [->|Hm]%elem_of_cons; [by left|]. right. by apply Hin.
Qed.

Lemma add_group_shape rel rid db g db' :
  add_group rel rid db g = Some db' ->
  relationship_tbl db' = relationship_tbl db /\
  _relationship_types db' = _relationship_types db /\
  exists i ms,
    member_tbl db' = member_tbl db ++ ms /\ (forall m, m ∈ ms -> m.2 = i) /\
    ((homology_tbl db' = homology_tbl db /\
      exists h, h ∈ homology_tbl db /\ h.1 = i /\ h.2 = rid) \/
     (homology_tbl db' = homology_tbl db ++ [(i, rid)] /\
      i = fresh_id (homology_tbl db).*1)).
Proof.
  unfold add_group. destruct (decide (relationship g = rel)); [|done].
  destruct (_get_homology_group_id db rid (gene_ids g)) as [db1 i] eqn:Hid. intros [= <-].
  destruct (insert_members_tables ((fun gene_id => (gene_id, i)) <$> elements (gene_ids g)) db1)
    as (Hr & Hh & Hc & _).
  destruct (insert_members_append ((fun gene_id => (gene_id, i)) <$> elements (gene_ids g)) db1)
    as (ms & Hms & Hin).
  assert (Hms2 : forall m, m ∈ ms -> m.2 = i).
  { intros m Hm. apply Hin in Hm. by apply list_elem_of_fmap in Hm as (x & -> & _). }
  unfold _get_homology_group_id in Hid.
  destruct (first_row (filter (wanted rid (gene_ids g)) (related_groups db)))
    as [row|] eqn:Hf.
  - injection Hid as <- <-. rewrite Hr, Hh, Hc. split; [done|]. split; [done|].
    exists (v_homology_id row), ms. split; [done|]. split; [done|]. left. split; [done|].
    assert (Hrow : row ∈ filter (wanted rid (gene_ids g)) (related_groups db))
      by (by apply first_row_elem).
    apply list_elem_of_filter in Hrow as [[Hrid _] Hrow].
    rewrite related_groups_blocks in Hrow. apply list_elem_of_bind in Hrow as (h & Hb & Hh').
    apply elem_of_block in Hb as (r & m & _ & _ & H2 & _ & ->). simpl in *.
    exists h. split; [done|]. split; [done|]. congruence.
  - unfold new_homology_id in Hid. injection Hid as <- <-. simpl in *.
    rewrite Hr, Hh, Hc. split; [done|]. split; [done|].
    exists (fresh_id (homology_tbl db).*1), ms. split; [done|].
    split; [done|]. by right.
Qed.

Lemma add_group_sound rel rid db g db' :
  sound db -> rid ∈ (relationship_tbl db).*2 ->
  add_group rel rid db g = Some db' -> sound db' /\ extends rid db db'.
Proof.
  intros (S1 & S2 & S3 & S4 & S5) Hrid Hadd.
  apply add_group_shape in Hadd as (Hr & Hc & i & ms & Hm & Hms & Hcase).
  destruct Hcase as [[Hh (h0 & Hh0 & Hi & Hrid0)]|[Hh Hi]].
  - split.
    + split_and!; rewrite ?Hh, ?Hr, ?Hc; try done.
      intros m. rewrite Hm. intros [Hin|Hin]%elem_of_app; [by apply S5|].
      rewrite (Hms m Hin), <- Hi. apply list_elem_of_fmap. by exists h0.
    + split; [done|]. split; [done|]. exists [], ms. rewrite app_nil_r.
      split; [done|]. split; [done|]. split; [by intros h ?%elem_of_nil|].
      intros m Hin. exists h0. rewrite Hh. split; [done|]. by rewrite (Hms m Hin).
  - split.
    + split_and!; rewrite ?Hh, ?Hr, ?Hc; try done.
      * rewrite fmap_app. apply NoDup_app. split; [done|]. split; [|apply NoDup_singleton].
        intros x Hx Hx'. apply list_elem_of_singleton in Hx'. simpl in Hx'. subst x.
        rewrite Hi in Hx. by apply fresh_id_fresh in Hx.
      * intros h [Hin|Hin]%elem_of_app; [by apply S4|].
        by apply list_elem_of_singleton in Hin as ->.
      * intros m. rewrite Hm, fmap_app. intros [Hin|Hin]%elem_of_app.
        -- apply elem_of_app. left. by apply S5.
        -- apply elem_of_app. right. rewrite (Hms m Hin). by apply list_elem_of_singleton.
    + split; [done|]. split; [done|]. exists [(i, rid)], ms.
      split; [done|]. split; [done|]. split.
      * by intros h ->%list_elem_of_singleton.
      * intros m Hin. exists (i, rid). rewrite Hh. split; [|by rewrite (Hms m Hin)].
        apply elem_of_app. right. by apply list_elem_of_singleton.
Qed.

Lemma extends_trans rid db1 db2 db3 :
  extends rid db1 db2 -> extends rid db2 db3 -> extends rid db1 db3.
Proof.
  intros (Hr1 & Hc1 & hs1 & ms1 & Hh1 & Hm1 & Hhs1 & Hms1)
         (Hr2 & Hc2 & hs2 & ms2 & Hh2 & Hm2 & Hhs2 & Hms2).
  split; [congruence|]. split; [congruence|]. exists (hs1 ++ hs2), (ms1 ++ ms2).
  rewrite Hh2, Hh1, Hm2, Hm1, <- !app_assoc. split; [done|]. split; [done|]. split.
  - intros h [H|H]%elem_of_app; [by apply Hhs1|by apply Hhs2].
  - intros m [H|H]%elem_of_app.
    + destruct (Hms1 m H) as (h & Hin & E1 & E2). exists h. split; [|done].
      rewrite Hh1, <- app_assoc in Hh2. rewrite <- Hh2, Hh2.
      rewrite Hh1 in Hin. apply elem_of_app in Hin as [Hin|Hin].
      * apply elem_of_app. by left.
      * apply elem_of_app. right. apply elem_of_app. by left.
    + destruct (Hms2 m H) as (h & Hin & E1 & E2). exists h. split; [|done].
      by rewrite Hh2, Hh1, <- app_assoc in Hin.
Qed.

Lemma extends_refl rid db : extends rid db db.
Proof.
  split; [done|]. split; [done|]. exists [], []. rewrite !app_nil_r.
  split; [done|]. split; [done|]. split; [by intros h ?%elem_of_nil|by intros m ?%elem_of_nil].
Qed.

Lemma add_groups_sound rel rid records : forall db db',
  sound db -> rid ∈ (relationship_tbl db).*2 ->
  add_groups rel rid db records = Some db' -> sound db' /\ extends rid db db'.
Proof.
  induction records as [|g records IH]; intros db db' Hs Hrid; simpl.
  - intros [= <-]. split; [done|apply extends_refl].
  - destruct (add_group rel rid db g) as [db1|] eqn:Hadd; [|done]. simpl. intros Hrest.
    destruct (add_group_sound _ _ _ _ _ Hs Hrid Hadd) as [Hs1 He1].
    assert (Hrid1 : rid ∈ (relationship_tbl db1).*2) by (destruct He1 as [-> _]; done).
    destruct (IH _ _ Hs1 Hrid1 Hrest) as [Hs' He']. split; [done|]. by eapply extends_trans.
Qed.

Lemma make_relationship_type_id_sound db t :
  sound db ->
  sound (_make_relationship_type_id db t).1 /\
  (t, (_make_relationship_type_id db t).2) ∈ relationship_tbl (_make_relationship_type_id db t).1 /\
  related_groups (_make_relationship_type_id db t).1 = related_groups db.
Proof.
  intros (S1 & S2 & S3 & S4 & S5). unfold _make_relationship_type_id.
  destruct (_relationship_types db !! t) as [i|] eqn:E; simpl.
  - split; [done|]. split; [by apply S3|done].
  - split; [|split].
    + split_and!; simpl; try done.
      * rewrite fmap_app. apply NoDup_app. split; [done|]. split; [|apply NoDup_singleton].
        intros x Hx Hx'. apply list_elem_of_singleton in Hx'. simpl in Hx'. subst x.
        by apply fresh_id_fresh in Hx.
      * intros t' i'. destruct (decide (t' = t)) as [->|Hne].
        -- rewrite lookup_insert_eq. intros [= <-]. apply elem_of_app. right.
           by apply list_elem_of_singleton.
        -- rewrite lookup_insert_ne by done. intros H. apply elem_of_app. left. by apply S3.
      * intros h Hh. rewrite fmap_app. apply elem_of_app. left. by apply S4.
    + apply elem_of_app. right. by apply list_elem_of_singleton.
    + rewrite !related_groups_blocks. simpl. apply bind_ext_in. intros h Hh.
      unfold block. simpl. rewrite bind_app. simpl. rewrite decide_False.
      * by rewrite app_nil_r.
      * intros Heq. apply (fresh_id_fresh (relationship_tbl db).*2). rewrite <- Heq. by apply S4.
Qed.

Lemma reachable_sound db : reachable db -> sound db.
Proof.
  induction 1 as [|db records t db' _ IH Hadd].
  - split_and!; simpl; try constructor; try done.
    + by intros h ?%elem_of_nil.
    + by intros m ?%elem_of_nil.
  - unfold add_records in Hadd.
    destruct (make_relationship_type_id_sound db t IH) as (Hs & Hin & _).
    destruct (_make_relationship_type_id db t) as [db1 rid]. simpl in *.
    eapply add_groups_sound; [done| |done]. apply list_elem_of_fmap. by exists (t, rid).
Qed.

Lemma nodup_fst_inj (l : list (Z * Z)) h h' :
  NoDup l.*1 -> h ∈ l -> h' ∈ l -> h.1 = h'.1 -> h = h'.
Proof.
  induction l as [|x l IH]; [by intros _ ?%elem_of_nil|].
  rewrite fmap_cons, NoDup_cons. intros [Hx Hnd] H1 H2 E.
  apply elem_of_cons in H1 as [->|H1]; apply elem_of_cons in H2 as [->|H2]; try done.
  - exfalso. apply Hx. rewrite E. apply list_elem_of_fmap. by exists h'.
  - exfalso. apply Hx. rewrite <- E. apply list_elem_of_fmap. by exists h.
  - by apply IH.
Qed.

Lemma block_rows db h row :
  row ∈ block db h ->
  v_homology_id row = h.1 /\ v_relationship_id row = h.2 /\
  (v_homology_type row, h.2) ∈ relationship_tbl db.
Proof.
  intros (r & m & Hr & _ & H2 & _ & ->)%elem_of_block. simpl.
  split; [done|]. split; [done|]. rewrite H2. by destruct r.
Qed.

Lemma block_extends rid db db' h :
  sound db' -> extends rid db db' -> h ∈ homology_tbl db -> h.2 <> rid ->
  block db' h = block db h.
Proof.
  intros (S1 & _) (Hr & _ & hs & ms & Hh & Hm & Hhs & Hms) Hin Hne.
  unfold block. rewrite Hr. apply bind_ext_in. intros r _.
  destruct (decide (h.2 = r.2)); [|done]. rewrite Hm, bind_app.
  rewrite (bind_miss _ ms); [by rewrite app_nil_r|].
  intros m Hmin. rewrite decide_False; [done|]. intros Heq.
  destruct (Hms m Hmin) as (h' & Hin' & E1 & E2).
  assert (h' = h); [|congruence].
  assert (Hin2 : h ∈ homology_tbl db') by (rewrite Hh; apply elem_of_app; by left).
  apply (nodup_fst_inj (homology_tbl db')); [done|done|done|congruence].
Qed.

Lemma filter_view_extends (P : view_row -> Prop) `{!forall r, Decision (P r)} rid db db' :
  sound db' -> extends rid db db' ->
  (forall row, row ∈ related_groups db' -> P row -> v_relationship_id row <> rid) ->
  (forall row, row ∈ related_groups db -> P row -> v_relationship_id row <> rid) ->
  filter P (related_groups db') = filter P (related_groups db).
Proof.
  intros Hs Hext HP' HP. pose proof Hext as (Hr & _ & hs & ms & Hh & Hm & Hhs & Hms).
  rewrite !related_groups_blocks, !filter_bind, Hh, bind_app.
  rewrite (bind_miss _ hs).
  2:{ intros h Hin. apply filter_nil_Forall, Forall_forall. intros row Hrow HProw.
      apply (HP' row); [|done|].
      - rewrite related_groups_blocks. apply list_elem_of_bind. exists h. split; [done|].
        rewrite Hh. apply elem_of_app. by right.
      - apply block_rows in Hrow as (_ & -> & _). by apply Hhs. }
  rewrite app_nil_r. apply bind_ext_in. intros h Hin.
  destruct (decide (h.2 = rid)) as [Heq|Hne].
  - rewrite !(proj2 (filter_nil_Forall _ _)); [done| |].
    + apply Forall_forall. intros row Hrow HProw. apply (HP row); [|done|].
      * rewrite related_groups_blocks. apply list_elem_of_bind. by exists h.
      * apply block_rows in Hrow as (_ & -> & _). done.
    + apply Forall_forall. intros row Hrow HProw. apply (HP' row); [|done|].
      * rewrite related_groups_blocks. apply list_elem_of_bind. exists h. split; [done|].
        rewrite Hh. apply elem_of_app. by left.
      * apply block_rows in Hrow as (_ & -> & _). done.
  - by rewrite (block_extends rid db db' h).
Qed.

Lemma row_type_id db row rid t t' :
  NoDup (relationship_tbl db).*2 -> (t, rid) ∈ relationship_tbl db ->
  row ∈ related_groups db -> v_homology_type row = t' -> t' <> t ->
  v_relationship_id row <> rid.
Proof.
  intros Hnd Ht Hrow Hty Hne Heq. rewrite related_groups_blocks in Hrow.
  apply list_elem_of_bind in Hrow as (h & Hb & _). apply block_rows in Hb as (_ & H2 & H3).
  rewrite <- H2, Heq, Hty in H3. apply Hne. by eapply nodup_snd_inj.
Qed.

(** X21. Relationship types do not mix: adding groups of one type to a
    store that the program built leaves what [get_related_to] and
    [get_related_groups] return for any other type as it was. *)
Theorem add_records_other_type db records t_new t db' :
  reachable db -> t <> t_new ->
  add_records db records t_new = Some db' ->
  (forall gene_id, get_related_to db' gene_id t = get_related_to db gene_id t) /\
  get_related_groups db' t = get_related_groups db t.
Proof.
  intros Hreach Hne Hadd. pose proof (reachable_sound db Hreach) as Hs.
  unfold add_records in Hadd.
  destruct (make_relationship_type_id_sound db t_new Hs) as (Hs1 & Hin1 & Hview1).
  destruct (_make_relationship_type_id db t_new) as [db1 rid]. simpl in *.
  assert (Hrid : rid ∈ (relationship_tbl db1).*2).
  { apply list_elem_of_fmap. by exists (t_new, rid). }
  destruct (add_groups_sound _ _ _ _ _ Hs1 Hrid Hadd) as [Hs' Hext].
  assert (Hin' : (t_new, rid) ∈ relationship_tbl db') by (destruct Hext as [-> _]; done).
  assert (Hty : forall (P : view_row -> Prop) `{!forall r, Decision (P r)},
            (forall r, P r -> v_homology_type r = t) ->
            filter P (related_groups db') = filter P (related_groups db)).
  { intros P ? HP. rewrite <- Hview1. apply (filter_view_extends P rid); [done|done| |].
    - intros row Hrow HProw. apply (row_type_id db' row rid t_new t); try done.
      + apply Hs'.
      + by apply HP.
    - intros row Hrow HProw. apply (row_type_id db1 row rid t_new t); try done.
      + apply Hs1.
      + by apply HP. }
  split.
  - intros gene_id. unfold get_related_to.
    rewrite (Hty (fun r => v_homology_type r = t /\ v_gene_id r = gene_id)) by tauto.
    destruct (filter _ (related_groups db)) as [|r rest] eqn:Hf; [done|].
    assert (Hr : r ∈ filter (fun r => v_homology_type r = t /\ v_gene_id r = gene_id)
                   (related_groups db)) by (rewrite Hf; by left).
    apply list_elem_of_filter in Hr as [[Hrt _] Hr].
    do 3 f_equal. rewrite <- Hview1.
    apply (filter_view_extends _ rid); [done|done| |].
    + intros row Hrow Hid Heq. rewrite <- Hview1 in Hr.
      (* the row [r] of type [t] and [row] share their homology row *)
      rewrite related_groups_blocks in Hrow, Hr.
      apply list_elem_of_bind in Hrow as (h & Hb & Hh).
      apply list_elem_of_bind in Hr as (h0 & Hb0 & Hh0).
      apply block_rows in Hb as (E1 & E2 & E3). apply block_rows in Hb0 as (F1 & F2 & F3).
      assert (h = h0).
      { destruct Hs' as (S1 & _). destruct Hext as (_ & _ & hs & ms & Hhh & _).
        assert (Hh0' : h0 ∈ homology_tbl db') by (rewrite Hhh; apply elem_of_app; by left).
        apply (nodup_fst_inj (homology_tbl db')); [done|done|done|congruence]. }
      subst h0. rewrite Hrt in F3. rewrite E2 in Heq. rewrite Heq in F3.
      apply Hne. destruct Hs1 as (_ & S2 & _). by eapply nodup_snd_inj.
    + intros row Hrow Hid Heq. rewrite <- Hview1 in Hr.
      rewrite related_groups_blocks in Hrow, Hr.
      apply list_elem_of_bind in Hrow as (h & Hb & Hh).
      apply list_elem_of_bind in Hr as (h0 & Hb0 & Hh0).
      apply block_rows in Hb as (E1 & E2 & E3). apply block_rows in Hb0 as (F1 & F2 & F3).
      assert (h = h0).
      { destruct Hs1 as (S1 & _).
        apply (nodup_fst_inj (homology_tbl db1)); [done|done|done|congruence]. }
      subst h0. rewrite Hrt in F3. rewrite E2 in Heq. rewrite Heq in F3.
      apply Hne. destruct Hs1 as (_ & S2 & _). by eapply nodup_snd_inj.
  - unfold get_related_groups. by rewrite (Hty (fun r => v_homology_type r = t)).
Qed.

Lemma add_records_other_type_witness :
  get_related_groups paralogs "para" = [para ["p1"; "p2"]; para ["p3"]] /\
  get_related_groups paralogs_orthologs "ortho" = [ortho ["p1"; "g1"]; ortho ["p3"; "p2"]] /\
  (forall gene_id,
     get_related_to paralogs_orthologs gene_id "para" = get_related_to paralogs gene_id "para") /\
  get_related_groups paralogs_orthologs "para" = get_related_groups paralogs "para".
Proof.
  split; [by vm_compute|]. split; [by vm_compute|].
  apply (add_records_other_type paralogs [ortho ["p1"; "g1"]; ortho ["p3"; "p2"]] "ortho" "para").
  - apply (reachable_add new_store [para ["p1"; "p2"]; para ["p3"]] "para");
      [apply reachable_new|by vm_compute].
  - discriminate.
  - by vm_compute.
Defined.

(** ** Relationship ids *)

(** X22. In a store that the program built, asking
    [_make_relationship_type_id] again for a relationship type returns
    the same id and adds no row, and another type gets another id. *)
Theorem relationship_ids_interned db t t' :
  reachable db ->
  _make_relationship_type_id (_make_relationship_type_id db t).1 t =
    _make_relationship_type_id db t /\
  (t' <> t ->
   (_make_relationship_type_id (_make_relationship_type_id db t).1 t').2 <>
     (_make_relationship_type_id db t).2).
Proof.
  intros Hs%reachable_sound.
  destruct (make_relationship_type_id_sound db t Hs) as (Hs1 & Hin1 & _).
  assert (Hc1 : _relationship_types (_make_relationship_type_id db t).1 !! t =
                Some (_make_relationship_type_id db t).2).
  { unfold _make_relationship_type_id. destruct (_relationship_types db !! t) eqn:E; simpl; [done|].
    by rewrite lookup_insert_eq. }
  destruct (_make_relationship_type_id db t) as [db1 i]. simpl in *. split.
  - unfold _make_relationship_type_id. by rewrite Hc1.
  - intros Hne. destruct (make_relationship_type_id_sound db1 t' Hs1) as (_ & Hin2 & _).
    unfold _make_relationship_type_id in *.
    destruct (_relationship_types db1 !! t') as [j|] eqn:E; simpl in *.
    + intros Heq. subst j. apply Hne. destruct Hs1 as (_ & S2 & _).
      exact (nodup_snd_inj _ t' t i S2 Hin2 Hin1).
    + intros Heq. apply (fresh_id_fresh (relationship_tbl db1).*2). rewrite Heq.
      apply list_elem_of_fmap. eexists. split; [|apply Hin1]. done.
Qed.

Lemma relationship_ids_interned_witness :
  _make_relationship_type_id (_make_relationship_type_id new_store "ortho").1 "ortho" =
    _make_relationship_type_id new_store "ortho" /\
  (_make_relationship_type_id (_make_relationship_type_id new_store "ortho").1 "para").2 <>
    (_make_relationship_type_id new_store "ortho").2.
Proof.
  destruct (relationship_ids_interned new_store "ortho" "para" reachable_new) as [H1 H2].
  split; [exact H1|]. apply H2. discriminate.
Defined.

(** ** From a file to a store *)

Lemma add_feature_spans db feature :
  spans feature <> [] -> storable feature -> is_Some (add_feature db feature).
Proof.
  intros Hsp Hfit.
  destruct (add_feature_accepts db feature) as (db' & feature' & _ & -> & _);
    [by right | by right | done | by eexists].
Qed.

Lemma add_feature_storable db feature db' feature' :
  storable feature -> add_feature db feature = Some (db', feature') -> storable feature'.
Proof.
  intros (_ & _ & Hsp). unfold add_feature.
  destruct (if decide (start feature = 0) then _ else _) as [start1|]; [|done].
  destruct (if decide (stop feature = 0) then _ else _) as [stop1|]; [|done]. simpl.
  destruct (_get_biotype_id db (biotype _)). case_decide as Hfit; [|done].
  intros [= <- <-]. destruct Hfit as [H1 H2]. by split_and!.
Qed.

Lemma add_feature_keeps db feature db' feature' :
  add_feature db feature = Some (db', feature') ->
  spans feature' = spans feature /\ name feature' = name feature.
Proof.
  unfold add_feature.
  destruct (if decide (start feature = 0) then _ else _) as [start1|]; [|done].
  destruct (if decide (stop feature = 0) then _ else _) as [stop1|]; [|done]. simpl.
  destruct (_get_biotype_id db (biotype _)). case_decide; [|done]. by intros [= <- <-].
Qed.

Lemma dict_set_elem {K} `{EqDecision K} {V} (k : K) (v : V) d e :
  e ∈ dict_set k v d -> e = (k, v) \/ e ∈ d.
Proof.
  induction d as [|[k0 v0] d IH]; cbn [dict_set].
  - intros ->%list_elem_of_singleton. by left.
  - destruct (decide (k = k0)) as [->|].
    + intros [->|H]%elem_of_cons; [by left|]. right. by right.
    + intros [->|H]%elem_of_cons; [right; by left|].
      destruct (IH H) as [->|H']; [by left|]. right. by right.
Qed.

Lemma gene_step_in_range n related st c st' :
  in_range n st -> gene_step related st c = Some st' -> in_range n st'.
Proof.
  intros (Hlen & Hsp & Hsets & Hgenes). unfold gene_step.
  destruct (recs st !! c) as [cds_record|] eqn:Hc; [|done]. simpl.
  destruct (dict_get "mrna" related) as [mrnas|]; [|done]. simpl.
  destruct (dict_get (parent_id cds_record) mrnas) as [m|]; [|done]. simpl.
  destruct (recs st !! m) as [mrna_record|] eqn:Hm; [|done]. simpl.
  set (recs1 := if is_canonical mrna_record then _ else recs st).
  assert (Hlen1 : length recs1 = n).
  { unfold recs1. destruct (is_canonical mrna_record); [|done]. by rewrite length_alter. }
  assert (Hsp1 : Forall (fun r => spans r <> []) recs1).
  { unfold recs1. destruct (is_canonical mrna_record); [|done].
    apply Forall_alter; [done|]. by intros r _ Hr. }
  destruct (dict_get "gene" related) as [genes_by_name|]; [|done]. simpl.
  destruct (dict_get (parent_id mrna_record) genes_by_name) as [g|]; [|done]. simpl.
  destruct (recs1 !! g) as [gene|] eqn:Hg; [|done]. simpl.
  assert (Hcn : (c < n)%nat) by (apply lookup_lt_Some in Hc; lia).
  assert (Hmn : (m < n)%nat) by (apply lookup_lt_Some in Hm; lia).
  assert (Hgn : (g < n)%nat) by (apply lookup_lt_Some in Hg; lia).
  assert (Hadd : forall s, Forall (fun i => (i < n)%nat) s ->
            Forall (fun i => (i < n)%nat) (set_add_record recs1 m (set_add_record recs1 c s))).
  { intros s Hs. unfold set_add_record.
    destruct (existsb _ s).
    - destruct (existsb _ s); [done|]. apply Forall_app. split; [done|]. by constructor.
    - destruct (existsb _ (s ++ [c])).
      + apply Forall_app. split; [done|]. by constructor.
      + apply Forall_app. split; [|by constructor]. apply Forall_app. split; [done|].
        by constructor. }
  destruct (dict_get (Some (stableid gene)) (genes st)) as [[g1 ref]|] eqn:Hlook;
    intros [= <-]; (split; [done|]; split; [done|]; split).
  - simpl. apply Forall_alter; [done|]. intros s _ Hs. by apply Hadd.
  - simpl. apply Forall_forall. intros e He.
    destruct (dict_get (name gene) (genes st)) as [[g0 ref0]|] eqn:Hname.
    + apply dict_set_elem in He as [->|He]; [|rewrite Forall_forall in Hgenes; by apply Hgenes].
      simpl. apply dict_get_Some_elem in Hname. rewrite Forall_forall in Hgenes.
      by apply (Hgenes _ Hname).
    + apply dict_set_elem in He as [->|He]; [done|].
      rewrite Forall_forall in Hgenes. by apply Hgenes.
  - simpl. apply Forall_alter.
    + apply Forall_app. split; [done|]. by repeat constructor.
    + intros s _ Hs. by apply Hadd.
  - simpl. apply Forall_forall. intros e He.
    destruct (dict_get (name gene) (genes st)) as [[g0 ref0]|] eqn:Hname.
    + apply dict_set_elem in He as [->|He]; [|rewrite Forall_forall in Hgenes; by apply Hgenes].
      simpl. apply dict_get_Some_elem in Hname. rewrite Forall_forall in Hgenes.
      by apply (Hgenes _ Hname).
    + apply dict_set_elem in He as [->|He]; [done|].
      rewrite Forall_forall in Hgenes. by apply Hgenes.
Qed.

Lemma gene_loop_in_range n related cs : forall st st',
  in_range n st -> gene_loop related st cs = Some st' -> in_range n st'.
Proof.
  induction cs as [|c cs IH]; intros st st' Hin; simpl.
  - by intros [= <-].
  - destruct (gene_step related st c) as [st1|] eqn:Hstep; [|done]. simpl.
    apply IH. by eapply gene_step_in_range.
Qed.

Lemma make_gene_relationships_in_range records st :
  Forall (fun r => spans r <> []) records ->
  make_gene_relationships records = Some st -> in_range (length records) st.
Proof.
  intros Hsp. unfold make_gene_relationships.
  destruct (dict_get "cds" (bucket records)) as [cds|]; [|done]. simpl.
  apply gene_loop_in_range. split; [done|]. split; [done|]. split; constructor.
Qed.

Lemma parser_spans_nonempty lines n :
  Forall (fun kr => spans kr.2 <> []) (custom_gff_parser lines n).1.
Proof.
  assert (H : Forall (fun kr => name kr.2 = Some kr.1 /\ spans kr.2 <> [])
                (custom_gff_parser lines n).1).
  { induction lines as [|l lines IH] using rev_ind; [constructor|].
    rewrite parser_app. destruct (custom_gff_parser lines n) as [reduced m].
    by destruct (parser_step_spans reduced m l IH). }
  eapply Forall_impl; [done|]. simpl. tauto.
Qed.

Lemma gene_loop_names related cs : forall st st',
  gene_loop related st cs = Some st' -> name <$> recs st' = name <$> recs st.
Proof.
  induction cs as [|c cs IH]; intros st st'; simpl.
  - by intros [= <-].
  - destruct (gene_step related st c) as [st1|] eqn:Hstep; [|done]. simpl. intros Hloop.
    rewrite (IH _ _ Hloop). clear IH Hloop. unfold gene_step in Hstep.
    destruct (recs st !! c) as [cds_record|]; [|done]. simpl in Hstep.
    destruct (dict_get "mrna" related) as [mrnas|]; [|done]. simpl in Hstep.
    destruct (dict_get (parent_id cds_record) mrnas) as [m|]; [|done]. simpl in Hstep.
    destruct (recs st !! m) as [mrna_record|]; [|done]. simpl in Hstep.
    destruct (dict_get "gene" related) as [genes_by_name|]; [|done]. simpl in Hstep.
    destruct (dict_get (parent_id mrna_record) genes_by_name) as [g|]; [|done]. simpl in Hstep.
    destruct ((if is_canonical mrna_record then _ else recs st) !! g) as [gene|]; [|done].
    simpl in Hstep.
    assert (Hn : name <$> (if is_canonical mrna_record
              then alter (set_attrs ("Ensembl_canonical;" +:+ attrs cds_record)) c (recs st)
              else recs st) = name <$> recs st).
    { destruct (is_canonical mrna_record); [|done].
      apply list_eq. intros i. rewrite !list_lookup_fmap.
      destruct (decide (i = c)) as [->|Hne].
      - rewrite list_lookup_alter_eq. by destruct (recs st !! c).
      - by rewrite list_lookup_alter_ne. }
    destruct (dict_get (Some (stableid gene)) (genes st)) as [[g1 ref]|];
      injection Hstep as <-; exact Hn.
Qed.

Lemma stableid_by_name (l : list EnsemblGffRecord) : forall l',
  name <$> l = name <$> l' -> stableid <$> l = stableid <$> l'.
Proof.
  induction l as [|x l IH]; intros [|y l'] H; try done.
  rewrite !fmap_cons in *. injection H as Hx Hl. f_equal; [|by apply IH].
  unfold stableid. by rewrite Hx.
Qed.

Lemma gene_loop_coords related cs : forall st st',
  gene_loop related st cs = Some st' ->
  (fun r => (start r, stop r, spans r)) <$> recs st' =
  (fun r => (start r, stop r, spans r)) <$> recs st.
Proof.
  induction cs as [|c cs IH]; intros st st'; simpl.
  - by intros [= <-].
  - destruct (gene_step related st c) as [st1|] eqn:Hstep; [|done]. simpl. intros Hloop.
    rewrite (IH _ _ Hloop). clear IH Hloop. unfold gene_step in Hstep.
    destruct (recs st !! c) as [cds_record|]; [|done]. simpl in Hstep.
    destruct (dict_get "mrna" related) as [mrnas|]; [|done]. simpl in Hstep.
    destruct (dict_get (parent_id cds_record) mrnas) as [m|]; [|done]. simpl in Hstep.
    destruct (recs st !! m) as [mrna_record|]; [|done]. simpl in Hstep.
    destruct (dict_get "gene" related) as [genes_by_name|]; [|done]. simpl in Hstep.
    destruct (dict_get (parent_id mrna_record) genes_by_name) as [g|]; [|done]. simpl in Hstep.
    destruct ((if is_canonical mrna_record then _ else recs st) !! g) as [gene|]; [|done].
    simpl in Hstep.
    assert (Hn : (fun r => (start r, stop r, spans r)) <$> (if is_canonical mrna_record
              then alter (set_attrs ("Ensembl_canonical;" +:+ attrs cds_record)) c (recs st)
              else recs st) = (fun r => (start r, stop r, spans r)) <$> recs st).
    { destruct (is_canonical mrna_record); [|done].
      apply list_eq. intros i. rewrite !list_lookup_fmap.
      destruct (decide (i = c)) as [->|Hne].
      - rewrite list_lookup_alter_eq. by destruct (recs st !! c).
      - by rewrite list_lookup_alter_ne. }
    destruct (dict_get (Some (stableid gene)) (genes st)) as [[g1 ref]|];
      injection Hstep as <-; exact Hn.
Qed.

Lemma storable_by_coords (l : list EnsemblGffRecord) : forall l',
  (fun r => (start r, stop r, spans r)) <$> l = (fun r => (start r, stop r, spans r)) <$> l' ->
  Forall storable l' -> Forall storable l.
Proof.
  induction l as [|x l IH]; intros [|y l'] H Hall; try done.
  rewrite !fmap_cons in H. injection H as Hs Ht Hsp Hl.
  apply Forall_cons in Hall as [Hy Hall]. constructor; [|by apply (IH l')].
  unfold storable in *. by rewrite Hs, Ht, Hsp.
Qed.

Lemma add_features_seq m : forall k db objects db' objects',
  (k + m <= length objects)%nat ->
  add_features db objects (seq k m) = Some (db', objects') ->
  length objects' = length objects /\
  (forall i, (i < k)%nat -> objects' !! i = objects !! i) /\
  (forall i, (k <= i < k + m)%nat ->
     exists r' fid, objects' !! i = Some r' /\ feature_id r' = Some fid /\
       fid ∈ (f_id <$> feature_tbl db')) /\
  name <$> objects' = name <$> objects /\
  f_stableid <$> feature_tbl db' =
    (f_stableid <$> feature_tbl db) ++ (stableid <$> take m (drop k objects)) /\
  (forall fid, fid ∈ (f_id <$> feature_tbl db) -> fid ∈ (f_id <$> feature_tbl db')).
Proof.
  induction m as [|m IH]; intros k db objects db' objects' Hlen.
  - simpl. intros [= <- <-]. split_and!; try done.
    + intros i Hi. lia.
    + by rewrite app_nil_r.
  - cbn [seq add_features].
    destruct (lookup_lt_is_Some_2 objects k ltac:(lia)) as [record Hk]. rewrite Hk. simpl.
    destruct (add_feature db record) as [[db1 r1]|] eqn:Hadd; [|done]. simpl. intros Hrun.
    destruct (add_feature_keeps _ _ _ _ Hadd) as [Hsp1 Hname1].
    apply add_feature_unfold in Hadd as (row & _ & _ & Hf & _ & Hst & _ & Hfid).
    destruct (IH (S k) db1 (<[k := r1]> objects) db' objects') as
      (Hlen' & Hbefore & Hdone & Hnames & Hrows & Hmono).
    { rewrite length_insert. lia. }
    { done. }
    rewrite length_insert in Hlen'.
    split; [done|]. split_and!.
    + intros i Hi. rewrite Hbefore by lia. apply list_lookup_insert_ne. lia.
    + intros i Hi. destruct (decide (i = k)) as [->|Hne].
      * exists r1, (f_id row). rewrite Hbefore by lia.
        rewrite list_lookup_insert_eq by lia. split; [done|]. split; [done|].
        apply Hmono. rewrite Hf, fmap_app. apply elem_of_app. right. by left.
      * apply Hdone. lia.
    + rewrite Hnames. apply list_eq. intros i. rewrite !list_lookup_fmap.
      destruct (decide (i = k)) as [->|Hne].
      * rewrite list_lookup_insert_eq by lia. rewrite Hk. simpl. by rewrite Hname1.
      * by rewrite list_lookup_insert_ne.
    + rewrite Hrows, Hf, fmap_app, <- app_assoc. f_equal.
      rewrite (drop_S objects record k Hk). cbn [take fmap list_fmap].
      rewrite drop_insert_lt by lia. simpl. by rewrite Hst.
    + intros fid Hin. apply Hmono. rewrite Hf, fmap_app. apply elem_of_app. by left.
Qed.

(** No call of [add_feature] raises on records that have a span and
    coordinates that sqlite can hold. *)
Lemma add_features_succeed m : forall k db objects,
  Forall (fun r => spans r <> [] /\ storable r) objects -> (k + m <= length objects)%nat ->
  is_Some (add_features db objects (seq k m)).
Proof.
  induction m as [|m IH]; intros k db objects Hall Hlen; [by eexists|].
  cbn [seq add_features].
  destruct (lookup_lt_is_Some_2 objects k ltac:(lia)) as [record Hk]. rewrite Hk. simpl.
  assert (Hrec : spans record <> [] /\ storable record).
  { rewrite Forall_forall in Hall. apply Hall. by eapply list_elem_of_lookup_2. }
  destruct Hrec as [Hsp Hst].
  destruct (add_feature_spans db record Hsp Hst) as [[db1 r1] Hadd]. rewrite Hadd. simpl.
  apply IH; [|rewrite length_insert; lia].
  apply Forall_insert; [done|]. destruct (add_feature_keeps _ _ _ _ Hadd) as [Hsp1 _].
  split; [by rewrite Hsp1|]. by eapply add_feature_storable.
Qed.

(** Once the features are stored, the second loop of
    [EnsemblGffDb.add_records] raises no [ValueError]. *)
Lemma make_annotation_db_run lines related db' objects' :
  make_gene_relationships (custom_gff_parser lines 0).1.*2 = Some related ->
  add_features empty_db (recs related) (seq 0 (length (custom_gff_parser lines 0).1)) =
    Some (db', objects') ->
  exists store,
    make_annotation_db lines = Some store /\
    f_stableid <$> feature_tbl (features store) =
      (fun kr => stableid kr.2) <$> (custom_gff_parser lines 0).1 /\
    GenomeDb.num_records (features store) =
      Z.of_nat (length (custom_gff_parser lines 0).1) /\
    forall e, e ∈ related_feature_tbl store ->
      e.1 ∈ (f_id <$> feature_tbl (features store)) /\
      e.2 ∈ (f_id <$> feature_tbl (features store)).
Proof.
  intros Hrel Hrun. unfold make_annotation_db. rewrite Hrel. simpl.
  assert (Hsp0 : Forall (fun r => spans r <> []) (custom_gff_parser lines 0).1.*2).
  { apply Forall_fmap. apply parser_spans_nonempty. }
  pose proof (make_gene_relationships_in_range _ _ Hsp0 Hrel) as (Hlen & Hsp & Hsets & Hgenes).
  rewrite length_fmap in Hlen, Hsets, Hgenes.
  set (n := length (custom_gff_parser lines 0).1) in *.
  assert (Hnames : name <$> recs related = name <$> (custom_gff_parser lines 0).1.*2).
  { unfold make_gene_relationships in Hrel.
    destruct (dict_get "cds" _) as [cds|]; [|done]. simpl in Hrel.
    by rewrite (gene_loop_names _ _ _ _ Hrel). }
  destruct (add_features_seq n 0 empty_db (recs related) db' objects' ltac:(lia) Hrun)
    as (Hlen' & _ & Hdone & _ & Hrows & _).
  unfold GenomeDb.add_records. cbn [features related_feature_tbl]. rewrite Hrun. simpl.
  assert (Hid : forall i, (i < n)%nat ->
            exists fid, objects' !! i ≫= feature_id = Some fid /\
              fid ∈ (f_id <$> feature_tbl db')).
  { intros i Hi. destruct (Hdone i ltac:(lia)) as (r' & fid & Hr' & Hf & Hin).
    exists fid. by rewrite Hr'. }
  assert (Hentry : forall e, e ∈ genes related ->
            exists rows, related_rows objects' (sets related) e = Some rows /\
              forall x, x ∈ rows -> x.1 ∈ (f_id <$> feature_tbl db') /\
                                    x.2 ∈ (f_id <$> feature_tbl db')).
  { intros [k [g ref]] He. unfold related_rows.
    rewrite Forall_forall in Hgenes. specialize (Hgenes _ He). simpl in Hgenes.
    destruct (Hid g Hgenes) as (gid & Hg & Hgin).
    destruct (objects' !! g) as [gene|]; [|done]. simpl in *. rewrite Hg. simpl.
    assert (Hkids : Forall (fun c => (c < n)%nat) (default [] (sets related !! ref))).
    { destruct (sets related !! ref) as [s|] eqn:Hs; [|constructor]. simpl.
      rewrite Forall_forall in Hsets. apply Hsets. by eapply list_elem_of_lookup_2. }
    assert (Hm : exists ids,
              mapM (fun c => objects' !! c ≫= feature_id) (default [] (sets related !! ref))
                = Some ids /\ Forall (fun c => c ∈ (f_id <$> feature_tbl db')) ids).
    { induction Hkids as [|c cs Hc Hcs IH].
      - by exists [].
      - destruct IH as (ids & Hids & Hall). destruct (Hid c Hc) as (cid & Hcid & Hcin).
        exists (cid :: ids). cbn [mapM]. rewrite Hcid. simpl. rewrite Hids. simpl.
        split; [done|]. by constructor. }
    destruct Hm as (ids & -> & Hall). simpl. eexists. split; [done|].
    intros x (c & -> & Hc)%list_elem_of_fmap. simpl. split; [done|].
    rewrite Forall_forall in Hall. by apply Hall. }
  assert (Hall : exists rows : list (list (Z * Z)),
            mapM (related_rows objects' (sets related)) (genes related) = Some rows /\
            forall x : Z * Z, x ∈ mjoin rows -> x.1 ∈ (f_id <$> feature_tbl db') /\
                                        x.2 ∈ (f_id <$> feature_tbl db')).
  { clear Hgenes. revert Hentry. generalize (genes related). intros gs Hentry.
    induction gs as [|e es IH].
    - exists []. split; [done|]. by intros x ?%elem_of_nil.
    - destruct IH as (rows & Hrows' & Hin). { intros e' He'. apply Hentry. by right. }
      destruct (Hentry e ltac:(by left)) as (row & Hrow & Hrin).
      exists (row :: rows). cbn [mapM]. rewrite Hrow. simpl. rewrite Hrows'. simpl.
      split; [done|]. intros x [Hx|Hx]%elem_of_app; [by apply Hrin|by apply Hin]. }
  destruct Hall as (rows & -> & Hin). simpl. eexists. split; [done|]. simpl.
  split_and!.
  - rewrite Hrows. simpl. rewrite drop_0, take_ge by lia.
    rewrite (stableid_by_name _ _ Hnames). by rewrite <- list_fmap_compose.
  - unfold GenomeDb.num_records. f_equal.
    assert (Hl : length (f_stableid <$> feature_tbl db') = n).
    { rewrite Hrows. simpl. rewrite drop_0, length_fmap, take_ge by lia. lia. }
    by rewrite length_fmap in Hl.
  - done.
Qed.

(** What the store that [make_annotation_db] writes holds. *)
Lemma make_annotation_db_facts lines store :
  make_annotation_db lines = Some store ->
  f_stableid <$> feature_tbl (features store) =
    (fun kr => stableid kr.2) <$> (custom_gff_parser lines 0).1 /\
  GenomeDb.num_records (features store) =
    Z.of_nat (length (custom_gff_parser lines 0).1) /\
  forall e, e ∈ related_feature_tbl store ->
    e.1 ∈ (f_id <$> feature_tbl (features store)) /\
    e.2 ∈ (f_id <$> feature_tbl (features store)).
Proof.
  intros Hmk. pose proof Hmk as Hmk0. unfold make_annotation_db in Hmk.
  destruct (make_gene_relationships (custom_gff_parser lines 0).1.*2) as [related|] eqn:Hrel;
    [|done].
  simpl in Hmk. unfold GenomeDb.add_records in Hmk. cbn [features related_feature_tbl] in Hmk.
  destruct (add_features empty_db (recs related) _) as [[db' objects']|] eqn:Hrun; [|done].
  destruct (make_annotation_db_run lines related db' objects' Hrel Hrun)
    as (store' & Hmk' & Hfacts).
  rewrite Hmk0 in Hmk'. by injection Hmk' as <-.
Qed.

(** X24. On lines whose coordinates sqlite can hold,
    [make_annotation_db] raises only where [make_gene_relationships]
    does: otherwise every record of the file is stored, one feature row
    each and in reading order, no call of [add_feature] fails, no gene
    or child is left without a [feature_id], and both ids of every row
    of [related_feature] are ids of stored features. *)
Theorem make_annotation_db_stores lines :
  Forall line_fits lines ->
  match make_gene_relationships (custom_gff_parser lines 0).1.*2 with
  | None => make_annotation_db lines = None
  | Some related =>
      exists store,
        make_annotation_db lines = Some store /\
        f_stableid <$> feature_tbl (features store) =
          (fun kr => stableid kr.2) <$> (custom_gff_parser lines 0).1 /\
        GenomeDb.num_records (features store) =
          Z.of_nat (length (custom_gff_parser lines 0).1) /\
        forall e, e ∈ related_feature_tbl store ->
          e.1 ∈ (f_id <$> feature_tbl (features store)) /\
          e.2 ∈ (f_id <$> feature_tbl (features store))
  end.
Proof.
  intros Hfit.
  destruct (make_gene_relationships (custom_gff_parser lines 0).1.*2) as [related|] eqn:Hrel.
  2:{ unfold make_annotation_db. by rewrite Hrel. }
  assert (Hsp0 : Forall (fun r => spans r <> []) (custom_gff_parser lines 0).1.*2).
  { apply Forall_fmap. apply parser_spans_nonempty. }
  pose proof (make_gene_relationships_in_range _ _ Hsp0 Hrel) as (Hlen & Hsp & _).
  rewrite length_fmap in Hlen.
  assert (Hst : Forall storable (recs related)).
  { apply (storable_by_coords _ (custom_gff_parser lines 0).1.*2).
    - unfold make_gene_relationships in Hrel.
      destruct (dict_get "cds" _) as [cds|]; [|done]. simpl in Hrel.
      by rewrite (gene_loop_coords _ _ _ _ Hrel).
    - apply Forall_fmap. by apply parser_storable. }
  destruct (add_features_succeed (length (custom_gff_parser lines 0).1) 0 empty_db (recs related))
    as [[db' objects'] Hrun].
  { apply Forall_forall. intros r Hr. rewrite Forall_forall in Hsp, Hst. split; auto. }
  { lia. }
  by apply (make_annotation_db_run lines related db' objects').
Qed.

Lemma make_annotation_db_stores_witness :
  exists store,
    make_annotation_db two_transcripts = Some store /\
    f_stableid <$> feature_tbl (features store) = ["G"; "T1"; "C1"; "T2"; "C2"] /\
    GenomeDb.num_records (features store) = 5.
Proof.
  assert (Hrel : is_Some (make_gene_relationships (custom_gff_parser two_transcripts 0).1.*2))
    by (vm_compute; by eexists).
  destruct Hrel as [related Hrel].
  pose proof (make_annotation_db_stores two_transcripts) as H. rewrite Hrel in H.
  destruct H as (store & Hmk & Hids & Hnum & _).
  { apply (bool_decide_unpack _). vm_compute. exact I. }
  exists store. split; [exact Hmk|]. split; [rewrite Hids|rewrite Hnum]; vm_compute; reflexivity.
Defined.

(** ** The canonical marker *)

Lemma canonical_prefix s : contains "Ensembl_canonical" ("Ensembl_canonical;" +:+ s) = true.
Proof. by destruct s. Qed.

Lemma gene_step_marked records related st c st' :
  marked records st -> gene_step related st c = Some st' ->
  marked records st' /\
  forall r0 mrnas m m0,
    records !! c = Some r0 -> dict_get "mrna" related = Some mrnas ->
    dict_get (parent_id r0) mrnas = Some m -> records !! m = Some m0 ->
    is_canonical m0 = true ->
    exists r, recs st' !! c = Some r /\ is_canonical r = true.
Proof.
  intros [Hlen Hmark]. unfold gene_step.
  destruct (recs st !! c) as [cds_record|] eqn:Hc; [|done]. simpl.
  destruct (dict_get "mrna" related) as [mrnas|] eqn:Hmr; [|done]. simpl.
  destruct (dict_get (parent_id cds_record) mrnas) as [m|] eqn:Hm; [|done]. simpl.
  destruct (recs st !! m) as [mrna_record|] eqn:Hmrec; [|done]. simpl.
  set (recs1 := if is_canonical mrna_record then _ else recs st).
  destruct (dict_get "gene" related) as [genes_by_name|]; [|done]. simpl.
  destruct (dict_get (parent_id mrna_record) genes_by_name) as [g|]; [|done]. simpl.
  destruct (recs1 !! g) as [gene|] eqn:Hg; [|done]. simpl.
  assert (Hrecs : recs st' = recs1 -> marked records st' /\
    forall r0 mrnas0 m' m0,
      records !! c = Some r0 -> Some mrnas = Some mrnas0 ->
      dict_get (parent_id r0) mrnas0 = Some m' -> records !! m' = Some m0 ->
      is_canonical m0 = true ->
      exists r, recs st' !! c = Some r /\ is_canonical r = true).
  { intros Heq. unfold marked. rewrite Heq. split.
    - split.
      + unfold recs1. destruct (is_canonical mrna_record); [|done]. by rewrite length_alter.
      + intros i r0 Hi. destruct (Hmark i r0 Hi) as (r & Hr & Hp & Hn & Hcan).
        unfold recs1. destruct (is_canonical mrna_record); [|by exists r].
        destruct (decide (i = c)) as [->|Hne].
        * rewrite list_lookup_alter_eq, Hr. simpl. eexists. split; [reflexivity|]. simpl.
          split; [done|]. split; [done|]. intros _. apply canonical_prefix.
        * rewrite list_lookup_alter_ne by done. by exists r.
    - intros r0 mrnas0 m' m0 Hr0 [= <-] Hm' Hm0 Hcan.
      destruct (Hmark c r0 Hr0) as (r & Hr & Hp & _). rewrite Hc in Hr. injection Hr as <-.
      rewrite Hp, Hm' in Hm. injection Hm as <-.
      destruct (Hmark m' m0 Hm0) as (r' & Hr' & _ & _ & Hcan'). rewrite Hmrec in Hr'.
      injection Hr' as <-. unfold recs1. rewrite (Hcan' Hcan).
      rewrite list_lookup_alter_eq, Hc. simpl. eexists. split; [reflexivity|].
      apply canonical_prefix. }
  destruct (dict_get (Some (stableid gene)) (genes st)) as [[g1 ref]|];
    intros [= <-]; by apply Hrecs.
Qed.

Lemma gene_loop_marked records related cs : forall st st',
  marked records st -> gene_loop related st cs = Some st' ->
  marked records st' /\
  forall c r0 mrnas m m0,
    c ∈ cs -> records !! c = Some r0 -> dict_get "mrna" related = Some mrnas ->
    dict_get (parent_id r0) mrnas = Some m -> records !! m = Some m0 ->
    is_canonical m0 = true ->
    exists r, recs st' !! c = Some r /\ is_canonical r = true.
Proof.
  induction cs as [|c cs IH]; intros st st' Hmark; simpl.
  - intros [= <-]. split; [done|]. by intros c r0 mrnas m m0 ?%elem_of_nil.
  - destruct (gene_step related st c) as [st1|] eqn:Hstep; [|done]. simpl. intros Hloop.
    destruct (gene_step_marked _ _ _ _ _ Hmark Hstep) as [Hmark1 Hc].
    destruct (IH _ _ Hmark1 Hloop) as [Hmark' Hcs]. split; [done|].
    intros c' r0 mrnas m m0 [->|Hin]%elem_of_cons Hr0 Hmr Hm Hm0 Hcan.
    + destruct (Hc r0 mrnas m m0 Hr0 Hmr Hm Hm0 Hcan) as (r1 & Hr1 & Hcan1).
      (* later turns keep the marker *)
      clear -Hloop Hr1 Hcan1. revert st1 r1 Hloop Hr1 Hcan1.
      induction cs as [|c2 cs IH]; intros st1 r1 Hloop Hr1 Hcan1; simpl in Hloop.
      * injection Hloop as <-. by exists r1.
      * destruct (gene_step related st1 c2) as [st2|] eqn:Hstep2; [|done]. simpl in Hloop.
        assert (H2 : exists r2, recs st2 !! c = Some r2 /\ is_canonical r2 = true).
        { clear -Hstep2 Hr1 Hcan1. unfold gene_step in Hstep2.
          destruct (recs st1 !! c2) as [cds_record|] eqn:Hc2; [|done]. simpl in Hstep2.
          destruct (dict_get "mrna" related) as [mrnas|]; [|done]. simpl in Hstep2.
          destruct (dict_get (parent_id cds_record) mrnas) as [m|]; [|done]. simpl in Hstep2.
          destruct (recs st1 !! m) as [mrna_record|]; [|done]. simpl in Hstep2.
          destruct (dict_get "gene" related) as [genes_by_name|]; [|done]. simpl in Hstep2.
          destruct (dict_get (parent_id mrna_record) genes_by_name) as [g|]; [|done].
          simpl in Hstep2.
          destruct ((if is_canonical mrna_record then _ else recs st1) !! g) as [gene|];
            [|done]. simpl in Hstep2.
          assert (H : exists r2,
            (if is_canonical mrna_record
             then alter (set_attrs ("Ensembl_canonical;" +:+ attrs cds_record)) c2 (recs st1)
             else recs st1) !! c = Some r2 /\ is_canonical r2 = true).
          { destruct (is_canonical mrna_record); [|by exists r1].
            destruct (decide (c = c2)) as [->|Hne].
            - rewrite list_lookup_alter_eq, Hc2. simpl. eexists. split; [reflexivity|].
              apply canonical_prefix.
            - rewrite list_lookup_alter_ne by done. by exists r1. }
          destruct (dict_get (Some (stableid gene)) (genes st1)) as [[g1 ref]|];
            injection Hstep2 as <-; exact H. }
        destruct H2 as (r2 & Hr2 & Hcan2). by apply (IH st2 r2).
    + by eapply Hcs.
Qed.

(** X27. [make_gene_relationships] hands the canonical marker down: in
    the records it leaves behind, every coding sequence whose parent
    transcript was canonical on entry is canonical, and no record has
    lost its name, its parent id or its marker. *)
Theorem canonical_marker_propagates records st :
  make_gene_relationships records = Some st ->
  (forall cds mrnas c r0 m m0,
     dict_get "cds" (bucket records) = Some cds -> c ∈ cds.*2 ->
     records !! c = Some r0 ->
     dict_get "mrna" (bucket records) = Some mrnas ->
     dict_get (parent_id r0) mrnas = Some m -> records !! m = Some m0 ->
     is_canonical m0 = true ->
     exists r, recs st !! c = Some r /\ is_canonical r = true) /\
  length (recs st) = length records /\
  (forall i r0, records !! i = Some r0 ->
     exists r, recs st !! i = Some r /\ parent_id r = parent_id r0 /\ name r = name r0 /\
       (is_canonical r0 = true -> is_canonical r = true)).
Proof.
  unfold make_gene_relationships.
  destruct (dict_get "cds" (bucket records)) as [cds0|] eqn:Hcds; [|done]. simpl. intros Hloop.
  assert (Hm0 : marked records {| recs := records; sets := []; genes := [] |}).
  { split; [done|]. intros i r0 Hi. by exists r0. }
  destruct (gene_loop_marked records _ _ _ _ Hm0 Hloop) as [[Hlen Hmark] Hcs].
  split; [|by split].
  intros cds mrnas c r0 m m0 [= <-] Hc Hr0 Hmr Hm Hm0' Hcan. by eapply Hcs.
Qed.

Lemma canonical_marker_propagates_witness :
  exists st r,
    make_gene_relationships
      (custom_gff_parser
         [gff_line "gene" "ID=gene:G" 1 100;
          gff_line "mRNA" "ID=transcript:T1;Parent=gene:G;tag=Ensembl_canonical" 1 50;
          gff_line "CDS" "ID=CDS:C1;Parent=transcript:T1" 1 50] 0).1.*2 = Some st /\
    recs st !! 2%nat = Some r /\ is_canonical r = true.
Proof.
  assert (Hst : exists st,
    make_gene_relationships
      (custom_gff_parser
         [gff_line "gene" "ID=gene:G" 1 100;
          gff_line "mRNA" "ID=transcript:T1;Parent=gene:G;tag=Ensembl_canonical" 1 50;
          gff_line "CDS" "ID=CDS:C1;Parent=transcript:T1" 1 50] 0).1.*2 = Some st)
    by (vm_compute; eexists; reflexivity).
  destruct Hst as [st Hst].
  destruct (canonical_marker_propagates _ st Hst) as (H & _ & _).
  edestruct H with (c := 2%nat) (m := 1%nat) as (r & Hr & Hcan).
  - vm_compute. reflexivity.
  - vm_compute. apply list_elem_of_here.
  - vm_compute. reflexivity.
  - vm_compute. reflexivity.
  - vm_compute. reflexivity.
  - vm_compute. reflexivity.
  - vm_compute. reflexivity.
  - exists st, r. split; [exact Hst|]. split; [exact Hr|exact Hcan].
Defined.

(** ** What the attributes give *)

Lemma take_until_free sep s :
  all_chars (fun c => negb (Ascii.eqb c sep)) (take_until sep s) = true.
Proof.
  induction s as [|c s IH]; [done|]. simpl.
  destruct (Ascii.eqb c sep) eqn:E; [done|]. simpl. by rewrite E, IH.
Qed.

Lemma take_until_keeps p sep s :
  all_chars p s = true -> all_chars p (take_until sep s) = true.
Proof.
  induction s as [|c s IH]; [done|]. simpl. intros [Hc Hs]%andb_true_iff.
  destruct (Ascii.eqb c sep); [done|]. simpl. by rewrite Hc, IH.
Qed.

Lemma search_field_from_value key s : forall prev v,
  search_field_from key prev s = Some v ->
  v <> "" /\ all_chars (fun c => negb (Ascii.eqb c ";")) v = true.
Proof.
  induction s as [|c s IH]; intros prev v; [done|]. cbn [search_field_from].
  destruct (negb prev && startswith key (String c s) &&
            negb (String.eqb (take_until ";" (drop_chars (String.length key) (String c s))) ""))
    eqn:E.
  - intros [= <-]. apply andb_true_iff in E as [_ E]. apply negb_true_iff in E.
    apply String.eqb_neq in E. split; [done|]. apply take_until_free.
  - apply IH.
Qed.

(** X25. What [update_from_attrs] reads from the attributes of a line is
    clean: the name is never empty and has no semicolon, the parent id
    has neither a semicolon nor a comma, and a record whose name has a
    type prefix never keeps the biotype transcript. *)
Theorem attrs_fields_clean l :
  (forall n, name (update_from_attrs (make_record l)) = Some n ->
     n <> "" /\ all_chars (fun c => negb (Ascii.eqb c ";")) n = true /\
     (contains ":" n = true -> biotype (update_from_attrs (make_record l)) <> "transcript")) /\
  (forall p, parent_id (update_from_attrs (make_record l)) = Some p ->
     all_chars (fun c => negb (Ascii.eqb c ";")) p = true /\
     all_chars (fun c => negb (Ascii.eqb c ",")) p = true).
Proof.
  unfold update_from_attrs.
  set (attr := tidy_gff3_stableids (attrs (make_record l))).
  set (id_key := if contains "ID=" (attrs (make_record l)) then "ID=" else "exon_id=").
  set (r1 := match search_field id_key attr with
             | Some feature_id => set_name (Some feature_id) (make_record l)
             | None => make_record l
             end).
  set (r2 := match search_field "Parent=" attr with
             | Some pid => set_parent_id (Some (take_until "," pid)) r1
             | None => r1
             end).
  assert (Hname : name r2 = search_field id_key attr).
  { unfold r2, r1. destruct (search_field "Parent=" attr); destruct (search_field id_key attr); done. }
  assert (Hpar : parent_id r2 = take_until "," <$> search_field "Parent=" attr).
  { unfold r2, r1. destruct (search_field "Parent=" attr); destruct (search_field id_key attr); done. }
  set (R := if contains ":" (default "" (name r2)) then _ else r2).
  assert (HRn : name R = name r2) by (unfold R; by destruct (contains ":" (default "" (name r2)))).
  assert (HRp : parent_id R = parent_id r2) by (unfold R; by destruct (contains ":" (default "" (name r2)))).
  split.
  - intros n Hn. rewrite HRn in Hn. pose proof Hn as Hn'. rewrite Hname in Hn'.
    unfold search_field in Hn'. apply search_field_from_value in Hn' as [Hne Hfree].
    split; [done|]. split; [done|]. intros Hcolon. unfold R. rewrite Hn. simpl.
    rewrite Hcolon. simpl.
    destruct (String.eqb (take_until ":" n) "transcript") eqn:Ht; [done|].
    by apply String.eqb_neq in Ht.
  - intros p Hp. rewrite HRp, Hpar in Hp.
    destruct (search_field "Parent=" attr) as [pid|] eqn:Hs; [|done].
    injection Hp as <-. unfold search_field in Hs.
    apply search_field_from_value in Hs as [_ Hfree].
    split; [by apply take_until_keeps|apply take_until_free].
Qed.

(** ** The gene table *)

Lemma gene_rows_from_all {V} (species : V) limit (records : list (string -> option V)) : forall i,
  (forall j, i <= j -> Some j <> limit) ->
  gene_rows_from species i limit records = gene_rows_from species i None records.
Proof.
  induction records as [|r records IH]; intros i Hi; [done|]. simpl.
  rewrite decide_False by (apply Hi; lia). f_equal. apply IH. intros j Hj. apply Hi. lia.
Qed.

Lemma gene_rows_from_take {V} (species : V) (records : list (string -> option V)) : forall i k,
  i <= k ->
  gene_rows_from species i (Some k) records =
  gene_rows_from species i None (take (Z.to_nat (k - i) + 1) records).
Proof.
  induction records as [|r records IH]; intros i k Hik.
  - by rewrite take_nil.
  - rewrite Nat.add_1_r. cbn [take gene_rows_from]. f_equal.
    destruct (decide (Some i = Some k)) as [[= ->]|Hne].
    + rewrite Z.sub_diag. simpl. by destruct records.
    + rewrite decide_False by done. rewrite IH by (assert (i <> k) by congruence; lia).
      do 2 f_equal. assert (i <> k) by congruence. lia.
Qed.

(** X26. [get_gene_table_for_species] stops one record late: with a
    limit of [k] that is not negative the table has the rows of the
    first [k + 1] records, and without a limit, or with a negative one,
    the rows of all of them; each row starts with the species. *)
Theorem gene_rows_limit {V} (species : V) (records : list (string -> option V)) :
  (forall k, 0 <= k ->
     gene_rows species (Some k) records =
     gene_rows species None (take (Z.to_nat k + 1) records)) /\
  (forall k, k < 0 -> gene_rows species (Some k) records = gene_rows species None records) /\
  length (gene_rows species None records) = length records /\
  Forall (fun row => head row = Some (Some species)) (gene_rows species None records).
Proof.
  unfold gene_rows. split_and!.
  - intros k Hk. rewrite gene_rows_from_take by done. by rewrite Z.sub_0_r.
  - intros k Hk. apply gene_rows_from_all. intros j Hj [= ->]. lia.
  - generalize 0. induction records as [|r records IH]; intros i; [done|]. simpl.
    by rewrite IH.
  - generalize 0. induction records as [|r records IH]; intros i; [constructor|]. simpl.
    constructor; [done|]. apply IH.
Qed.

(** ** Sequences as arrays *)

Lemma fold_table (pairs : list (ascii * ascii)) : forall tbl,
  NoDup pairs.*1 ->
  (forall a b, (a, b) ∈ pairs ->
     fold_left (fun tbl '(a, b) => fun c => if Ascii.eqb c a then b else tbl c) pairs tbl a = b) /\
  (forall c, c ∉ pairs.*1 ->
     fold_left (fun tbl '(a, b) => fun c => if Ascii.eqb c a then b else tbl c) pairs tbl c = tbl c).
Proof.
  induction pairs as [|[a0 b0] pairs IH]; intros tbl Hnd.
  - split; [by intros a b ?%elem_of_nil|done].
  - rewrite fmap_cons in Hnd. apply NoDup_cons in Hnd as [Ha0 Hnd]. simpl in Ha0.
    destruct (IH (fun c => if Ascii.eqb c a0 then b0 else tbl c) Hnd) as [IH1 IH2].
    cbn [fold_left]. split.
    + intros a b [[= -> ->]|Hin]%elem_of_cons; [|by apply IH1].
      rewrite IH2 by done. by rewrite Ascii.eqb_refl.
    + intros c Hc. rewrite fmap_cons in Hc. apply not_elem_of_cons in Hc as [Hc0 Hc].
      rewrite IH2 by done. simpl in Hc0. by apply Ascii.eqb_neq in Hc0 as ->.
Qed.

Lemma maketrans_spec frm to tbl :
  maketrans frm to = Some tbl -> NoDup frm ->
  length frm = length to /\
  (forall i a b, frm !! i = Some a -> to !! i = Some b -> tbl a = b) /\
  (forall c, c ∉ frm -> tbl c = c).
Proof.
  unfold maketrans. destruct (decide (length frm = length to)) as [Hlen|]; [|done].
  intros [= <-] Hnd. split; [done|].
  assert (Hfst : (zip frm to).*1 = frm) by (apply fst_zip; lia).
  destruct (fold_table (zip frm to) (fun c => c)) as [H1 H2]; [by rewrite Hfst|].
  split.
  - intros i a b Ha Hb. apply H1. apply list_elem_of_lookup. exists i.
    rewrite lookup_zip_with, Ha. simpl. by rewrite Hb.
  - intros c Hc. apply H2. by rewrite Hfst.
Qed.

Lemma index_bytes_nodup n : (n <= 128)%nat -> NoDup (index_bytes n).
Proof.
  intros Hn. unfold index_bytes. apply NoDup_fmap_2_strong; [|apply NoDup_seq].
  intros i j Hi Hj Heq. apply elem_of_seq in Hi, Hj.
  rewrite <- (nat_ascii_embedding i), <- (nat_ascii_embedding j) by lia. by rewrite Heq.
Qed.

Lemma index_bytes_lookup n i : (i < n)%nat -> index_bytes n !! i = Some (ascii_of_nat i).
Proof.
  intros Hi. unfold index_bytes. rewrite list_lookup_fmap, lookup_seq_lt by done. done.
Qed.

Lemma index_bytes_elem n c : (n <= 128)%nat -> c ∈ index_bytes n -> (nat_of_ascii c < n)%nat.
Proof.
  intros Hn (i & -> & Hi%elem_of_seq)%list_elem_of_fmap.
  rewrite nat_ascii_embedding by lia. lia.
Qed.

Lemma isascii_chars s :
  isascii s = true -> Forall (fun c => (nat_of_ascii c < 128)%nat) (list_ascii_of_string s).
Proof.
  unfold isascii. induction s as [|c s IH]; cbn [all_chars list_ascii_of_string]; [constructor|].
  intros [Hc Hs]%andb_true_iff. constructor; [|by apply IH]. by apply Nat.ltb_lt.
Qed.

Lemma isascii_of_chars l :
  Forall (fun c => (nat_of_ascii c < 128)%nat) l -> isascii (string_of_list_ascii l) = true.
Proof.
  unfold isascii. induction 1 as [|c l Hc _ IH]; [done|].
  cbn [string_of_list_ascii all_chars]. rewrite IH, andb_true_r. by apply Nat.ltb_lt.
Qed.

Lemma string_of_list_length l : String.length (string_of_list_ascii l) = length l.
Proof. induction l as [|c l IH]; simpl; [done|]. by rewrite IH. Qed.

Lemma cut_Forall {A} (P : A -> Prop) m (l : list A) : Forall P l -> Forall P (cut m l).
Proof.
  intros Hl. unfold cut, slice_to. destruct m as [m|]; [|done].
  destruct (decide (m = 0)); [done|]. destruct (decide (0 <= m)); by apply Forall_take.
Qed.

(** X23. What [str2arr] turns into an array, [arr2str] turns back: for
    an alphabet of ASCII characters without repetition and an ASCII
    text whose characters are in the alphabet or have a code that is no
    index of it, decoding the encoded text gives the text, cut to
    [max_length] characters when the encoder has one; the array is as
    long as the text it encodes, a character of the alphabet is encoded
    as its index, and every byte of the array is below 128. *)
Theorem arr2str_str2arr extended m s2a a2s data :
  isascii extended = true -> isascii data = true ->
  str2arr extended m = Some s2a -> arr2str extended None = Some a2s ->
  NoDup (list_ascii_of_string extended) ->
  Forall (fun c => c ∈ list_ascii_of_string extended \/
                   (String.length extended <= nat_of_ascii c)%nat)
         (list_ascii_of_string data) ->
  arr2str_main a2s (str2arr_main s2a data) = cut_str m data /\
  isascii (cut_str m data) = true /\
  length (str2arr_main s2a data) = String.length (cut_str m data) /\
  (forall k i c, list_ascii_of_string (cut_str m data) !! k = Some c ->
     list_ascii_of_string extended !! i = Some c ->
     str2arr_main s2a data !! k = Some (ascii_of_nat i)) /\
  Forall (fun b => (nat_of_ascii b < 128)%nat) (str2arr_main s2a data).
Proof.
  intros _ Hascii. apply isascii_chars in Hascii. revert Hascii.
  unfold str2arr, arr2str. set (E := list_ascii_of_string extended).
  assert (HlenE : String.length extended = length E).
  { unfold E. clear. induction extended as [|c s IH]; simpl; [done|]. by rewrite IH. }
  rewrite HlenE. destruct (decide (length E <= 128)%nat) as [Hn|]; [|done].
  destruct (maketrans E (index_bytes (length E))) as [t1|] eqn:H1; [|done].
  destruct (maketrans (index_bytes (length E)) E) as [t2|] eqn:H2; [|done].
  simpl. intros Hascii [= <-] [= <-] Hnd Hdata.
  apply maketrans_spec in H1 as (_ & H1a & H1b); [|done].
  apply maketrans_spec in H2 as (_ & H2a & H2b); [|by apply index_bytes_nodup].
  unfold arr2str_main, str2arr_main, encode_utf8, decode_utf8, cut_str.
  rewrite list_ascii_of_string_of_list_ascii. simpl.
  pose proof (cut_Forall _ m _ Hdata) as Hcut.
  pose proof (cut_Forall _ m _ Hascii) as Hlow.
  split; [|split; [|split; [|split]]].
  - f_equal. rewrite <- list_fmap_compose.
    clear Hlow. induction Hcut as [|c l Hc Hl IH]; [done|]. rewrite fmap_cons, IH. f_equal. simpl.
    destruct (decide (c ∈ E)) as [Hin|Hout].
    + apply list_elem_of_lookup in Hin as [i Hi].
      rewrite (H1a i c (ascii_of_nat i) Hi); [|apply index_bytes_lookup; by eapply lookup_lt_Some].
      apply (H2a i); [|done]. apply index_bytes_lookup. by eapply lookup_lt_Some.
    + destruct Hc as [Hc|Hc]; [done|]. rewrite H1b by done. apply H2b.
      intros Hidx%index_bytes_elem; [lia|done].
  - by apply isascii_of_chars.
  - by rewrite length_fmap, string_of_list_length.
  - intros k i c Hk Hi. rewrite ?list_ascii_of_string_of_list_ascii in Hk.
    rewrite list_lookup_fmap, Hk. simpl. f_equal.
    apply (H1a i); [done|]. apply index_bytes_lookup. by eapply lookup_lt_Some.
  - apply Forall_fmap. eapply Forall_impl; [exact Hlow|]. intros c Hc. simpl.
    destruct (decide (c ∈ E)) as [Hin|Hout].
    + apply list_elem_of_lookup in Hin as [i Hi].
      pose proof (lookup_lt_Some _ _ _ Hi) as Hlt.
      rewrite (H1a i c (ascii_of_nat i) Hi); [|by apply index_bytes_lookup].
      rewrite nat_ascii_embedding; lia.
    + by rewrite H1b.
Qed.

Lemma arr2str_str2arr_witness :
  exists s2a a2s,
    str2arr "TCAG-N" (Some 3) = Some s2a /\ arr2str "TCAG-N" None = Some a2s /\
    arr2str_main a2s (str2arr_main s2a "GATTACA") = "GAT" /\
    str2arr_main s2a "GATTACA" = [ascii_of_nat 3; ascii_of_nat 2; ascii_of_nat 0].
Proof.
  eexists _, _. split; [reflexivity|]. split; [reflexivity|].
  destruct (arr2str_str2arr "TCAG-N" (Some 3) _ _ "GATTACA" eq_refl eq_refl eq_refl eq_refl)
    as (H1 & _).
  - apply (bool_decide_unpack _). vm_compute. exact I.
  - repeat constructor; left; apply (bool_decide_unpack _); vm_compute; exact I.
  - split; [exact H1|reflexivity].
Defined.

(** ** Parents and children *)

Lemma select_unique {A B} (key : A -> Z) (l : list A) (x0 : A) (P : A -> Prop)
    `{!forall x, Decision (P x)} (h : A -> B) :
  NoDup (key <$> l) -> x0 ∈ l -> (forall x, P x -> key x = key x0) ->
  (x ← l; if decide (P x) then [h x] else []) = if decide (P x0) then [h x0] else [].
Proof.
  intros Hnd Hin HP.
  assert (Huniq : forall x, x ∈ l -> key x = key x0 -> x = x0).
  { clear -Hnd Hin. induction l as [|y l IH]; [by apply elem_of_nil in Hin|].
    rewrite fmap_cons, NoDup_cons in Hnd. destruct Hnd as [Hy Hnd]. intros x Hx E.
    apply elem_of_cons in Hin as [->|Hin]; apply elem_of_cons in Hx as [->|Hx]; try done.
    - exfalso. apply Hy. rewrite <- E. apply list_elem_of_fmap. by exists x.
    - exfalso. apply Hy. rewrite E. apply list_elem_of_fmap. by exists x0.
    - by apply IH. }
  apply list_elem_of_split in Hin as (l1 & l2 & ->).
  rewrite bind_app, bind_cons.
  assert (Hnot : forall x, x ∈ l1 ++ l2 -> ~ P x).
  { intros x Hx HPx. assert (x = x0) as ->.
    { apply Huniq; [|by apply HP]. apply elem_of_app in Hx as [Hx|Hx].
      - apply elem_of_app. by left.
      - apply elem_of_app. right. by right. }
    rewrite fmap_app, fmap_cons in Hnd. apply NoDup_app in Hnd as (_ & Hd & Hnd2).
    apply NoDup_cons in Hnd2 as [Hx0 _]. apply elem_of_app in Hx as [Hx|Hx].
    - apply (Hd (key x0)); [apply list_elem_of_fmap; by exists x0|by left].
    - apply Hx0. apply list_elem_of_fmap. by exists x0. }
  rewrite (bind_miss _ l1), (bind_miss _ l2).
  - by rewrite app_nil_r.
  - intros x Hx. rewrite decide_False; [done|]. apply Hnot. apply elem_of_app. by right.
  - intros x Hx. rewrite decide_False; [done|]. apply Hnot. apply elem_of_app. by left.
Qed.

Lemma built_feature_ids db : built db -> NoDup (f_id <$> feature_tbl db).
Proof.
  induction 1 as [|db feature db' feature' _ IH H]; [constructor|].
  apply add_feature_unfold in H as (row & _ & _ & Hf & _ & _ & Hid & _).
  rewrite Hf, fmap_app. apply NoDup_app. split; [done|]. split; [|apply NoDup_singleton].
  intros x Hx Hx'. apply list_elem_of_singleton in Hx'. simpl in Hx'. subst x.
  rewrite Hid in Hx. by apply fresh_id_fresh in Hx.
Qed.

Lemma add_features_built records : forall db objects db' objects',
  built db -> add_features db objects records = Some (db', objects') -> built db'.
Proof.
  induction records as [|i records IH]; intros db objects db' objects' Hb; simpl.
  - by intros [= <- _].
  - destruct (objects !! i) as [record|]; [|done]. simpl.
    destruct (add_feature db record) as [[db1 r1]|] eqn:Hadd; [|done]. simpl.
    apply IH. by eapply built_add.
Qed.

Lemma make_annotation_db_built lines store :
  make_annotation_db lines = Some store -> built (features store).
Proof.
  unfold make_annotation_db.
  destruct (make_gene_relationships _) as [related|]; [|done]. simpl.
  unfold GenomeDb.add_records. simpl.
  destruct (add_features empty_db (recs related) _) as [[db' objects']|] eqn:Hrun; [|done].
  simpl. destruct (mapM _ (genes related)); [|done]. simpl. intros [= <-]. simpl.
  eapply add_features_built; [apply built_empty|done].
Qed.

Lemma edge_rows (store : annotation_store) (e : Z * Z) :
  built (features store) ->
  e.1 ∈ (f_id <$> feature_tbl (features store)) ->
  e.2 ∈ (f_id <$> feature_tbl (features store)) ->
  exists fp fc bp bc,
    fp ∈ feature_tbl (features store) /\ fc ∈ feature_tbl (features store) /\
    f_id fp = e.1 /\ f_id fc = e.2 /\
    (b ← biotype_tbl (features store);
     fp' ← feature_tbl (features store);
     fc' ← feature_tbl (features store);
     if decide (f_biotype_id fc' = b.2 /\ f_id fp' = e.1 /\ f_id fc' = e.2)
     then [p2c_of fp' fc' b] else []) = [p2c_of fp fc bc] /\
    (b ← biotype_tbl (features store);
     fp' ← feature_tbl (features store);
     fc' ← feature_tbl (features store);
     if decide (f_biotype_id fp' = b.2 /\ f_id fp' = e.1 /\ f_id fc' = e.2)
     then [c2p_of fp' fc' b] else []) = [c2p_of fp fc bp].
Proof.
  intros Hb H1 H2. pose proof (built_feature_ids _ Hb) as Hids.
  destruct (built_interned _ Hb) as (Hbids & _ & Hrows).
  apply list_elem_of_fmap in H1 as (fp & E1 & Hfp). apply list_elem_of_fmap in H2 as (fc & E2 & Hfc).
  destruct (proj1 (list_elem_of_fmap _ _ _) (Hrows fp Hfp)) as (bp & Ebp & Hbp).
  destruct (proj1 (list_elem_of_fmap _ _ _) (Hrows fc Hfc)) as (bc & Ebc & Hbc).
  exists fp, fc, bp, bc. split_and!; try done.
  - transitivity (b ← biotype_tbl (features store);
                  if decide (b.2 = bc.2) then [p2c_of fp fc b] else []).
    + apply bind_ext_in. intros b _.
      transitivity (fp' ← feature_tbl (features store);
                    if decide (f_id fp' = f_id fp /\ f_biotype_id fc = b.2)
                    then [p2c_of fp' fc b] else []).
      * apply bind_ext_in. intros fp' _.
        rewrite (select_unique f_id _ fc
          (fun fc' => f_biotype_id fc' = b.2 /\ f_id fp' = e.1 /\ f_id fc' = e.2)
          (fun fc' => p2c_of fp' fc' b)); [|done|done|intros x (_ & _ & ->); done].
        apply decide_ext. rewrite E1, E2. tauto.
      * rewrite (select_unique f_id _ fp
          (fun fp' => f_id fp' = f_id fp /\ f_biotype_id fc = b.2)
          (fun fp' => p2c_of fp' fc b)); [|done|done|tauto].
        apply decide_ext. rewrite <- Ebc. intuition congruence.
    + rewrite (select_unique snd _ bc (fun b => b.2 = bc.2) (fun b => p2c_of fp fc b));
        [|done|done|done]. by rewrite decide_True.
  - transitivity (b ← biotype_tbl (features store);
                  if decide (b.2 = bp.2) then [c2p_of fp fc b] else []).
    + apply bind_ext_in. intros b _.
      transitivity (fp' ← feature_tbl (features store);
                    if decide (f_id fp' = f_id fp /\ f_biotype_id fp' = b.2)
                    then [c2p_of fp' fc b] else []).
      * apply bind_ext_in. intros fp' _.
        rewrite (select_unique f_id _ fc
          (fun fc' => f_biotype_id fp' = b.2 /\ f_id fp' = e.1 /\ f_id fc' = e.2)
          (fun fc' => c2p_of fp' fc' b)); [|done|done|intros x (_ & _ & ->); done].
        apply decide_ext. rewrite E1, E2. tauto.
      * rewrite (select_unique f_id _ fp
          (fun fp' => f_id fp' = f_id fp /\ f_biotype_id fp' = b.2)
          (fun fp' => c2p_of fp' fc b)); [|done|done|tauto].
        apply decide_ext. rewrite <- Ebp. intuition congruence.
    + rewrite (select_unique snd _ bp (fun b => b.2 = bp.2) (fun b => c2p_of fp fc b));
        [|done|done|done]. by rewrite decide_True.
Qed.

(** X28. In the store that [make_annotation_db] writes, the two views
    show every row of [related_feature] once and in order:
    [parent_to_child] as the child with the stable id of its parent, and
    [child_to_parent] as the parent with the stable id of its child. *)
Theorem views_show_every_edge lines store :
  make_annotation_db lines = Some store ->
  Forall2 (fun e row =>
             exists fp fc, fp ∈ feature_tbl (features store) /\
               fc ∈ feature_tbl (features store) /\ f_id fp = e.1 /\ f_id fc = e.2 /\
               p_parent_stableid row = f_stableid fp /\ p_name row = f_stableid fc)
          (related_feature_tbl store) (parent_to_child store) /\
  Forall2 (fun e row =>
             exists fp fc, fp ∈ feature_tbl (features store) /\
               fc ∈ feature_tbl (features store) /\ f_id fp = e.1 /\ f_id fc = e.2 /\
               c_name row = f_stableid fp /\ c_child_stableid row = f_stableid fc)
          (related_feature_tbl store) (child_to_parent store).
Proof.
  intros Hmk. pose proof (make_annotation_db_built _ _ Hmk) as Hb.
  destruct (make_annotation_db_facts lines store Hmk) as (_ & _ & Hedges).
  unfold parent_to_child, child_to_parent.
  induction (related_feature_tbl store) as [|e es IH]; [by split; constructor|].
  destruct IH as [IH1 IH2]. { intros e' He'. apply Hedges. by right. }
  destruct (Hedges e ltac:(by left)) as [H1 H2].
  destruct (edge_rows store e Hb H1 H2) as (fp & fc & bp & bc & Hfp & Hfc & E1 & E2 & Hp & Hc).
  rewrite !bind_cons, Hp, Hc. split.
  - constructor; [|done]. by exists fp, fc.
  - constructor; [|done]. by exists fp, fc.
Qed.

Lemma views_show_every_edge_witness :
  length (parent_to_child
            (default {| features := empty_db; related_feature_tbl := [] |}
               (make_annotation_db two_transcripts))) = 2%nat /\
  length (child_to_parent
            (default {| features := empty_db; related_feature_tbl := [] |}
               (make_annotation_db two_transcripts))) = 2%nat.
Proof.
  assert (Hmk : exists store, make_annotation_db two_transcripts = Some store /\
                              length (related_feature_tbl store) = 2%nat)
    by (vm_compute; eexists; split; reflexivity).
  destruct Hmk as (store & Hmk & Hlen). rewrite Hmk. simpl.
  destruct (views_show_every_edge two_transcripts store Hmk) as [H1 H2].
  apply Forall2_length in H1. apply Forall2_length in H2.
  split; [rewrite <- H1|rewrite <- H2]; exact Hlen.
Defined.
